(** * go-imagewatermark: a shallow embedding and its verified properties

    The package overlays a watermark image on base images (single placement,
    grid tiling, batch variants).  This file transcribes the current revision
    of the package (config.go, utils.go, single.go, grid.go) together with the
    parts of Go's [image], [image/color], [image/draw] and [math/rand] that its
    functions call, and proves what the specification says about them.

    Conventions.
    - Go's [int] is a 64-bit two's-complement integer: a [Z] in
      [[MinInt, MaxInt]], every arithmetic operation wrapped by [wrap].
    - Go's [float64] is the kernel's binary64 [float]; comparisons are the IEEE
      ones, so [NaN] compares false with everything.
    - A call that can panic, or a loop that may not terminate, returns an
      [outcome]; loops whose step is not a constant run on fuel.
    - The image library github.com/disintegration/imaging is an interface
      ([imaging.Lib]); [standin] instantiates it for evaluation. *)

From Stdlib Require Import ZArith Floats Lia String.
From stdpp Require Import base tactics option list numbers.

Local Open Scope Z_scope.

(** ** Go's [int] *)

Definition MinInt : Z := - 2 ^ 63.
Definition MaxInt : Z := 2 ^ 63 - 1.

(** Two's-complement reduction of a mathematical integer to an [int]. *)
Definition wrap (z : Z) : Z := (z + 2 ^ 63) mod 2 ^ 64 - 2 ^ 63.

Definition is_int (z : Z) : Prop := MinInt <= z <= MaxInt.

Definition int_add (a b : Z) : Z := wrap (a + b).
Definition int_sub (a b : Z) : Z := wrap (a - b).
Definition int_mul (a b : Z) : Z := wrap (a * b).

(** ** Outcomes of a call: a value, a runtime panic, or fuel exhausted *)

Inductive outcome (A : Type) : Type :=
| Ret (a : A)
| Panic (msg : string)
| OutOfFuel.

Arguments Ret {A} a.
Arguments Panic {A} msg.
Arguments OutOfFuel {A}.

#[global] Instance outcome_ret : MRet outcome := fun _ a => Ret a.
#[global] Instance outcome_bind : MBind outcome := fun _ _ f m =>
  match m with
  | Ret a => f a
  | Panic msg => Panic msg
  | OutOfFuel => OutOfFuel
  end.

(** [for _, a := range l { s = body(s, a) }] *)
Fixpoint forM {S A : Type} (body : S -> A -> outcome S) (l : list A) (s : S)
  : outcome S :=
  match l with
  | [] => Ret s
  | a :: l' => s' ← body s a; forM body l' s'
  end.

(** Go's truncated division [a / b]; a zero divisor panics. *)
Definition int_quot (a b : Z) : outcome Z :=
  if b =? 0 then Panic "runtime error: integer divide by zero"
  else Ret (wrap (Z.quot a b)).

(** ** Go's slices *)

(** The largest allocation of the runtime, [maxAlloc], on the 64-bit
    platforms (48 bits of heap addresses). *)
Definition maxAlloc : Z := 2 ^ 48.

(** [make([]T, 0, cap)] for elements of [size] bytes ([runtime.makeslice]):
    a panic when the capacity is negative or when its bytes overflow or
    exceed [maxAlloc]; otherwise an empty slice, which [append] extends.
    Running out of memory below that limit is outside the model. *)
Definition makeslice (size cap : Z) : outcome unit :=
  if (cap <? 0) || (maxAlloc <? size * cap)
  then Panic "runtime error: makeslice: cap out of range"
  else Ret tt.

(** ** Go's [float64] *)

(** [float64(z)]: the correctly rounded conversion of an integer. *)
Definition float64_of_int (z : Z) : float :=
  SF2Prim (binary_normalize prec emax z 0 false).

(** The integer part of a finite float (truncation toward zero). *)
Definition float64_trunc (f : float) : option Z :=
  match Prim2SF f with
  | S754_zero _ => Some 0
  | S754_finite s m e =>
      let v := match e with
               | Z0 => Zpos m
               | Zpos p => Zpos m * 2 ^ Zpos p
               | Zneg p => Zpos m / 2 ^ Zpos p
               end in
      Some (if s then - v else v)
  | S754_infinity _ => None
  | S754_nan => None
  end.

(** [int(f)].  The language leaves the result open when the truncated value
    does not fit (or [f] is not finite); amd64 yields [MinInt], modelled
    here. *)
Definition int_of_float64 (f : float) : Z :=
  match float64_trunc f with
  | Some z => if (MinInt <=? z) && (z <=? MaxInt) then z else MinInt
  | None => MinInt
  end.

(** [uint8(f)]: conversion through [int], keeping the low eight bits. *)
Definition uint8_of_float64 (f : float) : Z := int_of_float64 f mod 256.

Definition float64_is_nan (f : float) : bool := negb (f =? f)%float.

(** Unsigned conversions, written where the Go code converts. *)
Definition uint8 (z : Z) : Z := z mod 256.
Definition uint32 (z : Z) : Z := z mod 2 ^ 32.

(** ** Package image/color *)

Module color.

(** A [color.Color] is used only through its method [RGBA()]; it is
    represented by the four alpha-premultiplied 16-bit channels that method
    returns. *)
Record Color := mkColor { r16 : Z; g16 : Z; b16 : Z; a16 : Z }.

(** [color.NRGBA]: 8-bit channels, colour not premultiplied by alpha. *)
Module NRGBA.
Record t := mk { R : Z; G : Z; B : Z; A : Z }.

Definition channel (c a : Z) : Z :=
  let r := uint32 c in
  let r := Z.lor r (uint32 (Z.shiftl r 8)) in
  let r := uint32 (r * uint32 a) in
  r / 255.

(** [func (c NRGBA) RGBA() (r, g, b, a uint32)] *)
Definition RGBA (c : t) : Color :=
  let a := uint32 (A c) in
  mkColor (channel (R c) (A c)) (channel (G c) (A c)) (channel (B c) (A c))
          (Z.lor a (uint32 (Z.shiftl a 8))).
End NRGBA.

(** [color.RGBA]: 8-bit channels, colour premultiplied by alpha. *)
Module RGBA.
Record t := mk { R : Z; G : Z; B : Z; A : Z }.

Definition channel (c : Z) : Z :=
  let r := uint32 c in Z.lor r (uint32 (Z.shiftl r 8)).

(** [func (c RGBA) RGBA() (r, g, b, a uint32)] *)
Definition RGBA (c : t) : Color :=
  mkColor (channel (R c)) (channel (G c)) (channel (B c)) (channel (A c)).
End RGBA.

End color.

(** ** Package image *)

Module image.

Module Point.
Record t := mk { X : Z; Y : Z }.
Definition Add (p q : t) : t := mk (int_add (X p) (X q)) (int_add (Y p) (Y q)).
Definition Sub (p q : t) : t := mk (int_sub (X p) (X q)) (int_sub (Y p) (Y q)).
End Point.

Module Rectangle.
Record t := mk { Min : Point.t; Max : Point.t }.

Definition ZR : t := mk (Point.mk 0 0) (Point.mk 0 0).
Definition Dx (r : t) : Z := int_sub (Point.X (Max r)) (Point.X (Min r)).
Definition Dy (r : t) : Z := int_sub (Point.Y (Max r)) (Point.Y (Min r)).
Definition Size (r : t) : Point.t := Point.mk (Dx r) (Dy r).
Definition Add (r : t) (p : Point.t) : t :=
  mk (Point.Add (Min r) p) (Point.Add (Max r) p).
Definition Empty (r : t) : bool :=
  (Point.X (Max r) <=? Point.X (Min r)) || (Point.Y (Max r) <=? Point.Y (Min r)).

Definition Intersect (r s : t) : t :=
  let minx := if Point.X (Min r) <? Point.X (Min s) then Point.X (Min s) else Point.X (Min r) in
  let miny := if Point.Y (Min r) <? Point.Y (Min s) then Point.Y (Min s) else Point.Y (Min r) in
  let maxx := if Point.X (Max s) <? Point.X (Max r) then Point.X (Max s) else Point.X (Max r) in
  let maxy := if Point.Y (Max s) <? Point.Y (Max r) then Point.Y (Max s) else Point.Y (Max r) in
  let r' := mk (Point.mk minx miny) (Point.mk maxx maxy) in
  if Empty r' then ZR else r'.
End Rectangle.

(** [func (p Point) In(r Rectangle) bool] *)
Definition Point_In (p : Point.t) (r : Rectangle.t) : bool :=
  (Point.X (Rectangle.Min r) <=? Point.X p) && (Point.X p <? Point.X (Rectangle.Max r))
  && (Point.Y (Rectangle.Min r) <=? Point.Y p) && (Point.Y p <? Point.Y (Rectangle.Max r)).

(** The interface [image.Image]: [Bounds()] and [At(x, y)], the latter read
    through [RGBA()].  [At] may panic (an image value whose buffer is shorter
    than its bounds). *)
Module Image.
Record t := mk { Bounds : Rectangle.t; At : Z -> Z -> outcome color.Color }.
End Image.

(** [pixelBufferLength]: the allocation of [NewRGBA]/[NewNRGBA] panics on a
    rectangle of negative width or height, or when the byte count overflows. *)
Definition pixelBufferLength (r : Rectangle.t) (name : string) : outcome Z :=
  let w := Rectangle.Dx r in
  let h := Rectangle.Dy r in
  if (w <? 0) || (h <? 0) || (MaxInt <? 4 * w * h)
  then Panic ("image: New" ++ name ++ " Rectangle has huge or negative dimensions")
  else Ret (w * h).

(** The layout [*image.RGBA] and [*image.NRGBA] share: a buffer of pixels in
    rows, the distance between rows, and the bounds.  [Pix] holds one colour
    per pixel (Go: four consecutive bytes) and [Stride] counts pixels (Go:
    bytes). *)
Record buffer (C : Type) := mkBuffer { Pix : list C; Stride : Z; Rect : Rectangle.t }.
Arguments mkBuffer {C} Pix Stride Rect.
Arguments Pix {C} b.
Arguments Stride {C} b.
Arguments Rect {C} b.

(** [func (p *RGBA) PixOffset(x, y int) int], in pixels. *)
Definition PixOffset {C} (p : buffer C) (x y : Z) : Z :=
  int_add (int_mul (int_sub y (Point.Y (Rectangle.Min (Rect p)))) (Stride p))
          (int_sub x (Point.X (Rectangle.Min (Rect p)))).

(** [p.Pix[i]]: an index outside the slice panics. *)
Definition index {C} (p : buffer C) (i : Z) : outcome C :=
  if i <? 0 then Panic "runtime error: index out of range"
  else match Pix p !! Z.to_nat i with
       | Some c => Ret c
       | None => Panic "runtime error: index out of range"
       end.

(** [p.Pix[i] = c] *)
Definition store {C} (p : buffer C) (i : Z) (c : C) : outcome (buffer C) :=
  _ ← index p i;
  Ret (mkBuffer (<[Z.to_nat i := c]> (Pix p)) (Stride p) (Rect p)).

(** [func (p *RGBA) RGBAAt(x, y int) color.RGBA] and its [NRGBA] twin. *)
Definition colorAt {C} (zero : C) (p : buffer C) (x y : Z) : outcome C :=
  if negb (Point_In (Point.mk x y) (Rect p)) then Ret zero
  else index p (PixOffset p x y).

(** [*image.NRGBA] *)
Module NRGBA.
Definition t := buffer color.NRGBA.t.

Definition zero : color.NRGBA.t := color.NRGBA.mk 0 0 0 0.

(** [func (p *NRGBA) NRGBAAt(x, y int) color.NRGBA] *)
Definition NRGBAAt (p : t) (x y : Z) : outcome color.NRGBA.t := colorAt zero p x y.

(** [func (p *NRGBA) Set(x, y int, c color.Color)] on a [color.NRGBA]
    argument, which the colour model stores unchanged ([Set] is reserved in
    Rocq, hence the underscore). *)
Definition Set_ (p : t) (x y : Z) (c : color.NRGBA.t) : outcome t :=
  if negb (Point_In (Point.mk x y) (Rect p)) then Ret p
  else store p (PixOffset p x y) c.

(** An [*image.NRGBA] used as an [image.Image]. *)
Definition Image (p : t) : Image.t :=
  Image.mk (Rect p) (fun x y => c ← NRGBAAt p x y; Ret (color.NRGBA.RGBA c)).
End NRGBA.

(** [*image.RGBA] *)
Module RGBA.
Definition t := buffer color.RGBA.t.

Definition zero : color.RGBA.t := color.RGBA.mk 0 0 0 0.

(** [func (p *RGBA) RGBAAt(x, y int) color.RGBA] *)
Definition RGBAAt (p : t) (x y : Z) : outcome color.RGBA.t := colorAt zero p x y.

(** An [*image.RGBA] used as an [image.Image]. *)
Definition Image (p : t) : Image.t :=
  Image.mk (Rect p) (fun x y => c ← RGBAAt p x y; Ret (color.RGBA.RGBA c)).
End RGBA.

(** [func NewNRGBA(r Rectangle) *NRGBA] *)
Definition NewNRGBA (r : Rectangle.t) : outcome NRGBA.t :=
  n ← pixelBufferLength r "NRGBA";
  Ret (mkBuffer (replicate (Z.to_nat n) NRGBA.zero) (Rectangle.Dx r) r).

(** [func NewRGBA(r Rectangle) *RGBA] *)
Definition NewRGBA (r : Rectangle.t) : outcome RGBA.t :=
  n ← pixelBufferLength r "RGBA";
  Ret (mkBuffer (replicate (Z.to_nat n) RGBA.zero) (Rectangle.Dx r) r).

End image.

(** [image.Transparent], the fully transparent uniform colour. *)
Definition image_Transparent : color.Color := color.mkColor 0 0 0 0.

(** ** Package image/draw, for a destination of type [*image.RGBA] *)

Module draw.

Inductive Op := Over | Src.

(** [clip]: the rectangle is cut to the destination's bounds and to the
    source's bounds (moved so that [sp] falls on [r.Min]); [sp] follows. *)
Definition clip (dst : image.RGBA.t) (r : image.Rectangle.t) (src : image.Image.t)
    (sp : image.Point.t) : image.Rectangle.t * image.Point.t :=
  let orig := image.Rectangle.Min r in
  let r := image.Rectangle.Intersect r (image.Rect dst) in
  let r := image.Rectangle.Intersect r
             (image.Rectangle.Add (image.Image.Bounds src) (image.Point.Sub orig sp)) in
  let dx := int_sub (image.Point.X (image.Rectangle.Min r)) (image.Point.X orig) in
  let dy := int_sub (image.Point.Y (image.Rectangle.Min r)) (image.Point.Y orig) in
  if (dx =? 0) && (dy =? 0) then (r, sp)
  else (r, image.Point.mk (int_add (image.Point.X sp) dx) (int_add (image.Point.Y sp) dy)).

Definition m : Z := 65535.

(** One channel of the Porter-Duff "over" operator on 8-bit destination and
    16-bit source, no mask: [uint8((d*a + s*m) / m >> 8)]. *)
Definition over_channel (d s a : Z) : Z :=
  uint8 (Z.shiftr (uint32 (uint32 (uint32 d * a) + uint32 (s * m)) / m) 8).

Definition blend (op : Op) (d : color.RGBA.t) (s : color.Color) : color.RGBA.t :=
  match op with
  | Over =>
      let a := uint32 (uint32 (m - color.a16 s) * 257) in
      color.RGBA.mk (over_channel (color.RGBA.R d) (color.r16 s) a)
                    (over_channel (color.RGBA.G d) (color.g16 s) a)
                    (over_channel (color.RGBA.B d) (color.b16 s) a)
                    (over_channel (color.RGBA.A d) (color.a16 s) a)
  | Src =>
      color.RGBA.mk (uint8 (Z.shiftr (uint32 (color.r16 s * m) / m) 8))
                    (uint8 (Z.shiftr (uint32 (color.g16 s * m) / m) 8))
                    (uint8 (Z.shiftr (uint32 (color.b16 s * m) / m) 8))
                    (uint8 (Z.shiftr (uint32 (color.a16 s * m) / m) 8))
  end.

(** The body of the pixel loop: read the source at the point that [sp]
    aligns with [(x, y)], blend it into the destination's buffer. *)
Definition drawPixel (r : image.Rectangle.t) (src : image.Image.t) (sp : image.Point.t)
    (op : Op) (y : Z) (dst : image.RGBA.t) (x : Z) : outcome image.RGBA.t :=
  let sx := int_add (image.Point.X sp) (int_sub x (image.Point.X (image.Rectangle.Min r))) in
  let sy := int_add (image.Point.Y sp) (int_sub y (image.Point.Y (image.Rectangle.Min r))) in
  s ← image.Image.At src sx sy;
  let i := image.PixOffset dst x y in
  d ← image.index dst i;
  image.store dst i (blend op d s).

(** [drawRGBA]: rows top to bottom, pixels left to right over [r]. *)
Definition drawRGBA (dst : image.RGBA.t) (r : image.Rectangle.t) (src : image.Image.t)
    (sp : image.Point.t) (op : Op) : outcome image.RGBA.t :=
  let x0 := image.Point.X (image.Rectangle.Min r) in
  let x1 := image.Point.X (image.Rectangle.Max r) in
  let y0 := image.Point.Y (image.Rectangle.Min r) in
  let y1 := image.Point.Y (image.Rectangle.Max r) in
  forM (fun dst y => forM (drawPixel r src sp op y) (seqZ x0 (x1 - x0)) dst)
       (seqZ y0 (y1 - y0)) dst.

(** [func Draw(dst Image, r image.Rectangle, src image.Image, sp image.Point, op Op)];
    the destination is updated in place, here returned. *)
Definition Draw (dst : image.RGBA.t) (r : image.Rectangle.t) (src : image.Image.t)
    (sp : image.Point.t) (op : Op) : outcome image.RGBA.t :=
  let '(r, sp) := clip dst r src sp in
  if image.Rectangle.Empty r then Ret dst else drawRGBA dst r src sp op.

End draw.

(** ** Package math/rand: the process-wide source *)

Module rand.

(** The generator behind [rand.Intn]: a state and the draw of a number for a
    positive bound. *)
Class Source := { state : Type; sample : state -> Z -> Z * state }.

(** [func Intn(n int) int]: panics unless [n > 0]. *)
Definition Intn `{Source} (g : state) (n : Z) : outcome (Z * state) :=
  if n <=? 0 then Panic "invalid argument to Intn" else Ret (sample g n).

(** What the library documents of a draw: a number in [[0, n)]. *)
Definition in_range `{Source} : Prop :=
  forall g n, 0 < n -> 0 <= (sample g n).1 < n.

End rand.

(** ** Package github.com/disintegration/imaging *)

Module imaging.

Record ResampleFilter := mkFilter { Support : float; Kernel : float -> float }.

(** The three entry points the package uses.  Both functions return a fresh
    [*image.NRGBA]. *)
Class Lib := {
  CatmullRom : ResampleFilter;
  Resize : image.Image.t -> Z -> Z -> ResampleFilter -> image.NRGBA.t;
  Rotate : image.Image.t -> float -> color.Color -> image.NRGBA.t
}.

End imaging.

(** ** Package imagewatermark: configuration (config.go) *)

(** [type VerticalAlign int] and [type HorizontalAlign int], with their
    [iota] constants. *)
Definition VerticalAlign := Z.
Definition HorizontalAlign := Z.

Definition VerticalTop : VerticalAlign := 0.
Definition VerticalMiddle : VerticalAlign := 1.
Definition VerticalBottom : VerticalAlign := 2.
Definition VerticalRandom : VerticalAlign := 3.

Definition HorizontalLeft : HorizontalAlign := 0.
Definition HorizontalMiddle : HorizontalAlign := 1.
Definition HorizontalRight : HorizontalAlign := 2.
Definition HorizontalRandom : HorizontalAlign := 3.

(** The errors the package builds with [fmt.Errorf]: one constructor per
    message, carrying the value the message prints; the two wrappers are the
    ["invalid ... watermark configuration: %w"] of the apply functions. *)
Inductive error :=
| ErrOpacity (v : float)
| ErrWatermarkWidthPercent (v : float)
| ErrRotationDegrees (v : float)
| ErrMaxWorkers (v : Z)
| ErrSpacing (v : Z)
| ErrInvalidSingle (e : error)
| ErrInvalidGrid (e : error).

Module GeneralConfig.
Record t := mk {
  OpacityAlpha : float;
  WatermarkWidthPercent : float;
  RotationDegrees : float;
  ResampleFilter : imaging.ResampleFilter;
  MaxWorkers : Z
}.

(** [func (c GeneralConfig) validate() error]; [None] is [nil]. *)
Definition validate (c : t) : option error :=
  if ((OpacityAlpha c <=? 0) || (1 <? OpacityAlpha c))%float
  then Some (ErrOpacity (OpacityAlpha c))
  else if ((WatermarkWidthPercent c <=? 0) || (100 <? WatermarkWidthPercent c))%float
  then Some (ErrWatermarkWidthPercent (WatermarkWidthPercent c))
  else if ((RotationDegrees c <? 0) || (360 <? RotationDegrees c))%float
  then Some (ErrRotationDegrees (RotationDegrees c))
  else if MaxWorkers c <? 0
  then Some (ErrMaxWorkers (MaxWorkers c))
  else None.
End GeneralConfig.

Module SingleConfig.
Record t := mk {
  General : GeneralConfig.t;
  VerticalAlign : VerticalAlign;
  HorizontalAlign : HorizontalAlign;
  Spacing : Z
}.

(** [func (c SingleConfig) validate() error] *)
Definition validate (c : t) : option error :=
  match GeneralConfig.validate (General c) with
  | Some err => Some err
  | None =>
      if Spacing c <? 0 then Some (ErrSpacing (Spacing c)) else None
  end.
End SingleConfig.

Module GridConfig.
Record t := mk {
  General : GeneralConfig.t;
  GridSpacingX : Z;
  GridSpacingY : Z;
  OffsetX : Z;
  OffsetY : Z
}.

(** [func (c GridConfig) validate() error] *)
Definition validate (c : t) : option error :=
  match GeneralConfig.validate (General c) with
  | Some err => Some err
  | None => None
  end.
End GridConfig.

(** ** Package imagewatermark: helpers (utils.go) *)

(** Go's [a / b] for a divisor known to be non-zero. *)
Definition int_div (a b : Z) : Z := wrap (Z.quot a b).

Section Package.
Context `{lib : imaging.Lib} `{rnd : rand.Source}.

(** [func getNewWatermarkWidth(originalImage image.Image, watermarkWidthPercentage float64) int] *)
Definition getNewWatermarkWidth (originalImage : image.Image.t)
    (watermarkWidthPercentage : float) : Z :=
  let originalImageWidth :=
    float64_of_int (image.Rectangle.Dx (image.Image.Bounds originalImage)) in
  int_of_float64 (originalImageWidth * (watermarkWidthPercentage / 100))%float.

(** [func getWatermarkPosition(watermarkImage, inputImage image.Image,
    verticalAlign VerticalAlign, horizontalAlign HorizontalAlign, spacing int) image.Point].
    The generator's state is threaded through: the horizontal switch runs
    first, then the vertical one.  (The revision before this one has the same
    body with the two image parameters in the other order.) *)
Definition getWatermarkPosition (watermarkImage inputImage : image.Image.t)
    (verticalAlign : VerticalAlign) (horizontalAlign : HorizontalAlign)
    (spacing : Z) (g : rand.state) : outcome (image.Point.t * rand.state) :=
  let inBounds := image.Image.Bounds inputImage in
  let wmBounds := image.Image.Bounds watermarkImage in
  let inW := image.Rectangle.Dx inBounds in
  let inH := image.Rectangle.Dy inBounds in
  let wmW := image.Rectangle.Dx wmBounds in
  let wmH := image.Rectangle.Dy wmBounds in
  '(positionX, g) ←
    (if horizontalAlign =? HorizontalLeft then Ret (spacing, g)
     else if horizontalAlign =? HorizontalMiddle then Ret (int_div (int_sub inW wmW) 2, g)
     else if horizontalAlign =? HorizontalRight then Ret (int_sub (int_sub inW wmW) spacing, g)
     else if horizontalAlign =? HorizontalRandom then
       let minX := spacing in
       let maxX := int_sub (int_sub inW wmW) spacing in
       if minX <? maxX then
         '(n, g) ← rand.Intn g (int_add (int_sub maxX minX) 1);
         Ret (int_add n minX, g)
       else Ret (minX, g)
     else Ret (int_div (int_sub inW wmW) 2, g));
  '(positionY, g) ←
    (if verticalAlign =? VerticalTop then Ret (spacing, g)
     else if verticalAlign =? VerticalMiddle then Ret (int_div (int_sub inH wmH) 2, g)
     else if verticalAlign =? VerticalBottom then Ret (int_sub (int_sub inH wmH) spacing, g)
     else if verticalAlign =? VerticalRandom then
       let minY := spacing in
       let maxY := int_sub (int_sub inH wmH) spacing in
       if minY <? maxY then
         '(n, g) ← rand.Intn g (int_add (int_sub maxY minY) 1);
         Ret (int_add n minY, g)
       else Ret (minY, g)
     else Ret (int_div (int_sub inH wmH) 2, g));
  Ret (image.Point.mk positionX positionY, g).

(** The pixel [applyOpacity] stores for a source colour [c]. *)
Definition opacityPixel (c : color.Color) (opacityAlpha : float) : color.NRGBA.t :=
  let newA :=
    uint8_of_float64 (float64_of_int (Z.shiftr (color.a16 c) 8) * opacityAlpha)%float in
  color.NRGBA.mk (uint8 (Z.shiftr (color.r16 c) 8))
                 (uint8 (Z.shiftr (color.g16 c) 8))
                 (uint8 (Z.shiftr (color.b16 c) 8))
                 newA.

(** [func applyOpacity(img image.Image, opacityAlpha float64) *image.NRGBA] *)
Definition applyOpacity (img : image.Image.t) (opacityAlpha : float)
  : outcome image.NRGBA.t :=
  let bounds := image.Image.Bounds img in
  let x0 := image.Point.X (image.Rectangle.Min bounds) in
  let x1 := image.Point.X (image.Rectangle.Max bounds) in
  let y0 := image.Point.Y (image.Rectangle.Min bounds) in
  let y1 := image.Point.Y (image.Rectangle.Max bounds) in
  result ← image.NewNRGBA bounds;
  forM (fun result y =>
          forM (fun result x =>
                  c ← image.Image.At img x y;
                  image.NRGBA.Set_ result x y (opacityPixel c opacityAlpha))
               (seqZ x0 (x1 - x0)) result)
       (seqZ y0 (y1 - y0)) result.

(** [func rotateImage(img image.Image, rotationDegrees float64) image.Image] *)
Definition rotateImage (img : image.Image.t) (rotationDegrees : float) : image.Image.t :=
  image.NRGBA.Image (imaging.Rotate img rotationDegrees image_Transparent).

(** [func resizeWatermark(watermarkImg image.Image, baseImage image.Image,
    config GeneralConfig) image.Image] *)
Definition resizeWatermark (watermarkImg baseImage : image.Image.t)
    (config : GeneralConfig.t) : image.Image.t :=
  let watermarkWidth :=
    getNewWatermarkWidth baseImage (GeneralConfig.WatermarkWidthPercent config) in
  let resampleFilter := GeneralConfig.ResampleFilter config in
  let resampleFilter :=
    if (imaging.Support resampleFilter <=? 0)%float then imaging.CatmullRom
    else resampleFilter in
  image.NRGBA.Image (imaging.Resize watermarkImg watermarkWidth 0 resampleFilter).

(** [func generateBaseCanvas(inputImg image.Image) *image.RGBA] *)
Definition generateBaseCanvas (inputImg : image.Image.t) : outcome image.RGBA.t :=
  let bounds := image.Image.Bounds inputImg in
  canvas ← image.NewRGBA bounds;
  draw.Draw canvas bounds inputImg (image.Rectangle.Min bounds) draw.Src.

(** [func drawWatermarkAtPosition(canvas *image.RGBA, watermarkImg image.Image,
    pos image.Point)]; the canvas, mutated in Go, is returned. *)
Definition drawWatermarkAtPosition (canvas : image.RGBA.t) (watermarkImg : image.Image.t)
    (pos : image.Point.t) : outcome image.RGBA.t :=
  let wmBounds := image.Image.Bounds watermarkImg in
  let dr := image.Rectangle.mk pos (image.Point.Add pos (image.Rectangle.Size wmBounds)) in
  draw.Draw canvas dr watermarkImg (image.Point.mk 0 0) draw.Over.

(** ** Package imagewatermark: grid placement (grid.go) *)

(** The inner loop of [generateGridPositions]:
    [for x := ...; x < inputW; x += stepX { positions = append(positions, Point{x, y}) }],
    entered with the current [x]. *)
Fixpoint gridRow (fuel : nat) (inputW stepX y x : Z) (positions : list image.Point.t)
  : outcome (list image.Point.t) :=
  match fuel with
  | O => OutOfFuel
  | S fuel' =>
      if x <? inputW
      then gridRow fuel' inputW stepX y (int_add x stepX) (positions ++ [image.Point.mk x y])
      else Ret positions
  end.

(** The outer loop: [for y := ...; y < inputH; y += stepY { <inner loop> }]. *)
Fixpoint gridRows (fuel : nat) (inputW inputH stepX stepY offsetX y : Z)
    (positions : list image.Point.t) : outcome (list image.Point.t) :=
  match fuel with
  | O => OutOfFuel
  | S fuel' =>
      if y <? inputH
      then positions ← gridRow fuel' inputW stepX y offsetX positions;
           gridRows fuel' inputW inputH stepX stepY offsetX (int_add y stepY) positions
      else Ret positions
  end.

(** [func generateGridPositions(inputImg, watermarkImg image.Image, config GridConfig) []image.Point];
    [nil] is the empty list, and [positions := make([]image.Point, 0, totalPoints)]
    asks for [totalPoints] points of 16 bytes (two [int]s) each. *)
Definition generateGridPositions (fuel : nat) (inputImg watermarkImg : image.Image.t)
    (config : GridConfig.t) : outcome (list image.Point.t) :=
  let inputW := image.Rectangle.Dx (image.Image.Bounds inputImg) in
  let inputH := image.Rectangle.Dy (image.Image.Bounds inputImg) in
  let wmW := image.Rectangle.Dx (image.Image.Bounds watermarkImg) in
  let wmH := image.Rectangle.Dy (image.Image.Bounds watermarkImg) in
  if (inputW <=? GridConfig.OffsetX config) || (inputH <=? GridConfig.OffsetY config)
  then Ret []
  else
    let stepX := int_add wmW (GridConfig.GridSpacingX config) in
    let stepY := int_add wmH (GridConfig.GridSpacingY config) in
    countX ← int_quot (int_sub (int_add (int_sub inputW (GridConfig.OffsetX config)) stepX) 1) stepX;
    countY ← int_quot (int_sub (int_add (int_sub inputH (GridConfig.OffsetY config)) stepY) 1) stepY;
    let totalPoints := int_mul countX countY in
    if totalPoints <=? 0 then Ret []
    else
      _ ← makeslice 16 totalPoints;
      gridRows fuel inputW inputH stepX stepY (GridConfig.OffsetX config)
               (GridConfig.OffsetY config) [].

(** [func applyGridWatermarks(inputImg, watermarkImg image.Image, positions []image.Point) image.Image] *)
Definition applyGridWatermarks (inputImg watermarkImg : image.Image.t)
    (positions : list image.Point.t) : outcome image.RGBA.t :=
  canvas ← generateBaseCanvas inputImg;
  forM (fun canvas pos => drawWatermarkAtPosition canvas watermarkImg pos) positions canvas.

(** [func ApplyGrid(inputImg, watermarkImg image.Image, config GridConfig) (image.Image, error)] *)
Definition ApplyGrid (fuel : nat) (inputImg watermarkImg : image.Image.t)
    (config : GridConfig.t) : outcome (error + image.RGBA.t) :=
  match GridConfig.validate config with
  | Some err => Ret (inl (ErrInvalidGrid err))
  | None =>
      let preparedWM := watermarkImg in
      preparedWM ←
        (if (GeneralConfig.OpacityAlpha (GridConfig.General config) <? 1)%float
         then o ← applyOpacity preparedWM (GeneralConfig.OpacityAlpha (GridConfig.General config));
              Ret (image.NRGBA.Image o)
         else Ret preparedWM);
      let preparedWM :=
        if negb (GeneralConfig.RotationDegrees (GridConfig.General config) =? 0)%float
        then rotateImage preparedWM (GeneralConfig.RotationDegrees (GridConfig.General config))
        else preparedWM in
      let preparedWM := resizeWatermark preparedWM inputImg (GridConfig.General config) in
      positions ← generateGridPositions fuel inputImg preparedWM config;
      result ← applyGridWatermarks inputImg preparedWM positions;
      Ret (inr result)
  end.

(** The body of one goroutine of [BatchApplyGrid], for image [index]: the
    canvas it makes of the image is handed to [applyGridWatermarks], which
    copies it once more. *)
Definition gridWorker (fuel : nat) (inputImgs : list image.Image.t)
    (preparedWM : image.Image.t) (config : GridConfig.t)
    (results : list (option image.RGBA.t)) (index : nat)
  : outcome (list (option image.RGBA.t)) :=
  match inputImgs !! index with
  | None => Panic "runtime error: index out of range"
  | Some currImage =>
      let currentWM := resizeWatermark preparedWM currImage (GridConfig.General config) in
      positions ← generateGridPositions fuel currImage currentWM config;
      canvas ← generateBaseCanvas currImage;
      result ← applyGridWatermarks (image.RGBA.Image canvas) currentWM positions;
      Ret (<[index := Some result]> results)
  end.

(** [func BatchApplyGrid(inputImgs []image.Image, watermarkImg image.Image,
    config GridConfig) ([]image.Image, error)]: one goroutine per index, as in
    [BatchApplySingle] below; [schedule] is the order in which their bodies
    take effect. *)
Definition BatchApplyGrid (numCPU : Z) (fuel : nat) (schedule : list nat)
    (inputImgs : list image.Image.t) (watermarkImg : image.Image.t)
    (config : GridConfig.t) : outcome (error + list (option image.RGBA.t)) :=
  match GridConfig.validate config with
  | Some err => Ret (inl (ErrInvalidGrid err))
  | None =>
      let maxWorkers := GeneralConfig.MaxWorkers (GridConfig.General config) in
      let maxWorkers := if maxWorkers <=? 0 then numCPU else maxWorkers in
      let preparedWM := watermarkImg in
      preparedWM ←
        (if (GeneralConfig.OpacityAlpha (GridConfig.General config) <? 1)%float
         then o ← applyOpacity preparedWM (GeneralConfig.OpacityAlpha (GridConfig.General config));
              Ret (image.NRGBA.Image o)
         else Ret preparedWM);
      let preparedWM :=
        if negb (GeneralConfig.RotationDegrees (GridConfig.General config) =? 0)%float
        then rotateImage preparedWM (GeneralConfig.RotationDegrees (GridConfig.General config))
        else preparedWM in
      let numImages := length inputImgs in
      let results := replicate numImages None in
      results ← forM (gridWorker fuel inputImgs preparedWM config) schedule results;
      Ret (inr results)
  end.

(** ** Package imagewatermark: single placement (single.go) *)

(** [func ApplySingle(inputImg, watermarkImg image.Image, config SingleConfig) (image.Image, error)] *)
Definition ApplySingle (inputImg watermarkImg : image.Image.t) (config : SingleConfig.t)
    (g : rand.state) : outcome ((error + image.RGBA.t) * rand.state) :=
  match SingleConfig.validate config with
  | Some err => Ret (inl (ErrInvalidSingle err), g)
  | None =>
      let preparedWM := watermarkImg in
      preparedWM ←
        (if (GeneralConfig.OpacityAlpha (SingleConfig.General config) <? 1)%float
         then o ← applyOpacity preparedWM (GeneralConfig.OpacityAlpha (SingleConfig.General config));
              Ret (image.NRGBA.Image o)
         else Ret preparedWM);
      let preparedWM :=
        if negb (GeneralConfig.RotationDegrees (SingleConfig.General config) =? 0)%float
        then rotateImage preparedWM (GeneralConfig.RotationDegrees (SingleConfig.General config))
        else preparedWM in
      let preparedWM := resizeWatermark preparedWM inputImg (SingleConfig.General config) in
      '(watermarkPosition, g) ←
        getWatermarkPosition preparedWM inputImg (SingleConfig.VerticalAlign config)
          (SingleConfig.HorizontalAlign config) (SingleConfig.Spacing config) g;
      canvas ← generateBaseCanvas inputImg;
      canvas ← drawWatermarkAtPosition canvas preparedWM watermarkPosition;
      Ret (inr canvas, g)
  end.

(** The value of the variable [preparedWM] of [ApplySingle] once line 63 has
    run: the watermark as it is handed to the position and drawing steps. *)
Definition preparedWM (inputImg watermarkImg : image.Image.t) (config : GeneralConfig.t)
  : outcome image.Image.t :=
  let preparedWM := watermarkImg in
  preparedWM ←
    (if (GeneralConfig.OpacityAlpha config <? 1)%float
     then o ← applyOpacity preparedWM (GeneralConfig.OpacityAlpha config);
          Ret (image.NRGBA.Image o)
     else Ret preparedWM);
  let preparedWM :=
    if negb (GeneralConfig.RotationDegrees config =? 0)%float
    then rotateImage preparedWM (GeneralConfig.RotationDegrees config)
    else preparedWM in
  Ret (resizeWatermark preparedWM inputImg config).

(** The body of one goroutine of [BatchApplySingle], for image [index]:
    it reads the shared inputs and stores its canvas in [results[index]]. *)
Definition singleWorker (inputImgs : list image.Image.t) (preparedWM : image.Image.t)
    (config : SingleConfig.t) (st : list (option image.RGBA.t) * rand.state)
    (index : nat) : outcome (list (option image.RGBA.t) * rand.state) :=
  let '(results, g) := st in
  match inputImgs !! index with
  | None => Panic "runtime error: index out of range"
  | Some currImage =>
      let currentWM := resizeWatermark preparedWM currImage (SingleConfig.General config) in
      '(watermarkPosition, g) ←
        getWatermarkPosition currentWM currImage (SingleConfig.VerticalAlign config)
          (SingleConfig.HorizontalAlign config) (SingleConfig.Spacing config) g;
      canvas ← generateBaseCanvas currImage;
      canvas ← drawWatermarkAtPosition canvas currentWM watermarkPosition;
      Ret (<[index := Some canvas]> results, g)
  end.

(** [func BatchApplySingle(inputImgs []image.Image, watermarkImg image.Image,
    config SingleConfig) ([]image.Image, error)].

    One goroutine is started per index and [wg.Wait()] returns when all have
    finished.  The goroutines share only read-only data and the slice
    [results], each writing its own element; [schedule] is the order in which
    their bodies take effect (every index once).  The semaphore of capacity
    [maxWorkers] bounds how many run at a time and does not enter the
    result. *)
Definition BatchApplySingle (numCPU : Z) (schedule : list nat)
    (inputImgs : list image.Image.t) (watermarkImg : image.Image.t)
    (config : SingleConfig.t) (g : rand.state)
  : outcome ((error + list (option image.RGBA.t)) * rand.state) :=
  match SingleConfig.validate config with
  | Some err => Ret (inl (ErrInvalidSingle err), g)
  | None =>
      let maxWorkers := GeneralConfig.MaxWorkers (SingleConfig.General config) in
      let maxWorkers := if maxWorkers <=? 0 then numCPU else maxWorkers in
      let preparedWM := watermarkImg in
      preparedWM ←
        (if (GeneralConfig.OpacityAlpha (SingleConfig.General config) <? 1)%float
         then o ← applyOpacity preparedWM (GeneralConfig.OpacityAlpha (SingleConfig.General config));
              Ret (image.NRGBA.Image o)
         else Ret preparedWM);
      let preparedWM :=
        if negb (GeneralConfig.RotationDegrees (SingleConfig.General config) =? 0)%float
        then rotateImage preparedWM (GeneralConfig.RotationDegrees (SingleConfig.General config))
        else preparedWM in
      let numImages := length inputImgs in
      let results := replicate numImages None in
      '(results, g) ← forM (singleWorker inputImgs preparedWM config) schedule (results, g);
      Ret (inr results, g)
  end.

End Package.

(** ** The previous revision (utils.go, grid.go before the batch functions) *)

Module previous.
Section Previous.
Context `{lib : imaging.Lib}.

(** [func preprocessWatermark(originalImage image.Image, watermarkImage image.Image,
    config GeneralConfig) image.Image] *)
Definition preprocessWatermark (originalImage watermarkImage : image.Image.t)
    (config : GeneralConfig.t) : outcome image.Image.t :=
  let watermarkWidth :=
    getNewWatermarkWidth originalImage (GeneralConfig.WatermarkWidthPercent config) in
  let resampleFilter := GeneralConfig.ResampleFilter config in
  let resampleFilter :=
    if (imaging.Support resampleFilter <=? 0)%float then imaging.CatmullRom
    else resampleFilter in
  let resizedWatermarkImage :=
    image.NRGBA.Image (imaging.Resize watermarkImage watermarkWidth 0 resampleFilter) in
  let resizedWatermarkImage :=
    if negb (GeneralConfig.RotationDegrees config =? 0)%float
    then image.NRGBA.Image
           (imaging.Rotate resizedWatermarkImage (GeneralConfig.RotationDegrees config)
              image_Transparent)
    else resizedWatermarkImage in
  if (GeneralConfig.OpacityAlpha config <? 1)%float
  then o ← applyOpacity resizedWatermarkImage (GeneralConfig.OpacityAlpha config);
       Ret (image.NRGBA.Image o)
  else Ret resizedWatermarkImage.

(** [func generateGridPositions(inputImg, watermarkImg image.Image, config GridConfig) []GridPosition]:
    the two loops with no check before them.  A [GridPosition{X, Y int}] is
    held as a point. *)
Definition generateGridPositions (fuel : nat) (inputImg watermarkImg : image.Image.t)
    (config : GridConfig.t) : outcome (list image.Point.t) :=
  let inputBounds := image.Image.Bounds inputImg in
  let watermarkBounds := image.Image.Bounds watermarkImg in
  gridRows fuel (image.Rectangle.Dx inputBounds) (image.Rectangle.Dy inputBounds)
           (int_add (GridConfig.GridSpacingX config) (image.Rectangle.Dx watermarkBounds))
           (int_add (GridConfig.GridSpacingY config) (image.Rectangle.Dy watermarkBounds))
           (GridConfig.OffsetX config) (GridConfig.OffsetY config) [].

(** [func getWatermarkPosition(inputImage, watermarkImage image.Image,
    verticalAlign VerticalAlign, horizontalAlign HorizontalAlign, spacing int) image.Point]
    of the revision that centres with two quotients and draws a random
    coordinate from [max(...)].  Each random axis makes a generator of its
    own, seeded from the clock: [seedX] and [seedY] are the states of these
    two generators.  The alignments, strings in that revision, are read
    through the constants above; any other value takes the default branch. *)
Definition getWatermarkPosition `{rnd : rand.Source}
    (inputImage watermarkImage : image.Image.t)
    (verticalAlign : VerticalAlign) (horizontalAlign : HorizontalAlign)
    (spacing : Z) (seedX seedY : rand.state) : outcome image.Point.t :=
  let inputImageBounds := image.Image.Bounds inputImage in
  let watermarkImageBounds := image.Image.Bounds watermarkImage in
  positionX ←
    (if horizontalAlign =? HorizontalLeft then Ret spacing
     else if horizontalAlign =? HorizontalMiddle then
       Ret (int_sub (int_div (image.Rectangle.Dx inputImageBounds) 2)
                    (int_div (image.Rectangle.Dx watermarkImageBounds) 2))
     else if horizontalAlign =? HorizontalRight then
       Ret (int_sub (int_sub (image.Rectangle.Dx inputImageBounds)
                             (image.Rectangle.Dx watermarkImageBounds)) spacing)
     else if horizontalAlign =? HorizontalRandom then
       let minX := spacing in
       let maxX := Z.max (int_sub (int_sub (image.Rectangle.Dx inputImageBounds)
                                           (image.Rectangle.Dx watermarkImageBounds)) spacing)
                         minX in
       '(n, _) ← rand.Intn seedX (int_add (int_sub maxX minX) 1);
       Ret (int_add n minX)
     else Ret (int_sub (int_div (image.Rectangle.Dx inputImageBounds) 2)
                       (int_div (image.Rectangle.Dx watermarkImageBounds) 2)));
  positionY ←
    (if verticalAlign =? VerticalTop then Ret spacing
     else if verticalAlign =? VerticalMiddle then
       Ret (int_sub (int_div (image.Rectangle.Dy inputImageBounds) 2)
                    (int_div (image.Rectangle.Dy watermarkImageBounds) 2))
     else if verticalAlign =? VerticalBottom then
       Ret (int_sub (int_sub (image.Rectangle.Dy inputImageBounds)
                             (image.Rectangle.Dy watermarkImageBounds)) spacing)
     else if verticalAlign =? VerticalRandom then
       let minY := spacing in
       let maxY := Z.max (int_sub (int_sub (image.Rectangle.Dy inputImageBounds)
                                           (image.Rectangle.Dy watermarkImageBounds)) spacing)
                         minY in
       '(n, _) ← rand.Intn seedY (int_add (int_sub maxY minY) 1);
       Ret (int_add n minY)
     else Ret (int_sub (int_div (image.Rectangle.Dy inputImageBounds) 2)
                       (int_div (image.Rectangle.Dy watermarkImageBounds) 2)));
  Ret (image.Point.mk positionX positionY).

End Previous.
End previous.

(** ** Stand-ins for the external libraries, to evaluate the package *)

Module standin.

(** [color.NRGBAModel.Convert] on the channels a colour reports. *)
Definition nrgbaModel (c : color.Color) : color.NRGBA.t :=
  let a := color.a16 c in
  if a =? 65535 then
    color.NRGBA.mk (uint8 (Z.shiftr (color.r16 c) 8)) (uint8 (Z.shiftr (color.g16 c) 8))
                   (uint8 (Z.shiftr (color.b16 c) 8)) 255
  else if a =? 0 then color.NRGBA.mk 0 0 0 0
  else
    color.NRGBA.mk (uint8 (Z.shiftr (uint32 (color.r16 c * 65535) / a) 8))
                   (uint8 (Z.shiftr (uint32 (color.g16 c * 65535) / a) 8))
                   (uint8 (Z.shiftr (uint32 (color.b16 c * 65535) / a) 8))
                   (uint8 (Z.shiftr a 8)).

Definition pixelAt (img : image.Image.t) (x y : Z) : color.NRGBA.t :=
  match image.Image.At img x y with
  | Ret c => nrgbaModel c
  | _ => image.NRGBA.zero
  end.

(** A fresh [w] by [h] image at the origin whose pixel [(x, y)] is [f x y]. *)
Definition tabulate (w h : Z) (f : Z -> Z -> color.NRGBA.t) : image.NRGBA.t :=
  image.mkBuffer
    (y ← seqZ 0 h; x ← seqZ 0 w; [f x y])
    w (image.Rectangle.mk (image.Point.mk 0 0) (image.Point.mk w h)).

Definition empty : image.NRGBA.t := image.mkBuffer [] 0 image.Rectangle.ZR.

(** [math.Floor(f + 0.5)] clamped below by 1, as an [int]. *)
Definition roundDim (f : float) : Z := Z.max 1 (int_of_float64 (f + 0.5)%float).

(** [imaging.Resize]: the library's output size (a zero width or height keeps
    the aspect ratio, at least one pixel); the resampling kernel is replaced
    by the nearest source pixel. *)
Definition Resize (img : image.Image.t) (width height : Z)
    (filter : imaging.ResampleFilter) : image.NRGBA.t :=
  let b := image.Image.Bounds img in
  let srcW := image.Rectangle.Dx b in
  let srcH := image.Rectangle.Dy b in
  if (width <? 0) || (height <? 0) then empty
  else if (width =? 0) && (height =? 0) then empty
  else if (srcW <=? 0) || (srcH <=? 0) then empty
  else
    let dstW :=
      if width =? 0
      then roundDim (float64_of_int height * float64_of_int srcW / float64_of_int srcH)%float
      else width in
    let dstH :=
      if height =? 0
      then roundDim (float64_of_int dstW * float64_of_int srcH / float64_of_int srcW)%float
      else height in
    tabulate dstW dstH (fun x y =>
      pixelAt img (image.Point.X (image.Rectangle.Min b) + Z.quot ((2 * x + 1) * srcW) (2 * dstW))
                  (image.Point.Y (image.Rectangle.Min b) + Z.quot ((2 * y + 1) * srcH) (2 * dstH))).

(** [imaging.Rotate] at the quarter turns, which the library performs as
    pixel permutations ([Rotate90], [Rotate180], [Rotate270]); 0 and 360 copy
    the image.  Other angles are outside this stand-in and copy the image as
    well. *)
Definition Rotate (img : image.Image.t) (angle : float) (bg : color.Color)
  : image.NRGBA.t :=
  let b := image.Image.Bounds img in
  let x0 := image.Point.X (image.Rectangle.Min b) in
  let y0 := image.Point.Y (image.Rectangle.Min b) in
  let w := image.Rectangle.Dx b in
  let h := image.Rectangle.Dy b in
  if (angle =? 90)%float
  then tabulate h w (fun x y => pixelAt img (x0 + (w - 1 - y)) (y0 + x))
  else if (angle =? 180)%float
  then tabulate w h (fun x y => pixelAt img (x0 + (w - 1 - x)) (y0 + (h - 1 - y)))
  else if (angle =? 270)%float
  then tabulate h w (fun x y => pixelAt img (x0 + y) (y0 + (h - 1 - x)))
  else tabulate w h (fun x y => pixelAt img (x0 + x) (y0 + y)).

Definition CatmullRom : imaging.ResampleFilter :=
  imaging.mkFilter 2 (fun x => x).

Definition lib : imaging.Lib := imaging.Build_Lib CatmullRom Resize Rotate.

(** A linear congruential generator standing for the process-wide source. *)
Definition rnd : rand.Source :=
  rand.Build_Source Z
    (fun g n => (g mod n, (6364136223846793005 * g + 1442695040888963407) mod 2 ^ 64)).

(** A [w] by [h] image at the origin filled with one colour. *)
Definition uniform (w h : Z) (c : color.NRGBA.t) : image.Image.t :=
  image.NRGBA.Image (tabulate w h (fun _ _ => c)).

End standin.

(** * Vocabulary of the statements *)

(** ** Well-formed images *)

(** Bounds as every constructor and decoder of the standard library produces
    them: coordinates are [int]s, the minimum is not beyond the maximum, and
    the pixels fit a slice. *)
Definition wf_rect (r : image.Rectangle.t) : Prop :=
  let x0 := image.Point.X (image.Rectangle.Min r) in
  let y0 := image.Point.Y (image.Rectangle.Min r) in
  let x1 := image.Point.X (image.Rectangle.Max r) in
  let y1 := image.Point.Y (image.Rectangle.Max r) in
  is_int x0 /\ is_int y0 /\ is_int x1 /\ is_int y1 /\
  x0 <= x1 /\ y0 <= y1 /\ x1 - x0 <= MaxInt /\ y1 - y0 <= MaxInt /\
  4 * (x1 - x0) * (y1 - y0) <= MaxInt.

(** A buffer as [NewRGBA]/[NewNRGBA] lay it out. *)
Definition wf_buffer {C} (p : image.buffer C) : Prop :=
  wf_rect (image.Rect p) /\
  image.Stride p = image.Rectangle.Dx (image.Rect p) /\
  Z.of_nat (length (image.Pix p))
  = image.Rectangle.Dx (image.Rect p) * image.Rectangle.Dy (image.Rect p).

(** Every pixel of the image can be read: [At] returns a colour. *)
Definition readable (img : image.Image.t) : Prop :=
  forall x y, exists c, image.Image.At img x y = Ret c.

(** The pure effect of [p.Pix[p.PixOffset(x, y)] = c]. *)
Definition setPix {C} (p : image.buffer C) (x y : Z) (c : C) : image.buffer C :=
  image.mkBuffer (<[Z.to_nat (image.PixOffset p x y) := c]> (image.Pix p))
                 (image.Stride p) (image.Rect p).

(** The points two nested loops visit, row by row. *)
Definition points (xs ys : list Z) : list (Z * Z) := y ← ys; x ← xs; [(x, y)].

(** The value of an 8-bit channel. *)
Definition is_byte (z : Z) : Prop := 0 <= z <= 255.

(** A [color.NRGBA] and a [color.RGBA] as Go's types hold them: four bytes. *)
Definition NRGBA_bytes (px : color.NRGBA.t) : Prop :=
  is_byte (color.NRGBA.R px) /\ is_byte (color.NRGBA.G px) /\
  is_byte (color.NRGBA.B px) /\ is_byte (color.NRGBA.A px).

Definition RGBA_bytes (px : color.RGBA.t) : Prop :=
  is_byte (color.RGBA.R px) /\ is_byte (color.RGBA.G px) /\
  is_byte (color.RGBA.B px) /\ is_byte (color.RGBA.A px).

(** An image of the given size at the origin that reports bounds only. *)
Definition blank (w h : Z) : image.Image.t :=
  image.Image.mk (image.Rectangle.mk (image.Point.mk 0 0) (image.Point.mk w h))
                 (fun _ _ => Ret image_Transparent).

(** ** Sample values *)

Module sample.
Definition red : color.NRGBA.t := color.NRGBA.mk 255 0 0 255.
Definition blue : color.NRGBA.t := color.NRGBA.mk 0 0 255 255.
Definition amber : color.NRGBA.t := color.NRGBA.mk 200 100 50 255.
Definition smoke : color.NRGBA.t := color.NRGBA.mk 200 100 50 128.

Definition general (opacity percent degrees : float) : GeneralConfig.t :=
  GeneralConfig.mk opacity percent degrees (imaging.mkFilter 0 (fun x => x)) 0.

Definition single (opacity percent degrees : float) (v : VerticalAlign)
    (h : HorizontalAlign) (spacing : Z) : SingleConfig.t :=
  SingleConfig.mk (general opacity percent degrees) v h spacing.

Definition grid (sx sy ox oy : Z) : GridConfig.t :=
  GridConfig.mk (general 1 10 0) sx sy ox oy.

Definition bounds (o : outcome image.Image.t) : option image.Rectangle.t :=
  match o with Ret img => Some (image.Image.Bounds img) | _ => None end.

(** A canvas of the given size at the origin, every pixel [c]. *)
Definition canvas (w h : Z) (c : color.RGBA.t) : image.RGBA.t :=
  image.mkBuffer (replicate (Z.to_nat (w * h)) c) w
                 (image.Rectangle.mk (image.Point.mk 0 0) (image.Point.mk w h)).
End sample.

(** ** Section 4.1 in the specification's words *)

Definition inOpacityRange (v : float) : bool := ((0 <? v) && (v <=? 1))%float.
Definition inWidthPercentRange (v : float) : bool := ((0 <? v) && (v <=? 100))%float.
Definition inRotationRange (v : float) : bool := ((0 <=? v) && (v <=? 360))%float.

(** The range checks in the order the code applies them, each with the error
    it reports. *)
Definition checks (c : SingleConfig.t) : list (bool * error) :=
  let general := SingleConfig.General c in
  [ (inOpacityRange (GeneralConfig.OpacityAlpha general),
     ErrOpacity (GeneralConfig.OpacityAlpha general));
    (inWidthPercentRange (GeneralConfig.WatermarkWidthPercent general),
     ErrWatermarkWidthPercent (GeneralConfig.WatermarkWidthPercent general));
    (inRotationRange (GeneralConfig.RotationDegrees general),
     ErrRotationDegrees (GeneralConfig.RotationDegrees general));
    (0 <=? GeneralConfig.MaxWorkers general, ErrMaxWorkers (GeneralConfig.MaxWorkers general));
    (0 <=? SingleConfig.Spacing c, ErrSpacing (SingleConfig.Spacing c)) ].

Fixpoint firstViolation (l : list (bool * error)) : option error :=
  match l with
  | [] => None
  | (ok, e) :: l' => if ok then firstViolation l' else Some e
  end.

(** ** Section 4.2 in the specification's words *)

(** Step 1: floor(baseWidth * widthPercent / 100) on the exact value of the
    percentage. *)
Definition specTargetWidth (baseWidth : Z) (widthPercent : float) : Z :=
  match Prim2SF widthPercent with
  | S754_finite s m e =>
      let n := (if s then - baseWidth else baseWidth) * Zpos m in
      match e with
      | Z0 => n / 100
      | Zpos p => (n * 2 ^ Zpos p) / 100
      | Zneg p => n / (100 * 2 ^ Zpos p)
      end
  | _ => 0
  end.

(** Resize, then rotate, then opacity, each step performed. *)
Definition specPrepared `{lib : imaging.Lib} (inputImg watermarkImg : image.Image.t)
    (config : GeneralConfig.t) : outcome image.Image.t :=
  let resampleFilter :=
    if (imaging.Support (GeneralConfig.ResampleFilter config) <=? 0)%float
    then imaging.CatmullRom else GeneralConfig.ResampleFilter config in
  let width :=
    specTargetWidth (image.Rectangle.Dx (image.Image.Bounds inputImg))
                    (GeneralConfig.WatermarkWidthPercent config) in
  let resized := image.NRGBA.Image (imaging.Resize watermarkImg width 0 resampleFilter) in
  let rotated :=
    image.NRGBA.Image
      (imaging.Rotate resized (GeneralConfig.RotationDegrees config) image_Transparent) in
  o ← applyOpacity rotated (GeneralConfig.OpacityAlpha config);
  Ret (image.NRGBA.Image o).

(** The opacity step: round(old_alpha * opacity) on the exact value of the
    factor (halves up), the colour channels as they were. *)
Definition specRoundedAlpha (oldAlpha : Z) (opacity : float) : Z :=
  match Prim2SF opacity with
  | S754_finite false m e =>
      match e with
      | Z0 => oldAlpha * Zpos m
      | Zpos p => oldAlpha * Zpos m * 2 ^ Zpos p
      | Zneg p => (2 * oldAlpha * Zpos m + 2 ^ Zpos p) / (2 * 2 ^ Zpos p)
      end
  | _ => 0
  end.

Definition specOpacityPixel (px : color.NRGBA.t) (opacity : float) : color.NRGBA.t :=
  color.NRGBA.mk (color.NRGBA.R px) (color.NRGBA.G px) (color.NRGBA.B px)
                 (specRoundedAlpha (color.NRGBA.A px) opacity).

(** What [color.NRGBA.RGBA] followed by [uint8(c >> 8)] makes of a colour
    channel [c] under alpha [a]: the channel premultiplied. *)
Definition premultiplied8 (c a : Z) : Z := c * 257 * a / 255 / 256.

(** ** Section 4.3 in the specification's words *)

(** The coordinate of the deterministic alignments on one axis. *)
Definition alignedCoordinate (align baseSize wmSize spacing : Z) : Z :=
  if align =? 0 then spacing
  else if align =? 2 then baseSize - wmSize - spacing
  else Z.quot (baseSize - wmSize) 2.

(** The arithmetic of a random axis stays within [int]. *)
Definition randomAxisFits (baseSize wmSize spacing : Z) : Prop :=
  MinInt <= baseSize - wmSize - spacing /\ baseSize - wmSize - 2 * spacing < MaxInt.

(** The number of tiles along an axis. *)
Definition ceilDiv (a b : Z) : Z := - ((- a) / b).

(** A lattice of [countX] by [countY] points from [(x0, y0)] with the given
    steps, in row-major order. *)
Definition lattice (x0 y0 countX countY stepX stepY : Z) : list image.Point.t :=
  j ← seqZ 0 countY;
  (fun i => image.Point.mk (x0 + i * stepX) (y0 + j * stepY)) <$> seqZ 0 countX.

(** The tiles of a grid with no spacing and no offset. *)
Definition rowMajor (countX countY w h : Z) : list image.Point.t :=
  j ← seqZ 0 countY; (fun i => image.Point.mk (i * w) (j * h)) <$> seqZ 0 countX.

(** ** Batches *)

(** The slots of [results] once the goroutines of [schedule] have stored
    their values. *)
Definition fill {A} (v : nat -> A) (r : list A) (schedule : list nat) : list A :=
  foldl (fun r j => <[j := v j]> r) r schedule.

(** The opacity and rotation steps, which the apply functions run before any
    resize. *)
Definition opacityThenRotation `{lib : imaging.Lib} (watermarkImg : image.Image.t)
    (config : GeneralConfig.t) : outcome image.Image.t :=
  wm ← (if (GeneralConfig.OpacityAlpha config <? 1)%float
        then o ← applyOpacity watermarkImg (GeneralConfig.OpacityAlpha config);
             Ret (image.NRGBA.Image o)
        else Ret watermarkImg);
  Ret (if negb (GeneralConfig.RotationDegrees config =? 0)%float
       then rotateImage wm (GeneralConfig.RotationDegrees config)
       else wm).

(** The steps [ApplySingle] and a worker of [BatchApplySingle] share once
    opacity and rotation are done: resize for this image, position, copy of
    the image, draw. *)
Definition placeSingle `{lib : imaging.Lib} `{rnd : rand.Source}
    (preparedWM img : image.Image.t) (config : SingleConfig.t) (g : rand.state)
  : outcome (image.RGBA.t * rand.state) :=
  let currentWM := resizeWatermark preparedWM img (SingleConfig.General config) in
  '(pos, g) ← getWatermarkPosition currentWM img (SingleConfig.VerticalAlign config)
                (SingleConfig.HorizontalAlign config) (SingleConfig.Spacing config) g;
  canvas ← generateBaseCanvas img;
  canvas ← drawWatermarkAtPosition canvas currentWM pos;
  Ret (canvas, g).

(** ** Magnitudes *)

(** Sizes and settings of at most 2^30 in magnitude, for which no sum,
    difference or product the grid computes leaves [int]. *)
Definition small (z : Z) : Prop := - 2 ^ 30 <= z <= 2 ^ 30.

(** The numbers [generateGridPositions] computes before its loops. *)
Module gridOf.
Section GridOf.
Variables (inputImg watermarkImg : image.Image.t) (config : GridConfig.t).

Definition inputW : Z := image.Rectangle.Dx (image.Image.Bounds inputImg).
Definition inputH : Z := image.Rectangle.Dy (image.Image.Bounds inputImg).
Definition stepX : Z :=
  image.Rectangle.Dx (image.Image.Bounds watermarkImg) + GridConfig.GridSpacingX config.
Definition stepY : Z :=
  image.Rectangle.Dy (image.Image.Bounds watermarkImg) + GridConfig.GridSpacingY config.
Definition countX : Z := Z.quot (inputW - GridConfig.OffsetX config + stepX - 1) stepX.
Definition countY : Z := Z.quot (inputH - GridConfig.OffsetY config + stepY - 1) stepY.

(** Every quantity is small. *)
Definition bounded : Prop :=
  0 <= inputW <= 2 ^ 30 /\ 0 <= inputH <= 2 ^ 30 /\
  small (image.Rectangle.Dx (image.Image.Bounds watermarkImg)) /\
  small (image.Rectangle.Dy (image.Image.Bounds watermarkImg)) /\
  small (GridConfig.GridSpacingX config) /\ small (GridConfig.GridSpacingY config) /\
  small (GridConfig.OffsetX config) /\ small (GridConfig.OffsetY config).

(** The capacity that [make] is asked for, when the function gets that far,
    is one it grants: at most [maxAlloc] bytes of 16-byte points. *)
Definition allocable : Prop :=
  GridConfig.OffsetX config < inputW -> GridConfig.OffsetY config < inputH ->
  16 * (countX * countY) <= maxAlloc.

End GridOf.
End gridOf.

(** ** Centring *)

(** By how much [a / 2 - b / 2] exceeds [(a - b) / 2], for sizes [a] of the
    image and [b] of the watermark. *)
Definition centreShift (a b : Z) : Z :=
  if Z.even a && Z.odd b && (b <=? a) then 1
  else if Z.odd a && Z.even b && (a <? b) then -1
  else 0.

(** ** Drawing *)

(** The pixel [draw.Src] stores for a source colour: its channels reduced to
    eight bits. *)
Definition toRGBA (s : color.Color) : color.RGBA.t :=
  draw.blend draw.Src image.RGBA.zero s.

(** A canvas that is a copy of an image: the image's bounds, and inside them
    the image's pixels as [draw.Src] stores them. *)
Definition copyOf (inputImg : image.Image.t) (canvas : image.RGBA.t) : Prop :=
  image.Rect canvas = image.Image.Bounds inputImg /\
  forall x y, image.Point_In (image.Point.mk x y) (image.Image.Bounds inputImg) = true ->
    exists s, image.Image.At inputImg x y = Ret s /\
      image.RGBA.RGBAAt canvas x y = Ret (toRGBA s).

(** The canvas pixels a watermark drawn at [pos] falls on: inside the canvas,
    inside the watermark's extent from [pos], and on a point of the
    watermark's bounds. *)
Definition covers (canvas : image.RGBA.t) (watermarkImg : image.Image.t)
    (pos : image.Point.t) (x y : Z) : bool :=
  let b := image.Image.Bounds watermarkImg in
  let u := x - image.Point.X pos in
  let v := y - image.Point.Y pos in
  image.Point_In (image.Point.mk x y) (image.Rect canvas)
  && (0 <=? u) && (u <? image.Rectangle.Dx b)
  && (0 <=? v) && (v <? image.Rectangle.Dy b)
  && image.Point_In (image.Point.mk u v) b.

(** The steps [ApplyGrid] runs once opacity and rotation are done. *)
Definition placeGrid `{lib : imaging.Lib} (fuel : nat) (preparedWM img : image.Image.t)
    (config : GridConfig.t) : outcome image.RGBA.t :=
  let currentWM := resizeWatermark preparedWM img (GridConfig.General config) in
  positions ← generateGridPositions fuel img currentWM config;
  applyGridWatermarks img currentWM positions.

(** * Properties *)

(** ** Integers *)

Ltac int_range := unfold is_int, MinInt, MaxInt in *; lia.

Lemma wrap_id (z : Z) : is_int z -> wrap z = z.
Proof.
  unfold is_int, wrap, MinInt, MaxInt. intros H.
  rewrite Z.mod_small by lia. lia.
Qed.

Lemma wrap_is_int (z : Z) : is_int (wrap z).
Proof.
  unfold is_int, wrap, MinInt, MaxInt.
  pose proof (Z.mod_pos_bound (z + 2 ^ 63) (2 ^ 64) ltac:(lia)). lia.
Qed.

Lemma wrap_le (z : Z) : MinInt <= z -> wrap z <= z.
Proof.
  intros H. unfold wrap, MinInt in *.
  pose proof (Z.mod_le (z + 2 ^ 63) (2 ^ 64) ltac:(lia) ltac:(lia)). lia.
Qed.

Lemma wrap_cases (z : Z) :
  - 2 ^ 64 - 2 ^ 63 <= z < 2 ^ 64 + 2 ^ 63 ->
  is_int (wrap z) /\ (wrap z = z \/ wrap z = z + 2 ^ 64 \/ wrap z = z - 2 ^ 64).
Proof.
  intros Hz. split; [apply wrap_is_int|]. unfold wrap.
  destruct (Z.lt_ge_cases z (- 2 ^ 63)) as [Hlo|Hlo];
    [|destruct (Z.lt_ge_cases z (2 ^ 63)) as [Hhi|Hhi]].
  - right. left.
    rewrite <- (Z.mod_add (z + 2 ^ 63) 1 (2 ^ 64)) by lia.
    rewrite Z.mod_small by lia. lia.
  - left. rewrite Z.mod_small by lia. lia.
  - right. right.
    rewrite <- (Z.mod_add (z + 2 ^ 63) (-1) (2 ^ 64)) by lia.
    rewrite Z.mod_small by lia. lia.
Qed.

Lemma quot2_is_int (z : Z) : is_int z -> is_int (Z.quot z 2).
Proof.
  unfold is_int, MinInt, MaxInt. intros H.
  destruct (Z.le_gt_cases 0 z).
  - pose proof (Z.quot_pos z 2 ltac:(lia) ltac:(lia)).
    pose proof (Z.quot_le_upper_bound z 2 z ltac:(lia) ltac:(lia)). lia.
  - pose proof (Z.quot_opp_l z 2 ltac:(lia)) as Ho.
    pose proof (Z.quot_pos (- z) 2 ltac:(lia) ltac:(lia)).
    pose proof (Z.quot_le_upper_bound (- z) 2 (- z) ltac:(lia) ltac:(lia)). lia.
Qed.

Lemma Dx_is_int r : is_int (image.Rectangle.Dx r).
Proof. apply wrap_is_int. Qed.

Lemma Dy_is_int r : is_int (image.Rectangle.Dy r).
Proof. apply wrap_is_int. Qed.

Lemma forall_bytes (P : Z -> bool) :
  forallb P (seqZ 0 256) = true -> forall z, is_byte z -> P z = true.
Proof.
  intros H z Hz. rewrite forallb_forall in H. apply H.
  apply list_elem_of_In, elem_of_seqZ. unfold is_byte in Hz. lia.
Qed.

Lemma forall_bytes2 (P : Z -> Z -> bool) :
  forallb (fun c => forallb (P c) (seqZ 0 256)) (seqZ 0 256) = true ->
  forall c a, is_byte c -> is_byte a -> P c a = true.
Proof.
  intros H c a Hc Ha.
  apply (forall_bytes (P c)); [|exact Ha].
  apply (forall_bytes (fun c => forallb (P c) (seqZ 0 256))); assumption.
Qed.

(** ** Outcomes and loops *)

Lemma bind_Ret {A B} (m : outcome A) (f : A -> outcome B) (b : B) :
  (m ≫= f) = Ret b -> exists a, m = Ret a /\ f a = Ret b.
Proof. destruct m; simpl; intros H; try discriminate. eauto. Qed.

Lemma outcome_bind_assoc {A B C} (m : outcome A) (f : A -> outcome B) (k : B -> outcome C) :
  (m ≫= f) ≫= k = m ≫= (fun a => f a ≫= k).
Proof. destruct m; reflexivity. Qed.

Lemma outcome_bind_ext {A B} (m : outcome A) (f k : A -> outcome B) :
  (forall a, f a = k a) -> m ≫= f = m ≫= k.
Proof. intros H. destruct m; simpl; auto. Qed.

Lemma outcome_bind_Ret {A B} (a : A) (f : A -> outcome B) : Ret a ≫= f = f a.
Proof. reflexivity. Qed.

Lemma forM_app {S A} (body : S -> A -> outcome S) (l1 l2 : list A) (s : S) :
  forM body (l1 ++ l2) s = s' ← forM body l1 s; forM body l2 s'.
Proof.
  revert s. induction l1 as [|a l1 IH]; intros s; simpl; [done|].
  destruct (body s a); simpl; auto.
Qed.

Lemma forM_preserves {S A} (P : S -> Prop) (body : S -> A -> outcome S) (l : list A) :
  (forall s a s', body s a = Ret s' -> P s -> P s') ->
  forall s s', forM body l s = Ret s' -> P s -> P s'.
Proof.
  intros Hb. induction l as [|a l IH]; intros s s' E Hs; simpl in E.
  - by inversion E; subst.
  - apply bind_Ret in E as (s1 & E1 & E2). eauto.
Qed.

Lemma forM_nested {S} (body : S -> Z -> Z -> outcome S) (xs ys : list Z) (s : S) :
  forM (fun s y => forM (fun s x => body s x y) xs s) ys s
  = forM (fun s pt => body s pt.1 pt.2) (points xs ys) s.
Proof.
  unfold points. revert s. induction ys as [|y ys IH]; intros s; [done|].
  rewrite bind_cons, forM_app. simpl.
  assert (E : forall s, forM (fun s x => body s x y) xs s
                   = forM (fun s pt => body s pt.1 pt.2) (xs ≫= (fun x => [(x, y)])) s).
  { clear. induction xs as [|x xs IHx]; intros s; [done|].
    simpl. destruct (body s x y); simpl; auto. }
  rewrite E. destruct (forM _ (xs ≫= _) s); simpl; auto.
Qed.

Lemma elem_of_points x y x0 w y0 h :
  (x, y) ∈ points (seqZ x0 w) (seqZ y0 h) <-> x0 <= x < x0 + w /\ y0 <= y < y0 + h.
Proof.
  unfold points. rewrite list_elem_of_bind. split.
  - intros (y' & Hx & Hy). apply list_elem_of_bind in Hx as (x' & Hpt & Hx).
    apply list_elem_of_singleton in Hpt. inversion Hpt; subst.
    apply elem_of_seqZ in Hx, Hy. lia.
  - intros [Hx Hy]. exists y. split; [|apply elem_of_seqZ; lia].
    apply list_elem_of_bind. exists x. split; [apply list_elem_of_singleton; reflexivity|].
    apply elem_of_seqZ; lia.
Qed.

Lemma length_bind_const {A B} (f : A -> list B) (c : nat) (l : list A) :
  (forall a, length (f a) = c) -> length (l ≫= f) = (length l * c)%nat.
Proof.
  intros Hf. induction l as [|a l IH]; [done|].
  rewrite bind_cons, length_app, Hf, IH. simpl. lia.
Qed.

Lemma Forall2_choice {A B} (R : A -> B -> Prop) (l : list A) :
  (forall a, a ∈ l -> exists b, R a b) -> exists k, Forall2 R l k.
Proof.
  induction l as [|a l IH]; intros H; [exists []; constructor|].
  destruct (H a) as [b Hb]; [left|].
  destruct IH as [k Hk]; [intros; apply H; by right|].
  exists (b :: k). by constructor.
Qed.

(** ** float64 *)

Lemma SFcompare_antisym (x y : spec_float) :
  SFcompare y x = CompOpp <$> SFcompare x y.
Proof.
  destruct x as [sx|sx| |sx mx ex], y as [sy|sy| |sy my ey]; simpl;
    try reflexivity; try (destruct sx; reflexivity); try (destruct sy; reflexivity);
    try (destruct sx, sy; reflexivity).
  change (PosDef.Pos.compare_cont Eq my mx) with (Pos.compare my mx).
  change (PosDef.Pos.compare_cont Eq mx my) with (Pos.compare mx my).
  rewrite (Z.compare_antisym ex ey), (Pos.compare_antisym mx my).
  destruct sx, sy; simpl; try reflexivity;
    destruct (ex ?= ey); simpl; try reflexivity;
    destruct (mx ?= my)%positive; reflexivity.
Qed.

Lemma is_nan_false_compare (x y : float) :
  float64_is_nan x = false -> float64_is_nan y = false ->
  exists c, SFcompare (Prim2SF x) (Prim2SF y) = Some c.
Proof.
  unfold float64_is_nan. rewrite !FloatAxioms.eqb_spec. unfold SFeqb.
  intros Hx Hy.
  destruct (Prim2SF x) as [?|?| |? ? ?], (Prim2SF y) as [?|?| |? ? ?]; simpl in *;
    try discriminate; eauto.
Qed.

Lemma leb_negb_ltb (x y : float) :
  float64_is_nan x = false -> float64_is_nan y = false ->
  (x <=? y)%float = negb (y <? x)%float.
Proof.
  intros Hx Hy. rewrite FloatAxioms.leb_spec, FloatAxioms.ltb_spec. unfold SFleb, SFltb.
  rewrite (SFcompare_antisym (Prim2SF x) (Prim2SF y)).
  destruct (is_nan_false_compare x y Hx Hy) as [c ->]. destruct c; reflexivity.
Qed.

Lemma ltb_negb_leb (x y : float) :
  float64_is_nan x = false -> float64_is_nan y = false ->
  (x <? y)%float = negb (y <=? x)%float.
Proof. intros Hx Hy. rewrite (leb_negb_ltb y x Hy Hx). by rewrite negb_involutive. Qed.

Lemma digits2_pos_bounds (m : positive) :
  2 ^ (Zpos (digits2_pos m) - 1) <= Zpos m < 2 ^ Zpos (digits2_pos m).
Proof.
  induction m as [m IH|m IH|]; simpl digits2_pos.
  - rewrite Pos2Z.inj_succ, Pos2Z.inj_xI.
    replace (Z.succ (Zpos (digits2_pos m)) - 1) with (Z.succ (Zpos (digits2_pos m) - 1)) by lia.
    rewrite !Z.pow_succ_r by lia.
    destruct IH as [H1 H2].
    remember (2 ^ (Z.pos (digits2_pos m) - 1)) as a.
    remember (2 ^ Z.pos (digits2_pos m)) as b.
    clear Heqa Heqb. split; lia.
  - rewrite Pos2Z.inj_succ. change (Z.pos m~0) with (2 * Z.pos m).
    replace (Z.succ (Zpos (digits2_pos m)) - 1) with (Z.succ (Zpos (digits2_pos m) - 1)) by lia.
    rewrite !Z.pow_succ_r by lia.
    destruct IH as [H1 H2].
    remember (2 ^ (Z.pos (digits2_pos m) - 1)) as a.
    remember (2 ^ Z.pos (digits2_pos m)) as b.
    clear Heqa Heqb. split; lia.
  - simpl. lia.
Qed.

Lemma Zdigits2_le (m k : Z) : 0 <= m -> 0 <= k -> m < 2 ^ k -> Zdigits2 m <= k.
Proof.
  intros Hm Hk Hlt. destruct m as [|p|p]; [simpl; lia| |lia].
  simpl. pose proof (digits2_pos_bounds p) as [Hlo _].
  destruct (Z.le_gt_cases (Zpos (digits2_pos p)) k) as [|Hgt]; [done|].
  assert (2 ^ k <= 2 ^ (Zpos (digits2_pos p) - 1)) by (apply Z.pow_le_mono_r; lia). lia.
Qed.

Lemma shr_1_m (r : shr_record) :
  0 <= shr_m r -> shr_m (shr_1 r) = shr_m r / 2 /\ 0 <= shr_m (shr_1 r).
Proof.
  destruct r as [m r s]. cbn [shr_m]. intros Hm.
  destruct m as [|q|q]; [split; [reflexivity|cbn; lia]| |lia].
  destruct q as [p|p|]; cbn [shr_1 shr_m]; (split; [|lia]).
  - apply (Z.div_unique (Z.pos p~1) 2 (Z.pos p) 1); lia.
  - apply (Z.div_unique (Z.pos p~0) 2 (Z.pos p) 0); lia.
  - reflexivity.
Qed.

Lemma iter_pos_shr (p : positive) : forall r : shr_record,
  0 <= shr_m r ->
  shr_m (SpecFloat.iter_pos shr_1 p r) = shr_m r / 2 ^ Zpos p
  /\ 0 <= shr_m (SpecFloat.iter_pos shr_1 p r).
Proof.
  induction p as [p IH|p IH|]; intros r Hr; simpl SpecFloat.iter_pos.
  - destruct (shr_1_m r Hr) as [E1 H1].
    destruct (IH _ H1) as [E2 H2]. destruct (IH _ H2) as [E3 H3].
    split; [|exact H3]. rewrite E3, E2, E1, !Z.div_div by lia.
    f_equal. replace (Z.pos p~1) with (1 + Z.pos p + Z.pos p) by lia.
    rewrite !Z.pow_add_r by lia. lia.
  - destruct (IH _ Hr) as [E2 H2]. destruct (IH _ H2) as [E3 H3].
    split; [|exact H3]. rewrite E3, E2, !Z.div_div by lia.
    f_equal. replace (Z.pos p~0) with (Z.pos p + Z.pos p) by lia.
    rewrite !Z.pow_add_r by lia. lia.
  - destruct (shr_1_m r Hr) as [E1 H1]. split; [|exact H1]. rewrite E1. reflexivity.
Qed.

(** [shr_fexp] on an exact, non-negative mantissa: the exponent grows to
    [max e (fexp (digits m + e))], the mantissa is divided accordingly. *)
Lemma shr_fexp_exact (m e : Z) :
  0 <= m ->
  let e' := Z.max e (fexp prec emax (Zdigits2 m + e)) in
  exists mrs, shr_fexp prec emax m e loc_Exact = (mrs, e') /\
    shr_m mrs = m / 2 ^ (e' - e) /\
    (e' = e -> loc_of_shr_record mrs = loc_Exact).
Proof.
  intros Hm e'. unfold shr_fexp, shr. simpl shr_record_of_loc.
  destruct (fexp prec emax (Zdigits2 m + e) - e) as [|p|p] eqn:En.
  - eexists. split; [f_equal; lia|]. simpl. replace (e' - e) with 0 by lia.
    split; [by rewrite Z.div_1_r|reflexivity].
  - destruct (iter_pos_shr p {| shr_m := m; shr_r := false; shr_s := false |} Hm) as [E _].
    eexists. split; [f_equal; lia|]. split; [|lia].
    rewrite E. simpl. f_equal. f_equal. lia.
  - eexists. split; [f_equal; lia|]. simpl. replace (e' - e) with 0 by lia.
    split; [by rewrite Z.div_1_r|reflexivity].
Qed.

Lemma round_nearest_even_bounds (m : Z) (l : location) :
  m <= round_nearest_even m l <= m + 1.
Proof.
  unfold round_nearest_even. destruct l as [|[]]; try lia.
  destruct (IntDef.Z.even m); lia.
Qed.

Lemma pow2_split (x y : Z) : 0 <= x -> 0 <= y -> 2 ^ (x + y) = 2 ^ x * 2 ^ y.
Proof. intros. by apply Z.pow_add_r. Qed.

Lemma pow2_pos (x : Z) : 0 <= x -> 0 < 2 ^ x.
Proof. intros. by apply Z.pow_pos_nonneg. Qed.

(** Rounding a positive value below [a] (a byte's worth) gives at most [a]. *)
Lemma binary_round_aux_below (M : positive) (E a : Z) :
  0 < a <= 256 -> E <= -1 -> Zpos M < a * 2 ^ (- E) ->
  match binary_round_aux prec emax false (Zpos M) E loc_Exact with
  | S754_zero _ => True
  | S754_finite false m e => e <= 0 /\ Zpos m <= a * 2 ^ (- e)
  | _ => False
  end.
Proof.
  intros Ha HE HM. unfold binary_round_aux.
  destruct (shr_fexp_exact (Zpos M) E ltac:(lia)) as (mrs1 & E1 & Hm1 & _).
  rewrite E1. clear E1.
  set (e1 := Z.max E (fexp prec emax (Zdigits2 (Zpos M) + E))) in *.
  set (m2 := round_nearest_even (shr_m mrs1) (loc_of_shr_record mrs1)).
  pose proof (round_nearest_even_bounds (shr_m mrs1) (loc_of_shr_record mrs1)) as Hm2.
  fold m2 in Hm2.
  pose proof (digits2_pos_bounds M) as [Hdlo Hdhi].
  set (d := Zpos (digits2_pos M)) in *.
  assert (Hd : d + E <= 8).
  { destruct (Z.le_gt_cases (d + E) 8) as [|Hgt]; [done|exfalso].
    assert (2 ^ (8 - E) <= 2 ^ (d - 1)) by (apply Z.pow_le_mono_r; lia).
    assert (a * 2 ^ (- E) <= 2 ^ (8 - E)).
    { replace (8 - E) with (8 + - E) by lia. rewrite pow2_split by lia.
      pose proof (pow2_pos (- E) ltac:(lia)). change (2 ^ 8) with 256. nia. }
    lia. }
  assert (He1 : E <= e1 /\ d + E - 53 <= e1 /\ e1 <= -1 /\ -1074 <= e1).
  { subst e1. unfold fexp. change (Zdigits2 (Zpos M)) with d.
    change (SpecFloat.emin prec emax) with (-1074). change prec with 53. lia. }
  destruct He1 as (He1a & He1b & He1c & He1d).
  assert (Hm1lt : shr_m mrs1 < a * 2 ^ (- e1) /\ shr_m mrs1 < 2 ^ 53 /\ 0 <= shr_m mrs1).
  { rewrite Hm1. pose proof (pow2_pos (e1 - E) ltac:(lia)).
    pose proof (pow2_pos (- e1) ltac:(lia)). split; [|split].
    - apply Z.div_lt_upper_bound; [lia|].
      replace (- E) with ((e1 - E) + - e1) in HM by lia.
      rewrite pow2_split in HM by lia. lia.
    - apply Z.div_lt_upper_bound; [lia|].
      rewrite <- pow2_split by lia.
      assert (2 ^ d <= 2 ^ (e1 - E + 53)) by (apply Z.pow_le_mono_r; lia). lia.
    - apply Z.div_pos; lia. }
  destruct Hm1lt as (Hm1a & Hm1b & Hm1c).
  destruct (shr_fexp_exact m2 e1 ltac:(lia)) as (mrs2 & E2 & Hmrs2 & _).
  rewrite E2. clear E2.
  set (e2 := Z.max e1 (fexp prec emax (Zdigits2 m2 + e1))) in *.
  assert (Hd2 : Zdigits2 m2 <= 54).
  { apply Zdigits2_le; [lia|lia|]. change (2 ^ 54) with (2 * 2 ^ 53). lia. }
  assert (He2 : e1 <= e2 /\ e2 <= 0).
  { subst e2. unfold fexp. change (SpecFloat.emin prec emax) with (-1074).
    change prec with 53. lia. }
  destruct He2 as (He2a & He2b).
  assert (Hres : 0 <= shr_m mrs2 <= a * 2 ^ (- e2)).
  { rewrite Hmrs2. pose proof (pow2_pos (e2 - e1) ltac:(lia)).
    pose proof (pow2_pos (- e2) ltac:(lia)). split; [apply Z.div_pos; lia|].
    apply Z.div_le_upper_bound; [lia|].
    replace (2 ^ (e2 - e1) * (a * 2 ^ (- e2))) with (a * 2 ^ (- e1)); [lia|].
    replace (- e1) with ((e2 - e1) + - e2) by lia. rewrite pow2_split by lia. lia. }
  destruct (shr_m mrs2) as [|m|m]; [exact I| |lia].
  destruct (Z.leb_spec e2 (emax - prec)) as [|Hbig];
    [|change (emax - prec) with 971 in Hbig; lia].
  split; [exact He2b|lia].
Qed.

(** The float of a byte is the byte: a mantissa and a non-positive exponent
    whose value is exactly [a]. *)
Lemma float64_of_byte (a : Z) :
  is_byte a ->
  match Prim2SF (float64_of_int a) with
  | S754_zero false => a = 0
  | S754_finite false m e => 0 < a /\ e <= 0 /\ Zpos m = a * 2 ^ (- e)
  | _ => False
  end.
Proof.
  intros Ha.
  pose proof (forall_bytes
    (fun a => match Prim2SF (float64_of_int a) with
              | S754_zero false => a =? 0
              | S754_finite false m e => (0 <? a) && (e <=? 0) && (Zpos m =? a * 2 ^ (- e))
              | _ => false
              end) ltac:(vm_compute; reflexivity) a Ha) as H.
  cbv beta in H.
  destruct (Prim2SF (float64_of_int a)) as [[]|[]| |[] m e]; try discriminate.
  - by apply Z.eqb_eq.
  - apply andb_true_iff in H as [H H3]. apply andb_true_iff in H as [H1 H2].
    apply Z.ltb_lt in H1. apply Z.leb_le in H2. apply Z.eqb_eq in H3. auto.
Qed.

Lemma compare_cont_Eq_lt (a b : positive) :
  PosDef.Pos.compare_cont Eq a b = Lt -> Z.pos a < Z.pos b.
Proof. intros H. apply Pos2Z.pos_lt_pos, Pos.compare_lt_iff. exact H. Qed.

(** A float strictly between 0 and 1: positive, exponent at most -53,
    mantissa below [2 ^ -e]. *)
Lemma float64_unit_interval (op : float) :
  (0 <? op)%float = true -> (op <? 1)%float = true ->
  exists m e, Prim2SF op = S754_finite false m e /\ e <= -53 /\ Zpos m < 2 ^ (- e).
Proof.
  rewrite !FloatAxioms.ltb_spec. unfold SFltb.
  pose proof (Prim2SF_valid op) as Hv.
  replace (Prim2SF 0) with (S754_zero false) by reflexivity.
  replace (Prim2SF 1) with (S754_finite false 4503599627370496 (-52)) by reflexivity.
  destruct (Prim2SF op) as [s|s| |s m e]; cbn [SFcompare]; try discriminate.
  - destruct s; discriminate.
  - destruct s; [discriminate|]. intros _ Hlt.
    unfold SpecFloat.valid_binary, bounded, canonical_mantissa, fexp in Hv.
    apply andb_true_iff in Hv as [Hc _]. apply Z.eqb_eq in Hc.
    change (SpecFloat.emin prec emax) with (-1074) in Hc. change prec with 53 in Hc.
    pose proof (digits2_pos_bounds m) as [Hlo Hhi].
    set (d := Zpos (digits2_pos m)) in *. clearbody d.
    assert (He : e <= -53).
    { destruct (e ?= -52) eqn:Ec; try discriminate.
      - apply Z.compare_eq in Ec. subst e.
        destruct (PosDef.Pos.compare_cont Eq m _) eqn:Em in Hlt; try discriminate.
        apply compare_cont_Eq_lt in Em.
        assert (d = 53) by lia. subst d.
        change (2 ^ (53 - 1)) with 4503599627370496 in Hlo. lia.
      - change (e < -52) in Ec. lia. }
    exists m, e. split; [reflexivity|]. split; [exact He|].
    assert (2 ^ d <= 2 ^ (- e)) by (apply Z.pow_le_mono_r; lia). lia.
Qed.

(** Opacity in (0, 1) on a byte: the float64 product has an integer part
    between 0 and the byte. *)
Lemma opacity_alpha_trunc (a : Z) (op : float) :
  is_byte a -> (0 <? op)%float = true -> (op <? 1)%float = true ->
  exists t, float64_trunc (float64_of_int a * op) = Some t /\ 0 <= t <= a.
Proof.
  intros Ha H0 H1.
  destruct (float64_unit_interval op H0 H1) as (mo & eo & Eop & Heo & Hmo).
  pose proof (float64_of_byte a Ha) as Hfa.
  unfold float64_trunc. rewrite FloatAxioms.mul_spec, Eop.
  destruct (Prim2SF (float64_of_int a)) as [[]|[]| |[] ma ea]; try contradiction.
  - subst a. simpl. exists 0. split; [reflexivity|lia].
  - destruct Hfa as (Hpos & Hea & Hma). unfold SF64mul, SFmul. simpl xorb.
    pose proof (binary_round_aux_below (ma * mo) (ea + eo) a) as Hb.
    assert (Hlt : Zpos (ma * mo) < a * 2 ^ (- (ea + eo))).
    { rewrite Pos2Z.inj_mul, Hma.
      replace (- (ea + eo)) with (- ea + - eo) by lia. rewrite pow2_split by lia.
      pose proof (pow2_pos (- ea) ltac:(lia)). nia. }
    specialize (Hb ltac:(unfold is_byte in Ha; lia) ltac:(lia) Hlt).
    destruct (binary_round_aux prec emax false (Zpos (ma * mo)) (ea + eo) loc_Exact)
      as [s|s| |s m e]; try contradiction.
    + exists 0. split; [reflexivity|lia].
    + destruct s; [contradiction|]. destruct Hb as [He Hm].
      destruct e as [|p|p]; [|lia|].
      * exists (Zpos m). split; [reflexivity|]. simpl in Hm. lia.
      * exists (Zpos m / 2 ^ Zpos p). split; [reflexivity|].
        pose proof (pow2_pos (Zpos p) ltac:(lia)).
        split; [apply Z.div_pos; lia|].
        apply Z.div_le_upper_bound; [lia|]. change (- Z.neg p) with (Z.pos p) in Hm. lia.
Qed.

Lemma opacity_alpha_uint8 (a : Z) (op : float) :
  is_byte a -> (0 <? op)%float = true -> (op <? 1)%float = true ->
  float64_trunc (float64_of_int a * op) = Some (uint8_of_float64 (float64_of_int a * op))
  /\ 0 <= uint8_of_float64 (float64_of_int a * op) <= a.
Proof.
  intros Ha H0 H1. destruct (opacity_alpha_trunc a op Ha H0 H1) as (t & Et & Ht).
  unfold uint8_of_float64, int_of_float64. rewrite Et.
  unfold is_byte in Ha.
  destruct (Z.leb_spec MinInt t), (Z.leb_spec t MaxInt); unfold MinInt, MaxInt in *;
    simpl; try lia.
  rewrite Z.mod_small by lia. split; [reflexivity|lia].
Qed.

(** ** Rectangles and pixel buffers *)

Lemma wf_rect_Dx r : wf_rect r ->
  image.Rectangle.Dx r = image.Point.X (image.Rectangle.Max r) - image.Point.X (image.Rectangle.Min r).
Proof.
  intros (?&?&?&?&?&?&?&?&?). unfold image.Rectangle.Dx, int_sub.
  apply wrap_id. unfold is_int, MinInt, MaxInt in *. lia.
Qed.

Lemma wf_rect_Dy r : wf_rect r ->
  image.Rectangle.Dy r = image.Point.Y (image.Rectangle.Max r) - image.Point.Y (image.Rectangle.Min r).
Proof.
  intros (?&?&?&?&?&?&?&?&?). unfold image.Rectangle.Dy, int_sub.
  apply wrap_id. unfold is_int, MinInt, MaxInt in *. lia.
Qed.

Lemma Point_In_spec x y r :
  image.Point_In (image.Point.mk x y) r = true <->
  image.Point.X (image.Rectangle.Min r) <= x < image.Point.X (image.Rectangle.Max r) /\
  image.Point.Y (image.Rectangle.Min r) <= y < image.Point.Y (image.Rectangle.Max r).
Proof.
  unfold image.Point_In. simpl.
  rewrite !andb_true_iff, !Z.leb_le, !Z.ltb_lt. lia.
Qed.

Section Buffer.
Context {C : Type}.
Implicit Types p : image.buffer C.

Lemma PixOffset_in p x y :
  wf_buffer p -> image.Point_In (image.Point.mk x y) (image.Rect p) = true ->
  image.PixOffset p x y
  = (y - image.Point.Y (image.Rectangle.Min (image.Rect p))) * image.Rectangle.Dx (image.Rect p)
    + (x - image.Point.X (image.Rectangle.Min (image.Rect p)))
  /\ 0 <= image.PixOffset p x y < Z.of_nat (length (image.Pix p)).
Proof.
  intros (Hr & Hs & Hl) Hin. apply Point_In_spec in Hin.
  pose proof (wf_rect_Dx _ Hr) as Ex. pose proof (wf_rect_Dy _ Hr) as Ey.
  destruct Hr as (?&?&?&?&?&?&?&?&Hfit).
  unfold image.PixOffset, int_add, int_mul, int_sub. rewrite Hs, Hl, Ex, Ey.
  set (x0 := image.Point.X (image.Rectangle.Min (image.Rect p))) in *.
  set (y0 := image.Point.Y (image.Rectangle.Min (image.Rect p))) in *.
  set (x1 := image.Point.X (image.Rectangle.Max (image.Rect p))) in *.
  set (y1 := image.Point.Y (image.Rectangle.Max (image.Rect p))) in *.
  unfold is_int, MinInt, MaxInt in *.
  rewrite (wrap_id (y - y0)), (wrap_id (x - x0)) by (unfold is_int, MinInt, MaxInt; lia).
  assert (0 <= (y - y0) * (x1 - x0) <= (y1 - y0 - 1) * (x1 - x0))
    by (split; [apply Z.mul_nonneg_nonneg; lia|apply Z.mul_le_mono_nonneg_r; lia]).
  rewrite (wrap_id ((y - y0) * (x1 - x0))) by (unfold is_int, MinInt, MaxInt; nia).
  rewrite wrap_id by (unfold is_int, MinInt, MaxInt; nia).
  split; [reflexivity|nia].
Qed.

Lemma PixOffset_inj p x y x' y' :
  wf_buffer p ->
  image.Point_In (image.Point.mk x y) (image.Rect p) = true ->
  image.Point_In (image.Point.mk x' y') (image.Rect p) = true ->
  image.PixOffset p x y = image.PixOffset p x' y' -> x = x' /\ y = y'.
Proof.
  intros Hwf Hin Hin'.
  destruct (PixOffset_in p x y Hwf Hin) as [-> _].
  destruct (PixOffset_in p x' y' Hwf Hin') as [-> _].
  destruct Hwf as (Hr & _). rewrite (wf_rect_Dx _ Hr).
  apply Point_In_spec in Hin, Hin'. intros E.
  set (x0 := image.Point.X (image.Rectangle.Min (image.Rect p))) in *.
  set (y0 := image.Point.Y (image.Rectangle.Min (image.Rect p))) in *.
  set (x1 := image.Point.X (image.Rectangle.Max (image.Rect p))) in *.
  assert (y = y')
    by (destruct (Z.lt_trichotomy y y') as [?|[?|?]]; [exfalso; nia|assumption|exfalso; nia]).
  subst y'. split; [lia|reflexivity].
Qed.

Lemma index_in p x y :
  wf_buffer p -> image.Point_In (image.Point.mk x y) (image.Rect p) = true ->
  exists c, image.index p (image.PixOffset p x y) = Ret c.
Proof.
  intros Hwf Hin. destruct (PixOffset_in p x y Hwf Hin) as [_ Hb].
  unfold image.index. destruct (Z.ltb_spec (image.PixOffset p x y) 0); [lia|].
  destruct (lookup_lt_is_Some_2 (image.Pix p) (Z.to_nat (image.PixOffset p x y)))
    as [c ->]; [lia|]. eauto.
Qed.

Lemma store_in p x y c :
  wf_buffer p -> image.Point_In (image.Point.mk x y) (image.Rect p) = true ->
  image.store p (image.PixOffset p x y) c = Ret (setPix p x y c).
Proof.
  intros Hwf Hin. unfold image.store.
  destruct (index_in p x y Hwf Hin) as [d ->]. reflexivity.
Qed.

Lemma setPix_wf p x y c : wf_buffer p -> wf_buffer (setPix p x y c).
Proof.
  intros (Hr & Hs & Hl). unfold wf_buffer, setPix. simpl.
  rewrite length_insert. auto.
Qed.

Lemma colorAt_setPix zero p x y c x' y' :
  wf_buffer p -> image.Point_In (image.Point.mk x y) (image.Rect p) = true ->
  image.colorAt zero (setPix p x y c) x' y'
  = if decide (x' = x /\ y' = y) then Ret c else image.colorAt zero p x' y'.
Proof.
  intros Hwf Hin. unfold image.colorAt. simpl.
  destruct (image.Point_In (image.Point.mk x' y') (image.Rect p)) eqn:Hin'; simpl.
  - destruct (PixOffset_in p x y Hwf Hin) as [_ Hb].
    destruct (PixOffset_in p x' y' Hwf Hin') as [_ Hb'].
    unfold image.index. simpl.
    change (image.PixOffset (setPix p x y c) x' y') with (image.PixOffset p x' y').
    destruct (Z.ltb_spec (image.PixOffset p x' y') 0); [lia|].
    destruct (decide (x' = x /\ y' = y)) as [[-> ->]|Hne].
    + rewrite list_lookup_insert_eq by lia. reflexivity.
    + rewrite list_lookup_insert_ne; [reflexivity|].
      intros E. apply Hne.
      apply (PixOffset_inj p x' y' x y Hwf Hin' Hin). lia.
  - destruct (decide (x' = x /\ y' = y)) as [[-> ->]|Hne]; [congruence|reflexivity].
Qed.

End Buffer.

Section Loops.
Context {C : Type} (zero : C).
Implicit Types p q : image.buffer C.

(** A loop whose every step stores one pixel inside the bounds returns, keeps
    the layout, and leaves the pixels it did not visit as they were. *)
Lemma forM_setPix_frame (body : image.buffer C -> Z * Z -> outcome (image.buffer C))
    (l : list (Z * Z)) : forall p,
  wf_buffer p ->
  (forall pt, pt ∈ l -> image.Point_In (image.Point.mk pt.1 pt.2) (image.Rect p) = true) ->
  (forall q pt, wf_buffer q -> image.Rect q = image.Rect p -> pt ∈ l ->
     exists c, body q pt = Ret (setPix q pt.1 pt.2 c)) ->
  exists p', forM body l p = Ret p' /\ wf_buffer p' /\ image.Rect p' = image.Rect p /\
    forall x y, (x, y) ∉ l -> image.colorAt zero p' x y = image.colorAt zero p x y.
Proof.
  induction l as [|pt l IH]; intros p Hwf Hin Hbody.
  - exists p. simpl. auto.
  - destruct (Hbody p pt Hwf eq_refl (list_elem_of_here _ _)) as [c Hc]. simpl. rewrite Hc. simpl.
    destruct (IH (setPix p pt.1 pt.2 c)) as (p' & E & Hwf' & HR & Hfr).
    + by apply setPix_wf.
    + intros pt' Hpt'. simpl. apply Hin. by apply list_elem_of_further.
    + intros q pt' Hq HRq Hpt'. apply Hbody; [done|done|by apply list_elem_of_further].
    + exists p'. split; [exact E|]. split; [exact Hwf'|]. split; [exact HR|].
      intros x y Hnot. rewrite Hfr by (intros ?; apply Hnot; by apply list_elem_of_further).
      rewrite colorAt_setPix by (auto; apply Hin; apply list_elem_of_here).
      destruct (decide (x = pt.1 /\ y = pt.2)) as [[-> ->]|]; [|done].
      exfalso. apply Hnot. destruct pt; apply list_elem_of_here.
Qed.

(** When the stored colour depends on the point only, the pixels visited
    hold it at the end. *)
Lemma forM_setPix_value (body : image.buffer C -> Z * Z -> outcome (image.buffer C))
    (v : Z -> Z -> C) (l : list (Z * Z)) : forall p,
  wf_buffer p ->
  (forall pt, pt ∈ l -> image.Point_In (image.Point.mk pt.1 pt.2) (image.Rect p) = true) ->
  (forall q pt, wf_buffer q -> image.Rect q = image.Rect p -> pt ∈ l ->
     body q pt = Ret (setPix q pt.1 pt.2 (v pt.1 pt.2))) ->
  exists p', forM body l p = Ret p' /\ wf_buffer p' /\ image.Rect p' = image.Rect p /\
    (forall x y, (x, y) ∉ l -> image.colorAt zero p' x y = image.colorAt zero p x y) /\
    (forall x y, (x, y) ∈ l -> image.colorAt zero p' x y = Ret (v x y)).
Proof.
  induction l as [|pt l IH]; intros p Hwf Hin Hbody.
  - exists p. simpl. split; [done|]. split; [done|]. split; [done|]. split; [done|].
    intros x y H. inversion H.
  - pose proof (Hbody p pt Hwf eq_refl (list_elem_of_here _ _)) as Hc. simpl. rewrite Hc. simpl.
    destruct (IH (setPix p pt.1 pt.2 (v pt.1 pt.2))) as (p' & E & Hwf' & HR & Hfr & Hval).
    + by apply setPix_wf.
    + intros pt' Hpt'. simpl. apply Hin. by apply list_elem_of_further.
    + intros q pt' Hq HRq Hpt'. apply Hbody; [done|done|by apply list_elem_of_further].
    + exists p'. split; [exact E|]. split; [exact Hwf'|]. split; [exact HR|]. split.
      * intros x y Hnot. rewrite Hfr by (intros ?; apply Hnot; by apply list_elem_of_further).
        rewrite colorAt_setPix by (auto; apply Hin; apply list_elem_of_here).
        destruct (decide (x = pt.1 /\ y = pt.2)) as [[-> ->]|]; [|done].
        exfalso. apply Hnot. destruct pt; apply list_elem_of_here.
      * intros x y Hxy. destruct (decide ((x, y) ∈ l)) as [Hl|Hl]; [by apply Hval|].
        rewrite Hfr by done. rewrite colorAt_setPix by (auto; apply Hin; apply list_elem_of_here).
        apply elem_of_cons in Hxy as [Ept|?]; [|done]. subst pt. simpl.
        destruct (decide (x = x /\ y = y)); [done|tauto].
Qed.

End Loops.

Lemma Intersect_In x y a b :
  image.Point_In (image.Point.mk x y) (image.Rectangle.Intersect a b) = true ->
  image.Point_In (image.Point.mk x y) a = true /\ image.Point_In (image.Point.mk x y) b = true.
Proof.
  unfold image.Rectangle.Intersect.
  destruct (image.Rectangle.Empty _) eqn:E.
  - intros H. apply Point_In_spec in H. simpl in H. lia.
  - rewrite !Point_In_spec. simpl.
    repeat match goal with |- context [if ?a <? ?b then _ else _] => destruct (Z.ltb_spec a b) end; lia.
Qed.

Lemma Draw_frame (dst : image.RGBA.t) (r : image.Rectangle.t) (src : image.Image.t)
    (sp : image.Point.t) (op : draw.Op) :
  wf_buffer dst -> readable src ->
  exists dst', draw.Draw dst r src sp op = Ret dst' /\ wf_buffer dst' /\
    image.Rect dst' = image.Rect dst /\
    forall x y,
      ~ (image.Point_In (image.Point.mk x y) r = true /\
         image.Point_In (image.Point.mk x y) (image.Rect dst) = true) ->
      image.RGBA.RGBAAt dst' x y = image.RGBA.RGBAAt dst x y.
Proof.
  intros Hwf Hsrc. unfold draw.Draw, draw.clip.
  set (r' := image.Rectangle.Intersect (image.Rectangle.Intersect r (image.Rect dst)) _).
  assert (Hr' : forall x y, image.Point_In (image.Point.mk x y) r' = true ->
            image.Point_In (image.Point.mk x y) r = true /\
            image.Point_In (image.Point.mk x y) (image.Rect dst) = true).
  { intros x y H. apply Intersect_In in H as [H _]. by apply Intersect_In in H. }
  clearbody r'.
  match goal with |- context [if ?c then (r', sp) else (r', ?sp')] =>
    assert (exists sp1, (if c then (r', sp) else (r', sp')) = (r', sp1)) as [sp1 ->]
      by (destruct c; eauto) end.
  destruct (image.Rectangle.Empty r'); [exists dst; auto|].
  unfold draw.drawRGBA.
  rewrite (forM_nested (fun s x y => draw.drawPixel r' src sp1 op y s x)).
  destruct (forM_setPix_frame image.RGBA.zero
              (fun s pt => draw.drawPixel r' src sp1 op pt.2 s pt.1)
              (points (seqZ (image.Point.X (image.Rectangle.Min r'))
                            (image.Point.X (image.Rectangle.Max r') - image.Point.X (image.Rectangle.Min r')))
                      (seqZ (image.Point.Y (image.Rectangle.Min r'))
                            (image.Point.Y (image.Rectangle.Max r') - image.Point.Y (image.Rectangle.Min r'))))
              dst Hwf) as (dst' & E & Hwf' & HR & Hfr).
  - intros [x y] Hpt. apply elem_of_points in Hpt. simpl.
    apply (Hr' x y). apply Point_In_spec. lia.
  - intros q [x y] Hq HRq Hpt. apply elem_of_points in Hpt. simpl.
    assert (Hin : image.Point_In (image.Point.mk x y) (image.Rect q) = true).
    { rewrite HRq. apply (Hr' x y). apply Point_In_spec. lia. }
    unfold draw.drawPixel.
    destruct (Hsrc (int_add (image.Point.X sp1) (int_sub x (image.Point.X (image.Rectangle.Min r'))))
                   (int_add (image.Point.Y sp1) (int_sub y (image.Point.Y (image.Rectangle.Min r')))))
      as [s ->]. simpl.
    destruct (index_in q x y Hq Hin) as [d ->]. simpl.
    rewrite (store_in q x y _ Hq Hin). eauto.
  - exists dst'. split; [exact E|]. split; [exact Hwf'|]. split; [exact HR|].
    intros x y Hout. apply Hfr. intros Hpt. apply Hout.
    apply elem_of_points in Hpt. apply (Hr' x y). apply Point_In_spec. lia.
Qed.

Lemma pixelBufferLength_wf r name :
  wf_rect r ->
  image.pixelBufferLength r name = Ret (image.Rectangle.Dx r * image.Rectangle.Dy r)
  /\ 0 <= image.Rectangle.Dx r /\ 0 <= image.Rectangle.Dy r.
Proof.
  intros Hr. unfold image.pixelBufferLength.
  rewrite (wf_rect_Dx r Hr), (wf_rect_Dy r Hr).
  destruct Hr as (?&?&?&?&?&?&?&?&Hfit).
  repeat match goal with |- context [?a <? ?b] => destruct (Z.ltb_spec a b); try lia end.
  simpl. split; [reflexivity|lia].
Qed.

Lemma NewRGBA_wf r :
  wf_rect r -> exists p, image.NewRGBA r = Ret p /\ wf_buffer p /\ image.Rect p = r.
Proof.
  intros Hr. destruct (pixelBufferLength_wf r "RGBA" Hr) as (E & ? & ?).
  unfold image.NewRGBA. rewrite E. simpl. eexists. split; [reflexivity|].
  split; [|reflexivity]. split; [exact Hr|]. split; [reflexivity|]. simpl.
  rewrite length_replicate. nia.
Qed.

Lemma NewNRGBA_wf r :
  wf_rect r ->
  exists p, image.NewNRGBA r = Ret p /\ wf_buffer p /\ image.Rect p = r /\
    forall x y, image.NRGBA.NRGBAAt p x y = Ret image.NRGBA.zero.
Proof.
  intros Hr. destruct (pixelBufferLength_wf r "NRGBA" Hr) as (E & ? & ?).
  unfold image.NewNRGBA. rewrite E. simpl. eexists. split; [reflexivity|].
  assert (Hwf : wf_buffer (image.mkBuffer
            (replicate (Z.to_nat (image.Rectangle.Dx r * image.Rectangle.Dy r)) image.NRGBA.zero)
            (image.Rectangle.Dx r) r)).
  { split; [exact Hr|]. split; [reflexivity|]. simpl. rewrite length_replicate. nia. }
  split; [exact Hwf|]. split; [reflexivity|].
  intros x y. unfold image.NRGBA.NRGBAAt, image.colorAt.
  destruct (image.Point_In _ _) eqn:Hin; simpl; [|reflexivity].
  destruct (PixOffset_in _ x y Hwf Hin) as [_ Hb]. simpl in Hb.
  rewrite length_replicate in Hb.
  unfold image.index.
  match goal with |- context [?o <? 0] => destruct (Z.ltb_spec o 0); [lia|] end. simpl.
  rewrite lookup_replicate_2 by lia. reflexivity.
Qed.

Lemma generateBaseCanvas_wf (inputImg : image.Image.t) :
  wf_rect (image.Image.Bounds inputImg) -> readable inputImg ->
  exists canvas, generateBaseCanvas inputImg = Ret canvas /\ wf_buffer canvas /\
    image.Rect canvas = image.Image.Bounds inputImg.
Proof.
  intros Hr Hsrc. unfold generateBaseCanvas.
  destruct (NewRGBA_wf _ Hr) as (c0 & -> & Hwf0 & HR0). simpl.
  destruct (Draw_frame c0 (image.Image.Bounds inputImg) inputImg
              (image.Rectangle.Min (image.Image.Bounds inputImg)) draw.Src Hwf0 Hsrc)
    as (c & E & Hwf & HR & _).
  exists c. split; [exact E|]. split; [exact Hwf|]. congruence.
Qed.

Lemma colorAt_wf {C} (zero : C) (p : image.buffer C) x y :
  wf_buffer p -> exists c, image.colorAt zero p x y = Ret c.
Proof.
  intros Hwf. unfold image.colorAt.
  destruct (image.Point_In _ _) eqn:Hin; simpl; [|eauto].
  apply index_in; auto.
Qed.

Lemma NRGBA_readable (p : image.NRGBA.t) : wf_buffer p -> readable (image.NRGBA.Image p).
Proof.
  intros Hwf x y. simpl. unfold image.NRGBA.NRGBAAt.
  destruct (colorAt_wf image.NRGBA.zero p x y Hwf) as [c ->]. simpl. eauto.
Qed.

Lemma RGBA_readable (p : image.RGBA.t) : wf_buffer p -> readable (image.RGBA.Image p).
Proof.
  intros Hwf x y. simpl. unfold image.RGBA.RGBAAt.
  destruct (colorAt_wf image.RGBA.zero p x y Hwf) as [c ->]. simpl. eauto.
Qed.

Lemma applyOpacity_pixels (img : image.Image.t) (opacityAlpha : float) :
  wf_rect (image.Image.Bounds img) -> readable img ->
  exists res, applyOpacity img opacityAlpha = Ret res /\ wf_buffer res /\
    image.Rect res = image.Image.Bounds img /\
    forall x y, image.Point_In (image.Point.mk x y) (image.Image.Bounds img) = true ->
      exists c, image.Image.At img x y = Ret c /\
        image.NRGBA.NRGBAAt res x y = Ret (opacityPixel c opacityAlpha).
Proof.
  intros Hr Hsrc. unfold applyOpacity.
  destruct (NewNRGBA_wf _ Hr) as (res0 & -> & Hwf0 & HR0 & _). simpl.
  rewrite (forM_nested (fun s x y =>
             c ← image.Image.At img x y; image.NRGBA.Set_ s x y (opacityPixel c opacityAlpha))).
  set (v := fun x y => match image.Image.At img x y with
                       | Ret c => opacityPixel c opacityAlpha
                       | _ => image.NRGBA.zero
                       end).
  destruct (forM_setPix_value image.NRGBA.zero
              (fun s pt => c ← image.Image.At img pt.1 pt.2;
                           image.NRGBA.Set_ s pt.1 pt.2 (opacityPixel c opacityAlpha))
              v
              (points (seqZ (image.Point.X (image.Rectangle.Min (image.Image.Bounds img)))
                            (image.Point.X (image.Rectangle.Max (image.Image.Bounds img))
                             - image.Point.X (image.Rectangle.Min (image.Image.Bounds img))))
                      (seqZ (image.Point.Y (image.Rectangle.Min (image.Image.Bounds img)))
                            (image.Point.Y (image.Rectangle.Max (image.Image.Bounds img))
                             - image.Point.Y (image.Rectangle.Min (image.Image.Bounds img)))))
              res0 Hwf0) as (res & E & Hwf & HR & _ & Hval).
  - intros [x y] Hpt. apply elem_of_points in Hpt. simpl. rewrite HR0.
    apply Point_In_spec. lia.
  - intros q [x y] Hq HRq Hpt. apply elem_of_points in Hpt. simpl.
    assert (Hin : image.Point_In (image.Point.mk x y) (image.Rect q) = true)
      by (rewrite HRq, HR0; apply Point_In_spec; lia).
    unfold v. destruct (Hsrc x y) as [c ->]. simpl.
    unfold image.NRGBA.Set_. rewrite Hin. simpl. by apply store_in.
  - exists res. split; [exact E|]. split; [exact Hwf|]. split; [congruence|].
    intros x y Hin. destruct (Hsrc x y) as [c Hc]. exists c. split; [exact Hc|].
    unfold image.NRGBA.NRGBAAt. rewrite Hval.
    + unfold v. by rewrite Hc.
    + apply elem_of_points. apply Point_In_spec in Hin. lia.
Qed.

Lemma NRGBA_alpha8 (px : color.NRGBA.t) :
  is_byte (color.NRGBA.A px) ->
  Z.shiftr (color.a16 (color.NRGBA.RGBA px)) 8 = color.NRGBA.A px.
Proof.
  intros Ha. simpl.
  apply Z.eqb_eq. revert Ha.
  apply (forall_bytes (fun a => Z.shiftr (Z.lor (uint32 a) (uint32 (Z.shiftl (uint32 a) 8))) 8 =? a)).
  vm_compute. reflexivity.
Qed.

Lemma NRGBA_opaque_channel (c : Z) :
  is_byte c -> uint8 (Z.shiftr (color.NRGBA.channel c 255) 8) = c.
Proof.
  intros Hc. apply Z.eqb_eq. revert Hc.
  apply (forall_bytes (fun c => uint8 (Z.shiftr (color.NRGBA.channel c 255) 8) =? c)).
  vm_compute. reflexivity.
Qed.

(** ** Single placement: the position *)

Lemma aligned_axis (align baseSize wmSize spacing : Z) :
  0 <= baseSize <= MaxInt -> 0 <= wmSize <= MaxInt -> 0 <= spacing <= MaxInt ->
  (if align =? 0 then spacing
   else if align =? 1 then int_div (int_sub baseSize wmSize) 2
   else if align =? 2 then int_sub (int_sub baseSize wmSize) spacing
   else int_div (int_sub baseSize wmSize) 2)
  = wrap (alignedCoordinate align baseSize wmSize spacing).
Proof.
  intros Hb Hw Hs. unfold alignedCoordinate, int_div, int_sub.
  assert (Hd : is_int (baseSize - wmSize)) by (unfold is_int, MinInt, MaxInt in *; lia).
  rewrite (wrap_id _ Hd).
  destruct (Z.eqb_spec align 0); [symmetry; apply wrap_id; unfold is_int, MinInt, MaxInt in *; lia|].
  destruct (Z.eqb_spec align 1), (Z.eqb_spec align 2); try lia; reflexivity.
Qed.

(** One axis of the position never panics: the argument of [Intn] is
    positive whenever it is reached. *)
Lemma axis_returns `{rnd : rand.Source} (align baseSize wmSize spacing : Z) (g : rand.state) :
  0 <= baseSize < MaxInt -> 0 <= wmSize <= MaxInt -> 0 <= spacing <= MaxInt ->
  exists v g',
    (if align =? 0 then Ret (spacing, g)
     else if align =? 1 then Ret (int_div (int_sub baseSize wmSize) 2, g)
     else if align =? 2 then Ret (int_sub (int_sub baseSize wmSize) spacing, g)
     else if align =? 3 then
       let minX := spacing in
       let maxX := int_sub (int_sub baseSize wmSize) spacing in
       if minX <? maxX then
         '(n, g) ← rand.Intn g (int_add (int_sub maxX minX) 1);
         Ret (int_add n minX, g)
       else Ret (minX, g)
     else Ret (int_div (int_sub baseSize wmSize) 2, g)) = Ret (v, g').
Proof.
  intros Hb Hw Hs.
  destruct (align =? 0); [eauto|]. destruct (align =? 1); [eauto|].
  destruct (align =? 2); [eauto|]. destruct (align =? 3); [|eauto]. cbv zeta.
  destruct (Z.ltb_spec spacing (int_sub (int_sub baseSize wmSize) spacing)) as [Hlt|]; [|eauto].
  unfold int_sub in *. unfold MaxInt in *.
  rewrite (wrap_id (baseSize - wmSize)) in * by int_range.
  destruct (wrap_cases (baseSize - wmSize - spacing) ltac:(lia)) as (Hi & Hc).
  set (maxX := wrap (baseSize - wmSize - spacing)) in *. clearbody maxX.
  unfold is_int, MinInt, MaxInt in Hi.
  rewrite (wrap_id (maxX - spacing)) by int_range.
  assert (Hn : 0 < int_add (maxX - spacing) 1).
  { unfold int_add. rewrite wrap_id by int_range. lia. }
  unfold rand.Intn. destruct (Z.leb_spec (int_add (maxX - spacing) 1) 0); [lia|].
  cbn [mbind outcome_bind]. destruct (rand.sample g _) as [n g']. eauto.
Qed.

(** One axis, whatever its alignment: the switch returns, and a fixed
    alignment gives its coordinate and leaves the generator alone. *)
Lemma axis_aligned `{rnd : rand.Source} (align baseSize wmSize spacing : Z) (g : rand.state) :
  0 <= baseSize <= MaxInt -> 0 <= wmSize <= MaxInt -> 0 <= spacing <= MaxInt ->
  (align = 3 -> baseSize < MaxInt) ->
  exists v g',
    (if align =? 0 then Ret (spacing, g)
     else if align =? 1 then Ret (int_div (int_sub baseSize wmSize) 2, g)
     else if align =? 2 then Ret (int_sub (int_sub baseSize wmSize) spacing, g)
     else if align =? 3 then
       let minX := spacing in
       let maxX := int_sub (int_sub baseSize wmSize) spacing in
       if minX <? maxX then
         '(n, g) ← rand.Intn g (int_add (int_sub maxX minX) 1);
         Ret (int_add n minX, g)
       else Ret (minX, g)
     else Ret (int_div (int_sub baseSize wmSize) 2, g)) = Ret (v, g')
    /\ (align <> 3 ->
        v = wrap (alignedCoordinate align baseSize wmSize spacing) /\ g' = g).
Proof.
  intros Hb Hw Hs Hfit. destruct (Z.eq_dec align 3) as [E|Hne].
  - destruct (axis_returns align baseSize wmSize spacing g) as (v & g' & Ev);
      [specialize (Hfit E); lia|assumption..|].
    exists v, g'. split; [exact Ev|]. intros Hne. contradiction.
  - exists (wrap (alignedCoordinate align baseSize wmSize spacing)), g.
    split; [|auto]. rewrite <- (aligned_axis align baseSize wmSize spacing Hb Hw Hs).
    destruct (Z.eqb_spec align 0); [reflexivity|].
    destruct (Z.eqb_spec align 1); [reflexivity|].
    destruct (Z.eqb_spec align 2); [reflexivity|].
    destruct (Z.eqb_spec align 3); [contradiction|reflexivity].
Qed.

(** C3: with no overflow (non-negative sizes, a spacing that is a non-negative
    [int]), for every pair of alignments the call returns a position in which
    each axis whose alignment is not Random has, whatever the alignment of the
    other axis: [spacing] for Left/Top, [baseSize - wmSize - spacing] for
    Right/Bottom, and [(baseSize - wmSize) / 2] truncated toward zero for
    Middle and for every unrecognised alignment value; with no Random axis the
    generator is not touched. *)
Theorem getWatermarkPosition_aligned `{rnd : rand.Source}
    (watermarkImage inputImage : image.Image.t)
    (verticalAlign : VerticalAlign) (horizontalAlign : HorizontalAlign)
    (spacing : Z) (g : rand.state) :
  let inW := image.Rectangle.Dx (image.Image.Bounds inputImage) in
  let inH := image.Rectangle.Dy (image.Image.Bounds inputImage) in
  let wmW := image.Rectangle.Dx (image.Image.Bounds watermarkImage) in
  let wmH := image.Rectangle.Dy (image.Image.Bounds watermarkImage) in
  0 <= inW -> 0 <= inH -> 0 <= wmW -> 0 <= wmH ->
  0 <= spacing <= MaxInt ->
  (horizontalAlign = HorizontalRandom -> inW < MaxInt) ->
  (verticalAlign = VerticalRandom -> inH < MaxInt) ->
  exists p g',
    getWatermarkPosition watermarkImage inputImage verticalAlign horizontalAlign spacing g
    = Ret (p, g')
    /\ (horizontalAlign <> HorizontalRandom ->
        image.Point.X p = wrap (alignedCoordinate horizontalAlign inW wmW spacing))
    /\ (verticalAlign <> VerticalRandom ->
        image.Point.Y p = wrap (alignedCoordinate verticalAlign inH wmH spacing))
    /\ (horizontalAlign <> HorizontalRandom -> verticalAlign <> VerticalRandom -> g' = g).
Proof.
  intros inW inH wmW wmH HiW HiH HwW HwH Hs HfX HfY.
  pose proof (Dx_is_int (image.Image.Bounds inputImage)) as [_ ?].
  pose proof (Dy_is_int (image.Image.Bounds inputImage)) as [_ ?].
  pose proof (Dx_is_int (image.Image.Bounds watermarkImage)) as [_ ?].
  pose proof (Dy_is_int (image.Image.Bounds watermarkImage)) as [_ ?].
  destruct (axis_aligned horizontalAlign inW wmW spacing g) as (x & g1 & Ex & Hx);
    [subst inW; lia | subst wmW; lia | lia | exact HfX |].
  destruct (axis_aligned verticalAlign inH wmH spacing g1) as (y & g2 & Ey & Hy);
    [subst inH; lia | subst wmH; lia | lia | exact HfY |].
  exists (image.Point.mk x y), g2.
  unfold getWatermarkPosition, HorizontalLeft, HorizontalMiddle, HorizontalRight,
    HorizontalRandom, VerticalTop, VerticalMiddle, VerticalBottom, VerticalRandom in *.
  fold inW inH wmW wmH. cbv zeta in Ex, Ey |- *.
  rewrite Ex. cbn [mbind outcome_bind]. rewrite Ey. cbn [mbind outcome_bind].
  split; [reflexivity|]. cbn [image.Point.X image.Point.Y].
  split; [intros Hh; apply Hx, Hh|]. split; [intros Hv; apply Hy, Hv|].
  intros Hh Hv. destruct (Hx Hh) as [_ ->]. destruct (Hy Hv) as [_ ->]. reflexivity.
Qed.

Lemma random_axis `{rnd : rand.Source} (Hr : rand.in_range)
    (baseSize wmSize spacing : Z) (g : rand.state) :
  0 <= baseSize <= MaxInt -> 0 <= wmSize <= MaxInt -> 0 <= spacing <= MaxInt ->
  randomAxisFits baseSize wmSize spacing ->
  exists v g',
    (let minX := spacing in
     let maxX := int_sub (int_sub baseSize wmSize) spacing in
     if minX <? maxX then
       '(n, g) ← rand.Intn g (int_add (int_sub maxX minX) 1);
       Ret (int_add n minX, g)
     else Ret (minX, g)) = Ret (v, g')
    /\ spacing <= v <= Z.max (baseSize - wmSize - spacing) spacing
    /\ (baseSize - wmSize - spacing <= spacing -> v = spacing /\ g' = g).
Proof.
  intros Hb Hw Hs [Hlo Hhi]. cbv zeta. unfold int_sub.
  rewrite (wrap_id (baseSize - wmSize)) by (unfold is_int, MinInt, MaxInt in *; lia).
  rewrite (wrap_id (baseSize - wmSize - spacing)) by (unfold is_int, MinInt, MaxInt in *; lia).
  destruct (Z.ltb_spec spacing (baseSize - wmSize - spacing)) as [Hlt|Hge].
  - unfold int_add.
    rewrite (wrap_id (baseSize - wmSize - spacing - spacing)) by (unfold is_int, MinInt, MaxInt in *; lia).
    rewrite (wrap_id (baseSize - wmSize - spacing - spacing + 1)) by (unfold is_int, MinInt, MaxInt in *; lia).
    unfold rand.Intn.
    destruct (Z.leb_spec (baseSize - wmSize - spacing - spacing + 1) 0) as [?|Hpos]; [lia|].
    pose proof (Hr g _ Hpos) as Hn.
    destruct (rand.sample g (baseSize - wmSize - spacing - spacing + 1)) as [n g'] eqn:E.
    simpl in Hn. exists (wrap (n + spacing)), g'. simpl.
    rewrite (wrap_id (n + spacing)) by (unfold is_int, MinInt, MaxInt in *; lia).
    split; [reflexivity|]. split; lia.
  - exists spacing, g. split; [reflexivity|]. split; [lia|]. auto.
Qed.

Lemma axis_outcome `{rnd : rand.Source} (Hr : rand.in_range)
    (align baseSize wmSize spacing : Z) (g : rand.state) :
  0 <= baseSize <= MaxInt -> 0 <= wmSize <= MaxInt -> 0 <= spacing <= MaxInt ->
  (align = 3 -> randomAxisFits baseSize wmSize spacing) ->
  exists v g',
    (if align =? 0 then Ret (spacing, g)
     else if align =? 1 then Ret (int_div (int_sub baseSize wmSize) 2, g)
     else if align =? 2 then Ret (int_sub (int_sub baseSize wmSize) spacing, g)
     else if align =? 3 then
       let minX := spacing in
       let maxX := int_sub (int_sub baseSize wmSize) spacing in
       if minX <? maxX then
         '(n, g) ← rand.Intn g (int_add (int_sub maxX minX) 1);
         Ret (int_add n minX, g)
       else Ret (minX, g)
     else Ret (int_div (int_sub baseSize wmSize) 2, g)) = Ret (v, g')
    /\ (align = 3 ->
        spacing <= v <= Z.max (baseSize - wmSize - spacing) spacing
        /\ (baseSize - wmSize - spacing <= spacing -> v = spacing))
    /\ ((align = 3 -> baseSize - wmSize - spacing <= spacing) -> g' = g).
Proof.
  intros Hb Hw Hs Hfit.
  destruct (Z.eqb_spec align 0); [eexists _, _; split; [reflexivity|]; split; [lia|auto]|].
  destruct (Z.eqb_spec align 1); [eexists _, _; split; [reflexivity|]; split; [lia|auto]|].
  destruct (Z.eqb_spec align 2); [eexists _, _; split; [reflexivity|]; split; [lia|auto]|].
  destruct (Z.eqb_spec align 3); [|eexists _, _; split; [reflexivity|]; split; [lia|auto]].
  destruct (random_axis Hr baseSize wmSize spacing g Hb Hw Hs (Hfit e)) as (v & g' & E & Hv & Hd).
  exists v, g'. split; [exact E|]. split.
  - intros _. split; [exact Hv|]. intros H. apply Hd, H.
  - intros H. apply Hd, H, e.
Qed.

(** C6: with no overflow, the call returns; on an axis whose alignment is
    Random the coordinate lies in [[spacing, max(baseSize - wmSize - spacing,
    spacing)]], and it is exactly [spacing] when
    [baseSize - wmSize - spacing <= spacing]; when that holds on every Random
    axis nothing is sampled (the generator's state is unchanged). *)
Theorem getWatermarkPosition_random `{rnd : rand.Source} (Hr : rand.in_range)
    (watermarkImage inputImage : image.Image.t)
    (verticalAlign : VerticalAlign) (horizontalAlign : HorizontalAlign)
    (spacing : Z) (g : rand.state) :
  let inW := image.Rectangle.Dx (image.Image.Bounds inputImage) in
  let inH := image.Rectangle.Dy (image.Image.Bounds inputImage) in
  let wmW := image.Rectangle.Dx (image.Image.Bounds watermarkImage) in
  let wmH := image.Rectangle.Dy (image.Image.Bounds watermarkImage) in
  0 <= inW -> 0 <= inH -> 0 <= wmW -> 0 <= wmH ->
  0 <= spacing <= MaxInt ->
  (horizontalAlign = HorizontalRandom -> randomAxisFits inW wmW spacing) ->
  (verticalAlign = VerticalRandom -> randomAxisFits inH wmH spacing) ->
  exists p g',
    getWatermarkPosition watermarkImage inputImage verticalAlign horizontalAlign spacing g
    = Ret (p, g')
    /\ (horizontalAlign = HorizontalRandom ->
        spacing <= image.Point.X p <= Z.max (inW - wmW - spacing) spacing
        /\ (inW - wmW - spacing <= spacing -> image.Point.X p = spacing))
    /\ (verticalAlign = VerticalRandom ->
        spacing <= image.Point.Y p <= Z.max (inH - wmH - spacing) spacing
        /\ (inH - wmH - spacing <= spacing -> image.Point.Y p = spacing))
    /\ ((horizontalAlign = HorizontalRandom -> inW - wmW - spacing <= spacing) ->
        (verticalAlign = VerticalRandom -> inH - wmH - spacing <= spacing) ->
        g' = g).
Proof.
  intros inW inH wmW wmH HiW HiH HwW HwH Hs HfX HfY.
  pose proof (Dx_is_int (image.Image.Bounds inputImage)) as [_ ?].
  pose proof (Dy_is_int (image.Image.Bounds inputImage)) as [_ ?].
  pose proof (Dx_is_int (image.Image.Bounds watermarkImage)) as [_ ?].
  pose proof (Dy_is_int (image.Image.Bounds watermarkImage)) as [_ ?].
  destruct (axis_outcome Hr horizontalAlign inW wmW spacing g) as (x & g1 & Ex & Hx & Hgx);
    [subst inW; lia | subst wmW; lia | lia | exact HfX |].
  destruct (axis_outcome Hr verticalAlign inH wmH spacing g1) as (y & g2 & Ey & Hy & Hgy);
    [subst inH; lia | subst wmH; lia | lia | exact HfY |].
  exists (image.Point.mk x y), g2.
  unfold getWatermarkPosition, HorizontalLeft, HorizontalMiddle, HorizontalRight,
    HorizontalRandom, VerticalTop, VerticalMiddle, VerticalBottom, VerticalRandom in *.
  fold inW inH wmW wmH. cbv zeta in Ex, Ey |- *.
  rewrite Ex. cbn [mbind outcome_bind]. rewrite Ey. cbn [mbind outcome_bind].
  split; [reflexivity|]. split; [exact Hx|]. split; [exact Hy|].
  intros Hdx Hdy. rewrite (Hgy Hdy). apply Hgx, Hdx.
Qed.


(** ** Grid placement: the positions *)

Lemma quot_ceilDiv (a b : Z) : 0 <= a -> 0 < b -> Z.quot (a + b - 1) b = ceilDiv a b.
Proof.
  intros Ha Hb. rewrite Z.quot_div_nonneg by lia. unfold ceilDiv.
  pose proof (Z.div_mod (a + b - 1) b ltac:(lia)) as E.
  pose proof (Z.mod_pos_bound (a + b - 1) b Hb) as B.
  symmetry. apply Z.opp_inj. rewrite Z.opp_involutive.
  symmetry. apply (Z.div_unique (- a) b _ (b - 1 - (a + b - 1) mod b)); lia.
Qed.

Lemma ceilDiv_bounds (a b : Z) :
  0 <= a -> 0 < b ->
  0 <= ceilDiv a b /\ a <= ceilDiv a b * b /\ (ceilDiv a b - 1) * b < a + Z.b2z (a =? 0).
Proof.
  intros Ha Hb. rewrite <- (quot_ceilDiv a b Ha Hb), Z.quot_div_nonneg by lia.
  pose proof (Z.div_mod (a + b - 1) b ltac:(lia)) as E.
  pose proof (Z.mod_pos_bound (a + b - 1) b Hb) as B.
  pose proof (Z.div_pos (a + b - 1) b ltac:(lia) Hb).
  destruct (Z.eqb_spec a 0); simpl; nia.
Qed.

Lemma ceilDiv_pos (a b : Z) : 0 < a -> 0 < b -> 0 < ceilDiv a b.
Proof.
  intros Ha Hb. destruct (ceilDiv_bounds a b ltac:(lia) Hb) as (H0 & H1 & _).
  destruct (Z.eq_dec (ceilDiv a b) 0) as [E|]; [rewrite E in H1|]; lia.
Qed.

Lemma seqZ_shift (n : Z) : seqZ 1 n = Z.add 1 <$> seqZ 0 n.
Proof. by rewrite fmap_add_seqZ. Qed.

(** The inner loop from [x] with a positive step appends the [n] points of
    the row, [n] the number of steps that stay left of [inputW]. *)
Lemma gridRow_run (n : nat) : forall (fuel : nat) (inputW stepX y x : Z) ps,
  0 < stepX -> MinInt <= x -> inputW + stepX <= MaxInt ->
  (n < fuel)%nat ->
  inputW <= x + Z.of_nat n * stepX ->
  (n = O \/ x + (Z.of_nat n - 1) * stepX < inputW) ->
  gridRow fuel inputW stepX y x ps
  = Ret (ps ++ ((fun i => image.Point.mk (x + i * stepX) y) <$> seqZ 0 (Z.of_nat n))).
Proof.
  induction n as [|n IH]; intros fuel inputW stepX y x ps Hs Hx Hfit Hf Hend Hin;
    (destruct fuel as [|fuel]; [lia|]); simpl.
  - destruct (Z.ltb_spec x inputW); [lia|]. by rewrite app_nil_r.
  - destruct Hin as [|Hin]; [lia|].
    destruct (Z.ltb_spec x inputW); [|nia].
    unfold int_add. rewrite wrap_id by int_range.
    assert (inputW <= x + stepX + Z.of_nat n * stepX) by nia.
    assert (n = O \/ x + stepX + (Z.of_nat n - 1) * stepX < inputW)
      by (destruct n; [left; lia|right; nia]).
    rewrite (IH fuel inputW stepX y (x + stepX)) by (assumption || lia).
    rewrite <- app_assoc. do 2 f_equal.
    rewrite (seqZ_cons 0 (Z.of_nat (S n))) by lia.
    change (Z.succ 0) with 1.
    replace (Z.pred (Z.of_nat (S n))) with (Z.of_nat n) by lia.
    rewrite fmap_cons, Z.mul_0_l, Z.add_0_r. simpl. apply (f_equal (cons _)).
    rewrite seqZ_shift, <- list_fmap_compose.
    apply list_fmap_ext. intros _ i _. simpl. f_equal. lia.
Qed.

(** The outer loop from [y]: [m] rows of [n] points each. *)
Lemma gridRows_run (m : nat) :
  forall (fuel n : nat) (inputW inputH stepX stepY offsetX y : Z) ps,
  0 < stepX -> MinInt <= offsetX -> inputW + stepX <= MaxInt ->
  inputW <= offsetX + Z.of_nat n * stepX ->
  (n = O \/ offsetX + (Z.of_nat n - 1) * stepX < inputW) ->
  0 < stepY -> MinInt <= y -> inputH + stepY <= MaxInt ->
  (m + n < fuel)%nat ->
  inputH <= y + Z.of_nat m * stepY ->
  (m = O \/ y + (Z.of_nat m - 1) * stepY < inputH) ->
  gridRows fuel inputW inputH stepX stepY offsetX y ps
  = Ret (ps ++ lattice offsetX y (Z.of_nat n) (Z.of_nat m) stepX stepY).
Proof.
  unfold lattice.
  induction m as [|m IH]; intros fuel n inputW inputH stepX stepY offsetX y ps
    HsX Hox HfitX HendX HinX HsY Hy HfitY Hf Hend Hin;
    (destruct fuel as [|fuel]; [lia|]); simpl.
  - destruct (Z.ltb_spec y inputH); [lia|]. by rewrite app_nil_r.
  - destruct Hin as [|Hin]; [lia|].
    destruct (Z.ltb_spec y inputH); [|nia].
    rewrite (gridRow_run n fuel inputW stepX y offsetX) by (assumption || lia).
    simpl. unfold int_add at 1. rewrite wrap_id by int_range.
    assert (inputH <= y + stepY + Z.of_nat m * stepY) by nia.
    assert (m = O \/ y + stepY + (Z.of_nat m - 1) * stepY < inputH)
      by (destruct m; [left; lia|right; nia]).
    rewrite (IH fuel n inputW inputH stepX stepY offsetX (y + stepY)) by (assumption || lia).
    rewrite <- app_assoc. do 2 f_equal.
    rewrite (seqZ_cons 0 (Z.of_nat (S m))) by lia. rewrite bind_cons.
    change (Z.succ 0) with 1.
    replace (Z.pred (Z.of_nat (S m))) with (Z.of_nat m) by lia.
    f_equal.
    + apply list_fmap_ext. intros _ i _. simpl. f_equal; lia.
    + rewrite seqZ_shift.
      rewrite list_fmap_bind. apply list_bind_ext; [|done].
      intros j. apply list_fmap_ext. intros _ i _. simpl. f_equal. lia.
Qed.

Lemma lattice_length (x0 y0 countX countY stepX stepY : Z) :
  0 <= countX -> 0 <= countY ->
  Z.of_nat (length (lattice x0 y0 countX countY stepX stepY)) = countX * countY.
Proof.
  intros Hx Hy. unfold lattice.
  rewrite (length_bind_const _ (Z.to_nat countX))
    by (intros; by rewrite length_fmap, length_seqZ).
  rewrite length_seqZ. lia.
Qed.

Lemma lattice_rowMajor (countX countY w h : Z) :
  lattice 0 0 countX countY w h = rowMajor countX countY w h.
Proof.
  unfold lattice, rowMajor. apply list_bind_ext; [|done].
  intros j. apply list_fmap_ext. intros _ i _. reflexivity.
Qed.

Lemma elem_of_lattice (p : image.Point.t) (x0 y0 countX countY stepX stepY : Z) :
  p ∈ lattice x0 y0 countX countY stepX stepY <->
  exists i j, 0 <= i < countX /\ 0 <= j < countY /\
    p = image.Point.mk (x0 + i * stepX) (y0 + j * stepY).
Proof.
  unfold lattice. rewrite list_elem_of_bind. split.
  - intros (j & Hp & Hj). apply list_elem_of_fmap in Hp as (i & -> & Hi).
    apply elem_of_seqZ in Hi, Hj. exists i, j. split; [lia|]. split; [lia|done].
  - intros (i & j & Hi & Hj & ->). exists j. split; [|apply elem_of_seqZ; lia].
    apply list_elem_of_fmap. exists i. split; [done|]. apply elem_of_seqZ; lia.
Qed.

Lemma rowMajor_head (countX countY w h : Z) :
  0 < countX -> 0 < countY ->
  head (rowMajor countX countY w h) = Some (image.Point.mk 0 0).
Proof.
  intros Hx Hy. unfold rowMajor.
  rewrite (seqZ_cons 0 countY), bind_cons, (seqZ_cons 0 countX) by lia.
  reflexivity.
Qed.

(** With positive steps and offsets inside the image the function returns the
    lattice that starts at the offset, [ceilDiv] of the remaining extent by
    the step along each axis. *)
Lemma generateGridPositions_positive (fuel : nat) (inputImg watermarkImg : image.Image.t)
    (config : GridConfig.t) :
  let W := image.Rectangle.Dx (image.Image.Bounds inputImg) in
  let H := image.Rectangle.Dy (image.Image.Bounds inputImg) in
  let stepX := image.Rectangle.Dx (image.Image.Bounds watermarkImg)
               + GridConfig.GridSpacingX config in
  let stepY := image.Rectangle.Dy (image.Image.Bounds watermarkImg)
               + GridConfig.GridSpacingY config in
  let ox := GridConfig.OffsetX config in
  let oy := GridConfig.OffsetY config in
  let countX := ceilDiv (W - ox) stepX in
  let countY := ceilDiv (H - oy) stepY in
  0 <= W -> 0 <= H ->
  0 < stepX -> 0 < stepY -> MinInt <= ox < W -> MinInt <= oy < H ->
  W + stepX <= MaxInt -> H + stepY <= MaxInt ->
  W - ox + stepX <= MaxInt -> H - oy + stepY <= MaxInt ->
  16 * (countX * countY) <= maxAlloc ->
  countX + countY < Z.of_nat fuel ->
  0 < countX /\ 0 < countY /\
  generateGridPositions fuel inputImg watermarkImg config
  = Ret (lattice ox oy countX countY stepX stepY).
Proof.
  intros W H stepX stepY ox oy countX countY.
  unfold generateGridPositions. fold W H ox oy.
  pose proof (Dx_is_int (image.Image.Bounds inputImg)) as HWi. fold W in HWi.
  pose proof (Dy_is_int (image.Image.Bounds inputImg)) as HHi. fold H in HHi.
  intros HW0 HH0 HsX HsY Hox Hoy HfitX HfitY HcX HcY Htot Hfuel.
  assert (HsXi : int_add (image.Rectangle.Dx (image.Image.Bounds watermarkImg))
                   (GridConfig.GridSpacingX config) = stepX)
    by (unfold int_add; apply wrap_id; fold stepX; int_range).
  assert (HsYi : int_add (image.Rectangle.Dy (image.Image.Bounds watermarkImg))
                   (GridConfig.GridSpacingY config) = stepY)
    by (unfold int_add; apply wrap_id; fold stepY; int_range).
  rewrite HsXi, HsYi. clearbody W H stepX stepY ox oy.
  destruct (ceilDiv_bounds (W - ox) stepX ltac:(lia) HsX) as (Hcx0 & Hcx1 & Hcx2).
  destruct (ceilDiv_bounds (H - oy) stepY ltac:(lia) HsY) as (Hcy0 & Hcy1 & Hcy2).
  pose proof (ceilDiv_pos (W - ox) stepX ltac:(lia) HsX) as Hcxp.
  pose proof (ceilDiv_pos (H - oy) stepY ltac:(lia) HsY) as Hcyp.
  fold countX in Hcx0, Hcx1, Hcx2, Hcxp. fold countY in Hcy0, Hcy1, Hcy2, Hcyp.
  destruct (Z.eqb_spec (W - ox) 0); [lia|]. destruct (Z.eqb_spec (H - oy) 0); [lia|].
  simpl in Hcx2, Hcy2.
  split; [exact Hcxp|]. split; [exact Hcyp|].
  destruct (Z.leb_spec W ox); [lia|]. destruct (Z.leb_spec H oy); [lia|]. simpl.
  unfold int_add, int_sub, int_quot, int_mul.
  rewrite (wrap_id (W - ox)), (wrap_id (H - oy)) by int_range.
  rewrite (wrap_id (W - ox + stepX)), (wrap_id (H - oy + stepY)) by int_range.
  rewrite (wrap_id (W - ox + stepX - 1)), (wrap_id (H - oy + stepY - 1)) by int_range.
  destruct (Z.eqb_spec stepX 0); [lia|]. destruct (Z.eqb_spec stepY 0); [lia|].
  cbn [mbind outcome_bind].
  rewrite (quot_ceilDiv (W - ox) stepX), (quot_ceilDiv (H - oy) stepY) by lia.
  fold countX countY.
  unfold maxAlloc in Htot.
  rewrite (wrap_id countX), (wrap_id countY) by (unfold is_int, MinInt, MaxInt in *; nia).
  rewrite (wrap_id (countX * countY)) by (unfold is_int, MinInt, MaxInt in *; nia).
  destruct (Z.leb_spec (countX * countY) 0); [nia|].
  unfold makeslice, maxAlloc.
  destruct (Z.ltb_spec (countX * countY) 0); [lia|].
  destruct (Z.ltb_spec (2 ^ 48) (16 * (countX * countY))); [lia|].
  cbn [orb mbind outcome_bind].
  rewrite (gridRows_run (Z.to_nat countY) fuel (Z.to_nat countX) W H stepX stepY ox oy [])
    by (rewrite ?Z2Nat.id by lia; try lia; right; lia).
  rewrite !Z2Nat.id by lia. reflexivity.
Qed.

(** C5: a base of size W x H and a watermark of size w x h (w, h > 0), no
    spacing and no offset, with sizes that do not overflow, a number of tiles
    that [make] grants (at most [maxAlloc] bytes of 16-byte points) and enough
    fuel for the two loops: the function returns the tiles in row-major order,
    [ceil(W/w) * ceil(H/h)] of them, the first at (0, 0) (a base with a zero
    side has no tile). *)
Theorem generateGridPositions_tiling (fuel : nat) (inputImg watermarkImg : image.Image.t)
    (config : GridConfig.t) :
  let W := image.Rectangle.Dx (image.Image.Bounds inputImg) in
  let H := image.Rectangle.Dy (image.Image.Bounds inputImg) in
  let w := image.Rectangle.Dx (image.Image.Bounds watermarkImg) in
  let h := image.Rectangle.Dy (image.Image.Bounds watermarkImg) in
  0 <= W -> 0 <= H -> 0 < w -> 0 < h ->
  GridConfig.GridSpacingX config = 0 -> GridConfig.GridSpacingY config = 0 ->
  GridConfig.OffsetX config = 0 -> GridConfig.OffsetY config = 0 ->
  W + w <= MaxInt -> H + h <= MaxInt ->
  16 * (ceilDiv W w * ceilDiv H h) <= maxAlloc ->
  ceilDiv W w + ceilDiv H h < Z.of_nat fuel ->
  generateGridPositions fuel inputImg watermarkImg config
  = Ret (rowMajor (ceilDiv W w) (ceilDiv H h) w h)
  /\ Z.of_nat (length (rowMajor (ceilDiv W w) (ceilDiv H h) w h)) = ceilDiv W w * ceilDiv H h
  /\ (0 < W -> 0 < H ->
      head (rowMajor (ceilDiv W w) (ceilDiv H h) w h) = Some (image.Point.mk 0 0)).
Proof.
  intros W H w h HW HH Hw Hh Hsx Hsy Hox Hoy HfitX HfitY Htot Hfuel.
  destruct (ceilDiv_bounds W w HW Hw) as (Hcx0 & _).
  destruct (ceilDiv_bounds H h HH Hh) as (Hcy0 & _).
  split; [|split].
  - destruct (Z.eq_dec W 0) as [EW|NW]; [|destruct (Z.eq_dec H 0) as [EH|NH]].
    + unfold generateGridPositions. fold W H. rewrite Hox, EW. simpl.
      assert (ceilDiv 0 w = 0) as -> by (unfold ceilDiv; simpl; by rewrite Z.div_0_l by lia).
      unfold rowMajor. rewrite (seqZ_nil 0 0) by lia.
      f_equal. induction (seqZ 0 (ceilDiv H h)); [done|]. by rewrite bind_cons, fmap_nil.
    + unfold generateGridPositions. fold W H. rewrite Hox, Hoy, EH.
      destruct (Z.leb_spec W 0); [lia|]. simpl.
      assert (ceilDiv 0 h = 0) as -> by (unfold ceilDiv; simpl; by rewrite Z.div_0_l by lia).
      unfold rowMajor. by rewrite (seqZ_nil 0 0) by lia.
    + pose proof (generateGridPositions_positive fuel inputImg watermarkImg config) as G.
      cbv zeta in G. fold W H w h in G. rewrite Hsx, Hsy, Hox, Hoy in G.
      rewrite !Z.add_0_r, !Z.sub_0_r in G.
      destruct G as (_ & _ & ->); unfold MinInt in *; try lia.
      by rewrite lattice_rowMajor.
  - rewrite <- lattice_rowMajor. by apply lattice_length.
  - intros HW1 HH1. apply rowMajor_head; by apply ceilDiv_pos.
Qed.

(** Beyond that number of tiles the function panics where it makes the
    slice: an 8388608 x 8388608 base and a 1 x 1 watermark ask for 2^46
    points. *)
Lemma generateGridPositions_cap_out_of_range (fuel : nat) :
  generateGridPositions fuel (blank 8388608 8388608) (blank 1 1) (sample.grid 0 0 0 0)
  = Panic "runtime error: makeslice: cap out of range".
Proof. reflexivity. Qed.

(** A loop whose step is zero or negative does not return: from [x] left of
    the bound it is still running after any number of iterations that keeps
    [x] an [int]. *)
Lemma gridRow_no_progress (fuel : nat) : forall (inputW stepX y x : Z) ps,
  stepX <= 0 -> x < inputW -> x <= MaxInt ->
  MinInt <= x + Z.of_nat fuel * stepX ->
  gridRow fuel inputW stepX y x ps = OutOfFuel.
Proof.
  induction fuel as [|fuel IH]; intros inputW stepX y x ps Hs Hx Hmax Hmin; [done|].
  simpl. destruct (Z.ltb_spec x inputW); [|lia].
  unfold int_add. rewrite wrap_id by (unfold is_int, MinInt, MaxInt in *; nia).
  apply IH; nia.
Qed.

Lemma gridRows_no_progress (fuel : nat) (inputW inputH stepX stepY offsetX y : Z) ps :
  stepX <= 0 -> offsetX < inputW -> offsetX <= MaxInt -> y < inputH ->
  MinInt <= offsetX + Z.of_nat fuel * stepX ->
  gridRows fuel inputW inputH stepX stepY offsetX y ps = OutOfFuel.
Proof.
  intros Hs Hx Hmax Hy Hmin. destruct fuel as [|fuel]; [done|].
  simpl. destruct (Z.ltb_spec y inputH); [|lia].
  rewrite gridRow_no_progress by nia. reflexivity.
Qed.

(** C4: a 100 x 100 base, a 10 x 10 watermark and grid spacings of -20 give
    steps of -10 and counts of -8, whose product 64 passes the only check
    before the loops; the inner loop then moves away from its bound and the
    function has not returned after 2^59 iterations. *)
Theorem generateGridPositions_negative_steps (fuel : nat) :
  Z.of_nat fuel <= 2 ^ 59 ->
  generateGridPositions fuel (blank 100 100) (blank 10 10) (sample.grid (-20) (-20) 0 0)
  = OutOfFuel.
Proof.
  intros Hf. unfold generateGridPositions.
  change (image.Rectangle.Dx (image.Image.Bounds (blank 100 100))) with 100.
  change (image.Rectangle.Dy (image.Image.Bounds (blank 100 100))) with 100.
  change (image.Rectangle.Dx (image.Image.Bounds (blank 10 10))) with 10.
  change (image.Rectangle.Dy (image.Image.Bounds (blank 10 10))) with 10.
  cbn -[gridRows].
  change (int_add 10 (-20)) with (-10).
  apply gridRows_no_progress; unfold MinInt, MaxInt; lia.
Qed.

(** ** Configuration *)

(** X1: on fields that are numbers, [validate] reports the first check of
    [checks] that fails, and accepts exactly the documented ranges. *)
Theorem validate_first_violation (c : SingleConfig.t) :
  let general := SingleConfig.General c in
  float64_is_nan (GeneralConfig.OpacityAlpha general) = false ->
  float64_is_nan (GeneralConfig.WatermarkWidthPercent general) = false ->
  float64_is_nan (GeneralConfig.RotationDegrees general) = false ->
  SingleConfig.validate c = firstViolation (checks c)
  /\ (SingleConfig.validate c = None <->
      inOpacityRange (GeneralConfig.OpacityAlpha general) = true /\
      inWidthPercentRange (GeneralConfig.WatermarkWidthPercent general) = true /\
      inRotationRange (GeneralConfig.RotationDegrees general) = true /\
      0 <= GeneralConfig.MaxWorkers general /\ 0 <= SingleConfig.Spacing c).
Proof.
  intros general Ho Hw Hr.
  assert (E : SingleConfig.validate c = firstViolation (checks c)).
  { unfold SingleConfig.validate, GeneralConfig.validate, checks, firstViolation,
      inOpacityRange, inWidthPercentRange, inRotationRange. fold general.
    rewrite (leb_negb_ltb (GeneralConfig.OpacityAlpha general) 0 Ho eq_refl).
    rewrite (ltb_negb_leb 1 (GeneralConfig.OpacityAlpha general) eq_refl Ho).
    rewrite (leb_negb_ltb (GeneralConfig.WatermarkWidthPercent general) 0 Hw eq_refl).
    rewrite (ltb_negb_leb 100 (GeneralConfig.WatermarkWidthPercent general) eq_refl Hw).
    rewrite (ltb_negb_leb (GeneralConfig.RotationDegrees general) 0 Hr eq_refl).
    rewrite (ltb_negb_leb 360 (GeneralConfig.RotationDegrees general) eq_refl Hr).
    destruct (0 <? GeneralConfig.OpacityAlpha general)%float,
      (GeneralConfig.OpacityAlpha general <=? 1)%float; simpl; try reflexivity.
    destruct (0 <? GeneralConfig.WatermarkWidthPercent general)%float,
      (GeneralConfig.WatermarkWidthPercent general <=? 100)%float; simpl; try reflexivity.
    destruct (0 <=? GeneralConfig.RotationDegrees general)%float,
      (GeneralConfig.RotationDegrees general <=? 360)%float; simpl; try reflexivity.
    destruct (Z.ltb_spec (GeneralConfig.MaxWorkers general) 0),
      (Z.leb_spec 0 (GeneralConfig.MaxWorkers general)); try lia; try reflexivity.
    destruct (Z.ltb_spec (SingleConfig.Spacing c) 0),
      (Z.leb_spec 0 (SingleConfig.Spacing c)); try lia; reflexivity. }
  split; [exact E|]. rewrite E. unfold checks. fold general. simpl.
  destruct (inOpacityRange _); [|split; [discriminate|intros (?&_); discriminate]].
  destruct (inWidthPercentRange _); [|split; [discriminate|intros (_&?&_); discriminate]].
  destruct (inRotationRange _); [|split; [discriminate|intros (_&_&?&_); discriminate]].
  destruct (Z.leb_spec 0 (GeneralConfig.MaxWorkers general));
    [|split; [discriminate|intros (_&_&_&?&_); lia]].
  destruct (Z.leb_spec 0 (SingleConfig.Spacing c));
    [|split; [discriminate|intros (_&_&_&_&?); lia]].
  split; auto.
Qed.

Lemma validate_first_violation_witness :
  let c := sample.single 0.5 120 400 VerticalTop HorizontalLeft (-3) in
  SingleConfig.validate c = Some (ErrWatermarkWidthPercent 120).
Proof.
  cbv zeta.
  rewrite (proj1 (validate_first_violation
                    (sample.single 0.5 120 400 VerticalTop HorizontalLeft (-3))
                    eq_refl eq_refl eq_refl)).
  reflexivity.
Defined.

(** C8: a configuration whose opacity is NaN passes every check, although NaN
    is not in (0, 1]: both comparisons of [c.OpacityAlpha <= 0 ||
    c.OpacityAlpha > 1] are false on NaN. *)
Theorem validate_accepts_NaN :
  let config := sample.single nan 50 0 VerticalMiddle HorizontalMiddle 0 in
  SingleConfig.validate config = None
  /\ inOpacityRange (GeneralConfig.OpacityAlpha (SingleConfig.General config)) = false.
Proof. split; reflexivity. Qed.

(** ** Drawing the watermark *)

(** C7: on a well-formed canvas and a watermark whose pixels can be read, at
    any position (negative or beyond the canvas included), the call returns,
    the canvas keeps its bounds and layout, and every pixel outside the
    intersection of [[pos, pos + watermark size)] with the canvas bounds is
    unchanged. *)
Theorem drawWatermarkAtPosition_clips (canvas : image.RGBA.t) (watermarkImg : image.Image.t)
    (pos : image.Point.t) :
  let w := image.Rectangle.Dx (image.Image.Bounds watermarkImg) in
  let h := image.Rectangle.Dy (image.Image.Bounds watermarkImg) in
  wf_buffer canvas -> readable watermarkImg -> 0 <= w -> 0 <= h ->
  is_int (image.Point.X pos) -> is_int (image.Point.Y pos) ->
  exists canvas',
    drawWatermarkAtPosition canvas watermarkImg pos = Ret canvas' /\
    wf_buffer canvas' /\ image.Rect canvas' = image.Rect canvas /\
    forall x y,
      ~ (image.Point.X pos <= x < image.Point.X pos + w /\
         image.Point.Y pos <= y < image.Point.Y pos + h /\
         image.Point_In (image.Point.mk x y) (image.Rect canvas) = true) ->
      image.RGBA.RGBAAt canvas' x y = image.RGBA.RGBAAt canvas x y.
Proof.
  intros w h Hwf Hsrc Hw Hh HpX HpY. unfold drawWatermarkAtPosition.
  destruct (Draw_frame canvas
              (image.Rectangle.mk pos
                 (image.Point.Add pos (image.Rectangle.Size (image.Image.Bounds watermarkImg))))
              watermarkImg (image.Point.mk 0 0) draw.Over Hwf Hsrc)
    as (canvas' & E & Hwf' & HR & Hfr).
  exists canvas'. split; [exact E|]. split; [exact Hwf'|]. split; [exact HR|].
  intros x y Hout. apply Hfr. intros [Hin Hc]. apply Hout.
  apply Point_In_spec in Hin. simpl in Hin. fold w h in Hin. unfold int_add in Hin.
  pose proof (wrap_le (image.Point.X pos + w)) as Hx.
  pose proof (wrap_le (image.Point.Y pos + h)) as Hy.
  unfold is_int in *. split; [|split]; [lia|lia|exact Hc].
Qed.

(** ** The stand-ins are well formed *)

Lemma tabulate_wf (w h : Z) (f : Z -> Z -> color.NRGBA.t) :
  0 <= w <= MaxInt -> 0 <= h <= MaxInt -> 4 * w * h <= MaxInt ->
  wf_buffer (standin.tabulate w h f).
Proof.
  intros Hw Hh Hfit. unfold wf_buffer, wf_rect, standin.tabulate. cbn [image.Rect image.Stride image.Pix].
  unfold image.Rectangle.Dx, image.Rectangle.Dy, int_sub. simpl.
  rewrite !Z.sub_0_r, !wrap_id by int_range.
  split; [int_range|]. split; [reflexivity|].
  rewrite (length_bind_const _ (Z.to_nat w)).
  - rewrite length_seqZ. lia.
  - intros y. rewrite (length_bind_const _ 1%nat) by done. rewrite length_seqZ. lia.
Qed.

Lemma uniform_readable (w h : Z) (c : color.NRGBA.t) :
  0 <= w <= MaxInt -> 0 <= h <= MaxInt -> 4 * w * h <= MaxInt ->
  readable (standin.uniform w h c).
Proof. intros. apply NRGBA_readable, tabulate_wf; assumption. Qed.

Lemma canvas_wf (w h : Z) (c : color.RGBA.t) :
  0 <= w <= MaxInt -> 0 <= h <= MaxInt -> 4 * w * h <= MaxInt ->
  wf_buffer (sample.canvas w h c).
Proof.
  intros Hw Hh Hfit. unfold wf_buffer, wf_rect, sample.canvas. cbn [image.Rect image.Stride image.Pix].
  unfold image.Rectangle.Dx, image.Rectangle.Dy, int_sub. simpl.
  rewrite !Z.sub_0_r, !wrap_id by int_range.
  split; [int_range|]. split; [reflexivity|].
  rewrite length_replicate. nia.
Qed.

Lemma standin_rnd_in_range : @rand.in_range standin.rnd.
Proof. intros g n Hn. simpl. apply Z.mod_pos_bound. exact Hn. Qed.

Lemma drawWatermarkAtPosition_clips_witness :
  let canvas := sample.canvas 3 3 image.RGBA.zero in
  exists canvas',
    drawWatermarkAtPosition canvas (standin.uniform 2 2 sample.blue) (image.Point.mk 2 (-1))
    = Ret canvas'
    /\ image.RGBA.RGBAAt canvas' 1 0 = image.RGBA.RGBAAt canvas 1 0.
Proof.
  cbv zeta.
  destruct (drawWatermarkAtPosition_clips (sample.canvas 3 3 image.RGBA.zero)
              (standin.uniform 2 2 sample.blue) (image.Point.mk 2 (-1)))
    as (canvas' & E & _ & _ & Hframe).
  - apply canvas_wf; unfold MaxInt; lia.
  - apply uniform_readable; unfold MaxInt; lia.
  - vm_compute. discriminate.
  - vm_compute. discriminate.
  - unfold is_int, MinInt, MaxInt. simpl. lia.
  - unfold is_int, MinInt, MaxInt. simpl. lia.
  - exists canvas'. split; [exact E|]. apply Hframe. simpl. lia.
Defined.

(** ** The result keeps the input's bounds *)

Lemma store_Rect {C} (p p' : image.buffer C) i c :
  image.store p i c = Ret p' -> image.Rect p' = image.Rect p.
Proof.
  unfold image.store. intros E. apply bind_Ret in E as (_ & _ & E).
  by inversion E.
Qed.

Lemma Draw_Rect dst r src sp op dst' :
  draw.Draw dst r src sp op = Ret dst' -> image.Rect dst' = image.Rect dst.
Proof.
  unfold draw.Draw. destruct (draw.clip dst r src sp) as [r' sp'].
  destruct (image.Rectangle.Empty r'); [by inversion 1|].
  unfold draw.drawRGBA. intros E.
  apply (forM_preserves (fun d => image.Rect d = image.Rect dst)) in E; [done| |done].
  intros s y s' Ey Hs.
  apply (forM_preserves (fun d => image.Rect d = image.Rect dst)) in Ey; [done| |done].
  intros q x q' Ex Hq. unfold draw.drawPixel in Ex.
  apply bind_Ret in Ex as (? & _ & Ex). apply bind_Ret in Ex as (? & _ & Ex).
  apply store_Rect in Ex. congruence.
Qed.

Lemma generateBaseCanvas_Rect inputImg canvas :
  generateBaseCanvas inputImg = Ret canvas -> image.Rect canvas = image.Image.Bounds inputImg.
Proof.
  unfold generateBaseCanvas. intros E. apply bind_Ret in E as (c0 & E0 & E).
  apply Draw_Rect in E. rewrite E.
  unfold image.NewRGBA in E0. apply bind_Ret in E0 as (? & _ & E0). by inversion E0.
Qed.

Lemma drawWatermarkAtPosition_Rect canvas wm pos canvas' :
  drawWatermarkAtPosition canvas wm pos = Ret canvas' -> image.Rect canvas' = image.Rect canvas.
Proof. unfold drawWatermarkAtPosition. apply Draw_Rect. Qed.

Lemma applyGridWatermarks_Rect inputImg wm positions out :
  applyGridWatermarks inputImg wm positions = Ret out ->
  image.Rect out = image.Image.Bounds inputImg.
Proof.
  unfold applyGridWatermarks. intros E. apply bind_Ret in E as (c0 & E0 & E).
  apply generateBaseCanvas_Rect in E0. rewrite <- E0.
  apply (forM_preserves (fun c => image.Rect c = image.Rect c0)) in E; [done| |done].
  intros c pos c' Ec Hc. apply drawWatermarkAtPosition_Rect in Ec. congruence.
Qed.

(** ** Batches against single calls *)

Lemma getWatermarkPosition_deterministic `{rnd : rand.Source}
    (watermarkImage inputImage : image.Image.t)
    (verticalAlign : VerticalAlign) (horizontalAlign : HorizontalAlign) (spacing : Z) :
  horizontalAlign <> HorizontalRandom -> verticalAlign <> VerticalRandom ->
  exists p, forall g,
    getWatermarkPosition watermarkImage inputImage verticalAlign horizontalAlign spacing g
    = Ret (p, g).
Proof.
  intros Hh Hv.
  unfold getWatermarkPosition, HorizontalLeft, HorizontalMiddle, HorizontalRight,
    HorizontalRandom, VerticalTop, VerticalMiddle, VerticalBottom, VerticalRandom in *.
  destruct (Z.eqb_spec horizontalAlign 0), (Z.eqb_spec horizontalAlign 1),
    (Z.eqb_spec horizontalAlign 2), (Z.eqb_spec horizontalAlign 3); try lia;
  destruct (Z.eqb_spec verticalAlign 0), (Z.eqb_spec verticalAlign 1),
    (Z.eqb_spec verticalAlign 2), (Z.eqb_spec verticalAlign 3); try lia;
  eexists; intros g; reflexivity.
Qed.

Section Slots.
Context {A : Type} (v : nat -> A).

Lemma fill_length schedule : forall r, length (fill v r schedule) = length r.
Proof.
  induction schedule as [|j s IH]; intros r; [done|].
  simpl. rewrite IH. apply length_insert.
Qed.

Lemma fill_lookup_notin schedule : forall r i,
  i ∉ schedule -> fill v r schedule !! i = r !! i.
Proof.
  induction schedule as [|j s IH]; intros r i Hi; [done|].
  apply not_elem_of_cons in Hi as [Hne Hi]. simpl. rewrite IH by done.
  by apply list_lookup_insert_ne.
Qed.

Lemma fill_lookup_in schedule : forall r i,
  (i < length r)%nat -> i ∈ schedule -> fill v r schedule !! i = Some (v i).
Proof.
  induction schedule as [|j s IH]; intros r i Hlt Hi; [by inversion Hi|].
  simpl. destruct (decide (i ∈ s)) as [Hs|Hs].
  - apply IH; [by rewrite length_insert|done].
  - apply elem_of_cons in Hi as [->|?]; [|done].
    rewrite fill_lookup_notin by done. by apply list_lookup_insert_eq.
Qed.


End Slots.

Section Batch.
Context `{lib : imaging.Lib} `{rnd : rand.Source}.

Lemma opacityThenRotation_returns watermarkImg config :
  wf_rect (image.Image.Bounds watermarkImg) -> readable watermarkImg ->
  exists wm, opacityThenRotation watermarkImg config = Ret wm.
Proof.
  intros Hr Hsrc. unfold opacityThenRotation.
  destruct (GeneralConfig.OpacityAlpha config <? 1)%float; cbn [mbind outcome_bind]; [|eauto].
  destruct (applyOpacity_pixels watermarkImg (GeneralConfig.OpacityAlpha config) Hr Hsrc)
    as (res & -> & _). cbn [mbind outcome_bind]. eauto.
Qed.

Lemma ApplySingle_unfold inputImg watermarkImg config g :
  SingleConfig.validate config = None ->
  ApplySingle inputImg watermarkImg config g
  = wm ← opacityThenRotation watermarkImg (SingleConfig.General config);
    '(canvas, g) ← placeSingle wm inputImg config g;
    Ret (inr canvas, g).
Proof.
  intros Hv. unfold ApplySingle. rewrite Hv. unfold opacityThenRotation.
  rewrite outcome_bind_assoc. apply outcome_bind_ext. intros w.
  rewrite outcome_bind_Ret. unfold placeSingle. cbv zeta.
  rewrite outcome_bind_assoc. apply outcome_bind_ext. intros [pos g1].
  rewrite outcome_bind_assoc. apply outcome_bind_ext. intros c0.
  rewrite outcome_bind_assoc. apply outcome_bind_ext. intros c1. reflexivity.
Qed.

Lemma singleWorker_unfold inputImgs wm config results g index :
  singleWorker inputImgs wm config (results, g) index
  = match inputImgs !! index with
    | None => Panic "runtime error: index out of range"
    | Some img =>
        '(canvas, g) ← placeSingle wm img config g;
        Ret (<[index := Some canvas]> results, g)
    end.
Proof.
  unfold singleWorker. destruct (inputImgs !! index) as [img|]; [|reflexivity].
  unfold placeSingle. cbv zeta.
  rewrite outcome_bind_assoc. apply outcome_bind_ext. intros [pos g1].
  rewrite outcome_bind_assoc. apply outcome_bind_ext. intros c0.
  rewrite outcome_bind_assoc. apply outcome_bind_ext. intros c1. reflexivity.
Qed.

Lemma BatchApplySingle_unfold numCPU schedule inputImgs watermarkImg config g :
  SingleConfig.validate config = None ->
  BatchApplySingle numCPU schedule inputImgs watermarkImg config g
  = wm ← opacityThenRotation watermarkImg (SingleConfig.General config);
    '(results, g) ← forM (singleWorker inputImgs wm config) schedule
                         (replicate (length inputImgs) None, g);
    Ret (inr results, g).
Proof.
  intros Hv. unfold BatchApplySingle. rewrite Hv. unfold opacityThenRotation.
  rewrite outcome_bind_assoc. apply outcome_bind_ext. intros w. reflexivity.
Qed.

(** With alignments that are not Random, the placement does not depend on
    the generator and leaves it as it was. *)
Lemma placeSingle_fixed wm img config :
  SingleConfig.HorizontalAlign config <> HorizontalRandom ->
  SingleConfig.VerticalAlign config <> VerticalRandom ->
  exists o : outcome image.RGBA.t,
    forall g, placeSingle wm img config g = (canvas ← o; Ret (canvas, g)).
Proof.
  intros Hh Hv. unfold placeSingle.
  destruct (getWatermarkPosition_deterministic
              (resizeWatermark wm img (SingleConfig.General config)) img
              (SingleConfig.VerticalAlign config) (SingleConfig.HorizontalAlign config)
              (SingleConfig.Spacing config) Hh Hv) as [p Hp].
  exists (canvas ← generateBaseCanvas img;
          drawWatermarkAtPosition canvas
            (resizeWatermark wm img (SingleConfig.General config)) p).
  intros g. cbv zeta. rewrite Hp, outcome_bind_Ret, outcome_bind_assoc. reflexivity.
Qed.

(** The workers of a schedule fill the slots they are given. *)
Lemma forM_singleWorker inputImgs wm config (outs : list image.RGBA.t) :
  (forall i img, inputImgs !! i = Some img ->
     exists out, outs !! i = Some out /\
       forall g, placeSingle wm img config g = Ret (out, g)) ->
  forall schedule results g,
    (forall i, i ∈ schedule -> (i < length inputImgs)%nat) ->
    forM (singleWorker inputImgs wm config) schedule (results, g)
    = Ret (fill (fun i => outs !! i) results schedule, g).
Proof.
  intros Houts. induction schedule as [|j s IH]; intros results g Hs; [done|].
  cbn [forM]. rewrite singleWorker_unfold.
  destruct (lookup_lt_is_Some_2 inputImgs j) as [img Himg]; [apply Hs; left|].
  rewrite Himg. destruct (Houts j img Himg) as (out & Hout & E).
  rewrite E. cbn [mbind outcome_bind]. rewrite <- Hout. apply IH.
  intros i Hi. apply Hs. by right.
Qed.

(** C9: a valid configuration whose alignments are not Random, a watermark
    that can be read, images on each of which the single call returns, and
    any order in which the goroutines take effect: the batch returns one
    result per image, in the order of the input, each the image the single
    call returns on that input; the generator is left as it was. *)
Theorem BatchApplySingle_matches_single (numCPU : Z) (schedule : list nat)
    (inputImgs : list image.Image.t) (watermarkImg : image.Image.t)
    (config : SingleConfig.t) (g : rand.state) :
  SingleConfig.validate config = None ->
  SingleConfig.HorizontalAlign config <> HorizontalRandom ->
  SingleConfig.VerticalAlign config <> VerticalRandom ->
  wf_rect (image.Image.Bounds watermarkImg) -> readable watermarkImg ->
  schedule ≡ₚ seq 0 (length inputImgs) ->
  (forall img, img ∈ inputImgs ->
     exists out g', ApplySingle img watermarkImg config g = Ret (inr out, g')) ->
  exists outs,
    BatchApplySingle numCPU schedule inputImgs watermarkImg config g
    = Ret (inr (Some <$> outs), g)
    /\ length outs = length inputImgs
    /\ forall i img, inputImgs !! i = Some img ->
         exists out, outs !! i = Some out /\
           ApplySingle img watermarkImg config g = Ret (inr out, g).
Proof.
  intros Hv Hh Hva Hr Hsrc Hperm Hsingle.
  destruct (opacityThenRotation_returns watermarkImg (SingleConfig.General config) Hr Hsrc)
    as [wm Hwm].
  assert (Htask : forall img, img ∈ inputImgs -> exists out,
            forall g0, placeSingle wm img config g0 = Ret (out, g0)).
  { intros img Himg. destruct (Hsingle img Himg) as (out & g' & E).
    rewrite ApplySingle_unfold, Hwm in E by done. cbn [mbind outcome_bind] in E.
    destruct (placeSingle_fixed wm img config Hh Hva) as [o Ho].
    rewrite Ho in E. exists out. intros g0. rewrite Ho.
    destruct o as [c| |]; cbn [mbind outcome_bind] in E |- *; try discriminate.
    by inversion E. }
  destruct (Forall2_choice
              (fun img out => forall g0, placeSingle wm img config g0 = Ret (out, g0))
              inputImgs Htask) as [outs Houts].
  assert (Hlen : length outs = length inputImgs) by (symmetry; by eapply Forall2_length).
  assert (Hlookup : forall i img, inputImgs !! i = Some img ->
            exists out, outs !! i = Some out /\
              forall g0, placeSingle wm img config g0 = Ret (out, g0)).
  { intros i img Himg. destruct (Forall2_lookup_l _ _ _ _ _ Houts Himg) as (out & Hout & E).
    eauto. }
  assert (Hin : forall i, i ∈ schedule <-> (i < length inputImgs)%nat).
  { intros i. rewrite Hperm, elem_of_seq. lia. }
  exists outs. split; [|split; [exact Hlen|]].
  - rewrite BatchApplySingle_unfold, Hwm by done. cbn [mbind outcome_bind].
    rewrite (forM_singleWorker inputImgs wm config outs Hlookup) by (intros i; apply Hin).
    cbn [mbind outcome_bind]. do 3 f_equal. apply list_eq. intros i.
    destruct (decide (i < length inputImgs)%nat) as [Hlt|Hge].
    + rewrite fill_lookup_in; [|by rewrite length_replicate|by apply Hin].
      rewrite list_lookup_fmap.
      destruct (lookup_lt_is_Some_2 outs i ltac:(lia)) as [out ->]. reflexivity.
    + rewrite lookup_ge_None_2 by (rewrite fill_length, length_replicate; lia).
      rewrite lookup_ge_None_2 by (rewrite length_fmap; lia). reflexivity.
  - intros i img Himg. destruct (Hlookup i img Himg) as (out & Hout & E).
    exists out. split; [exact Hout|].
    rewrite ApplySingle_unfold, Hwm by done. cbn [mbind outcome_bind].
    rewrite E. reflexivity.
Qed.

End Batch.

(** ** The order of the watermark's transformations *)

(** C1 (as the code has it): under a valid configuration the watermark handed
    to the position and drawing steps is the original one with opacity applied
    first (when the factor is below 1), then rotation (when the angle is not
    0), then the resize to [int(float64(baseWidth) * (percent / 100))] columns
    with the configured filter (CatmullRom when its support is not positive);
    [ApplySingle] is that preparation followed by position, copy and draw. *)
Theorem ApplySingle_pipeline `{lib : imaging.Lib} `{rnd : rand.Source}
    (inputImg watermarkImg : image.Image.t) (config : SingleConfig.t) (g : rand.state) :
  SingleConfig.validate config = None ->
  let general := SingleConfig.General config in
  preparedWM inputImg watermarkImg general
  = (wm ← (if (GeneralConfig.OpacityAlpha general <? 1)%float
           then o ← applyOpacity watermarkImg (GeneralConfig.OpacityAlpha general);
                Ret (image.NRGBA.Image o)
           else Ret watermarkImg);
     let wm := if (GeneralConfig.RotationDegrees general =? 0)%float then wm
               else image.NRGBA.Image
                      (imaging.Rotate wm (GeneralConfig.RotationDegrees general) image_Transparent) in
     Ret (image.NRGBA.Image
            (imaging.Resize wm
               (getNewWatermarkWidth inputImg (GeneralConfig.WatermarkWidthPercent general)) 0
               (if (imaging.Support (GeneralConfig.ResampleFilter general) <=? 0)%float
                then imaging.CatmullRom else GeneralConfig.ResampleFilter general))))
  /\ ApplySingle inputImg watermarkImg config g
     = (prepared ← preparedWM inputImg watermarkImg general;
        '(pos, g) ← getWatermarkPosition prepared inputImg (SingleConfig.VerticalAlign config)
                      (SingleConfig.HorizontalAlign config) (SingleConfig.Spacing config) g;
        canvas ← generateBaseCanvas inputImg;
        canvas ← drawWatermarkAtPosition canvas prepared pos;
        Ret (inr canvas, g)).
Proof.
  intros Hv general. split.
  - unfold preparedWM, resizeWatermark, rotateImage. fold general.
    apply outcome_bind_ext. intros wm.
    destruct (GeneralConfig.RotationDegrees general =? 0)%float; reflexivity.
  - unfold ApplySingle, preparedWM. rewrite Hv. fold general.
    rewrite outcome_bind_assoc. apply outcome_bind_ext. intros wm. reflexivity.
Qed.

Lemma ApplySingle_pipeline_witness :
  let config := sample.single 0.5 50 90 VerticalBottom HorizontalRight 1 in
  let inputImg := standin.uniform 8 8 sample.red in
  let watermarkImg := standin.uniform 4 2 sample.blue in
  SingleConfig.validate config = None /\
  exists out, @ApplySingle standin.lib standin.rnd inputImg watermarkImg config 7 = Ret (inr out, 7).
Proof.
  split; [reflexivity|].
  destruct (@ApplySingle_pipeline standin.lib standin.rnd
              (standin.uniform 8 8 sample.red) (standin.uniform 4 2 sample.blue)
              (sample.single 0.5 50 90 VerticalBottom HorizontalRight 1) 7 eq_refl) as [_ E].
  rewrite E. vm_compute. eexists. reflexivity.
Defined.

(** C1 (as the specification has it) fails: with a quarter turn the code
    rotates the 4 x 2 watermark before it sets its width to the base's 8
    columns, where resize-then-rotate gives other bounds. *)
Lemma preparedWM_not_resize_first :
  let config := sample.general 1 100 90 in
  let inputImg := standin.uniform 8 8 sample.red in
  let watermarkImg := standin.uniform 4 2 sample.blue in
  GeneralConfig.validate config = None /\
  @preparedWM standin.lib inputImg watermarkImg config
  <> @specPrepared standin.lib inputImg watermarkImg config.
Proof.
  split; [reflexivity|].
  intros E. apply (f_equal sample.bounds) in E. vm_compute in E. discriminate.
Qed.

(** ** Opacity *)

Lemma NRGBA_channel8 (c a : Z) :
  is_byte c -> is_byte a ->
  uint8 (Z.shiftr (color.NRGBA.channel c a) 8) = premultiplied8 c a.
Proof.
  intros Hc Ha. apply Z.eqb_eq.
  apply (forall_bytes2
           (fun c a => uint8 (Z.shiftr (color.NRGBA.channel c a) 8) =? premultiplied8 c a));
    [vm_compute; reflexivity|assumption..].
Qed.

Lemma premultiplied8_opaque (c : Z) : is_byte c -> premultiplied8 c 255 = c.
Proof.
  intros Hc. apply Z.eqb_eq. revert Hc.
  apply (forall_bytes (fun c => premultiplied8 c 255 =? c)). vm_compute. reflexivity.
Qed.

Lemma premultiplied8_le (c a : Z) : is_byte c -> is_byte a -> 0 <= premultiplied8 c a <= c.
Proof.
  intros Hc Ha.
  assert (H : ((0 <=? premultiplied8 c a) && (premultiplied8 c a <=? c))%bool = true).
  { apply (forall_bytes2 (fun c a => (0 <=? premultiplied8 c a) && (premultiplied8 c a <=? c)));
      [vm_compute; reflexivity|assumption..]. }
  apply andb_true_iff in H as [H1 H2]. apply Z.leb_le in H1, H2. lia.
Qed.

(** The pixel [applyOpacity] stores for a pixel of an [*image.NRGBA]. *)
Lemma opacityPixel_NRGBA (px : color.NRGBA.t) (opacityAlpha : float) :
  NRGBA_bytes px ->
  opacityPixel (color.NRGBA.RGBA px) opacityAlpha
  = color.NRGBA.mk (premultiplied8 (color.NRGBA.R px) (color.NRGBA.A px))
                   (premultiplied8 (color.NRGBA.G px) (color.NRGBA.A px))
                   (premultiplied8 (color.NRGBA.B px) (color.NRGBA.A px))
                   (uint8_of_float64 (float64_of_int (color.NRGBA.A px) * opacityAlpha)).
Proof.
  intros (HR & HG & HB & HA). unfold opacityPixel.
  rewrite (NRGBA_alpha8 px HA).
  cbn [color.NRGBA.RGBA color.r16 color.g16 color.b16].
  rewrite !NRGBA_channel8 by assumption. reflexivity.
Qed.

Lemma NRGBAAt_bytes (p : image.NRGBA.t) (x y : Z) (px : color.NRGBA.t) :
  Forall NRGBA_bytes (image.Pix p) ->
  image.Point_In (image.Point.mk x y) (image.Rect p) = true ->
  image.NRGBA.NRGBAAt p x y = Ret px -> NRGBA_bytes px.
Proof.
  intros Hall Hin. unfold image.NRGBA.NRGBAAt, image.colorAt, image.index. rewrite Hin. simpl.
  destruct (_ <? 0); [discriminate|].
  destruct (image.Pix p !! _) as [c|] eqn:E; [|discriminate].
  intros [= <-]. by apply (Forall_lookup_1 _ _ _ _ Hall E).
Qed.

Lemma premultiplied8_darker (c a : Z) :
  is_byte c -> is_byte a -> a < 255 -> 0 < c -> premultiplied8 c a < c.
Proof.
  intros Hc Ha Hlt Hpos.
  assert (H : ((a =? 255) || (c =? 0) || (premultiplied8 c a <? c))%bool = true).
  { apply (forall_bytes2 (fun c a => (a =? 255) || (c =? 0) || (premultiplied8 c a <? c))%bool);
      [vm_compute; reflexivity|assumption..]. }
  destruct (Z.eqb_spec a 255); [lia|]. destruct (Z.eqb_spec c 0); [lia|].
  cbn [orb] in H. by apply Z.ltb_lt in H.
Qed.

(** C2: what [applyOpacity] does on an [*image.NRGBA] for a factor in (0, 1),
    against its documentation (only the alpha channel is multiplied).  The
    result has the image's bounds; the alpha of each pixel is the integer part
    of the float64 product [old_alpha * opacity], between 0 and the old alpha;
    but each colour channel is stored premultiplied by the old alpha: it is
    the old one only where the pixel was opaque, and it is lower on every
    pixel that was not, wherever the channel is not zero. *)
Theorem applyOpacity_scales_alpha (p : image.NRGBA.t) (opacityAlpha : float) :
  wf_buffer p -> Forall NRGBA_bytes (image.Pix p) ->
  (0 <? opacityAlpha)%float = true -> (opacityAlpha <? 1)%float = true ->
  exists res,
    applyOpacity (image.NRGBA.Image p) opacityAlpha = Ret res /\
    image.Rect res = image.Rect p /\
    forall x y, image.Point_In (image.Point.mk x y) (image.Rect p) = true ->
      exists px px',
        image.NRGBA.NRGBAAt p x y = Ret px /\
        image.NRGBA.NRGBAAt res x y = Ret px' /\
        float64_trunc (float64_of_int (color.NRGBA.A px) * opacityAlpha)
        = Some (color.NRGBA.A px') /\
        0 <= color.NRGBA.A px' <= color.NRGBA.A px /\
        color.NRGBA.R px' = premultiplied8 (color.NRGBA.R px) (color.NRGBA.A px) /\
        color.NRGBA.G px' = premultiplied8 (color.NRGBA.G px) (color.NRGBA.A px) /\
        color.NRGBA.B px' = premultiplied8 (color.NRGBA.B px) (color.NRGBA.A px) /\
        (color.NRGBA.A px = 255 ->
         color.NRGBA.R px' = color.NRGBA.R px /\ color.NRGBA.G px' = color.NRGBA.G px /\
         color.NRGBA.B px' = color.NRGBA.B px) /\
        (color.NRGBA.A px < 255 ->
         (0 < color.NRGBA.R px -> color.NRGBA.R px' < color.NRGBA.R px) /\
         (0 < color.NRGBA.G px -> color.NRGBA.G px' < color.NRGBA.G px) /\
         (0 < color.NRGBA.B px -> color.NRGBA.B px' < color.NRGBA.B px)).
Proof.
  intros Hwf Hall H0 H1.
  destruct (applyOpacity_pixels (image.NRGBA.Image p) opacityAlpha)
    as (res & E & _ & HR & Hpix); [apply Hwf|by apply NRGBA_readable|].
  exists res. split; [exact E|]. split; [exact HR|].
  intros x y Hin. destruct (Hpix x y Hin) as (c & Hc & Hres).
  cbn [image.NRGBA.Image image.Image.At] in Hc.
  destruct (image.NRGBA.NRGBAAt p x y) as [px| |] eqn:Epx; try discriminate.
  cbn [mbind outcome_bind] in Hc. injection Hc as <-.
  pose proof (NRGBAAt_bytes p x y px Hall Hin Epx) as Hb.
  rewrite (opacityPixel_NRGBA px opacityAlpha Hb) in Hres.
  destruct Hb as (HbR & HbG & HbB & HbA).
  destruct (opacity_alpha_uint8 (color.NRGBA.A px) opacityAlpha HbA H0 H1) as [Et Hrange].
  eexists px, _. split; [reflexivity|]. split; [exact Hres|].
  cbn [color.NRGBA.R color.NRGBA.G color.NRGBA.B color.NRGBA.A].
  split; [exact Et|]. split; [exact Hrange|]. do 3 (split; [reflexivity|]).
  split.
  - intros ->. by rewrite !premultiplied8_opaque.
  - intros Hlt. repeat split; intros Hpos; by apply premultiplied8_darker.
Qed.

Lemma applyOpacity_scales_alpha_witness :
  let p := standin.tabulate 2 1 (fun x _ => if x =? 0 then sample.amber else sample.smoke) in
  exists res px',
    applyOpacity (image.NRGBA.Image p) 0.5 = Ret res /\
    image.Rect res = image.Rect p /\
    image.NRGBA.NRGBAAt res 1 0 = Ret px' /\
    color.NRGBA.R px' < 200.
Proof.
  cbv zeta.
  destruct (applyOpacity_scales_alpha
              (standin.tabulate 2 1 (fun x _ => if x =? 0 then sample.amber else sample.smoke))
              0.5) as (res & E & HR & Hpix).
  - apply tabulate_wf; unfold MaxInt; lia.
  - repeat constructor; vm_compute; discriminate.
  - reflexivity.
  - reflexivity.
  - destruct (Hpix 1 0 eq_refl) as (px & px' & Hpx & Hpx' & _ & _ & _ & _ & _ & _ & Hdark).
    vm_compute in Hpx. injection Hpx as <-.
    exists res, px'. split; [exact E|]. split; [exact HR|]. split; [exact Hpx'|].
    apply Hdark; reflexivity.
Defined.

(** C2 on a two-pixel image at opacity 0.5: the colours (200, 100, 50) of the
    pixel of alpha 128 become (100, 50, 25), where multiplying the alpha
    channel alone keeps them; and the opaque pixel of alpha 255 gets alpha
    127, the integer part of 127.5, where rounding gives 128. *)
Lemma applyOpacity_not_rounded :
  let p := standin.tabulate 2 1 (fun x _ => if x =? 0 then sample.amber else sample.smoke) in
  exists res,
    applyOpacity (image.NRGBA.Image p) 0.5 = Ret res /\
    image.NRGBA.NRGBAAt res 0 0 = Ret (color.NRGBA.mk 200 100 50 127) /\
    specOpacityPixel sample.amber 0.5 = color.NRGBA.mk 200 100 50 128 /\
    image.NRGBA.NRGBAAt res 1 0 = Ret (color.NRGBA.mk 100 50 25 64) /\
    specOpacityPixel sample.smoke 0.5 = color.NRGBA.mk 200 100 50 64.
Proof.
  cbv zeta. eexists. split; [vm_compute; reflexivity|].
  repeat split; vm_compute; reflexivity.
Qed.

(** ** Instances on concrete inputs *)

Lemma getWatermarkPosition_aligned_witness :
  exists p g',
    @getWatermarkPosition standin.rnd (blank 30 20) (blank 100 80)
      VerticalRandom HorizontalMiddle 5 7 = Ret (p, g')
    /\ image.Point.X p = 35.
Proof.
  destruct (@getWatermarkPosition_aligned standin.rnd (blank 30 20) (blank 100 80)
              VerticalRandom HorizontalMiddle 5 7) as (p & g' & E & HX & _);
    try (vm_compute; discriminate).
  - unfold MaxInt. lia.
  - intros _. vm_compute. reflexivity.
  - exists p, g'. split; [exact E|]. apply HX. discriminate.
Defined.

Lemma getWatermarkPosition_random_witness :
  exists p g',
    @getWatermarkPosition standin.rnd (blank 30 20) (blank 100 80)
      VerticalRandom HorizontalRandom 5 7 = Ret (p, g')
    /\ 5 <= image.Point.X p <= 65 /\ 5 <= image.Point.Y p <= 55.
Proof.
  destruct (@getWatermarkPosition_random standin.rnd standin_rnd_in_range
              (blank 30 20) (blank 100 80) VerticalRandom HorizontalRandom 5 7)
    as (p & g' & E & HX & HY & _).
  - vm_compute. discriminate.
  - vm_compute. discriminate.
  - vm_compute. discriminate.
  - vm_compute. discriminate.
  - unfold MaxInt. lia.
  - intros _. vm_compute. split; [discriminate|reflexivity].
  - intros _. vm_compute. split; [discriminate|reflexivity].
  - exists p, g'. split; [exact E|].
    destruct (HX eq_refl) as [HX' _]. destruct (HY eq_refl) as [HY' _].
    change (5 <= image.Point.X p <= 65) in HX'.
    change (5 <= image.Point.Y p <= 55) in HY'. split; assumption.
Defined.

Lemma generateGridPositions_negative_steps_witness :
  generateGridPositions 1000 (blank 100 100) (blank 10 10) (sample.grid (-20) (-20) 0 0)
  = OutOfFuel.
Proof. apply (generateGridPositions_negative_steps 1000). lia. Defined.

Lemma generateGridPositions_tiling_witness :
  generateGridPositions 10 (blank 100 70) (blank 30 30) (sample.grid 0 0 0 0)
  = Ret (rowMajor 4 3 30 30).
Proof.
  apply (generateGridPositions_tiling 10 (blank 100 70) (blank 30 30) (sample.grid 0 0 0 0));
    vm_compute; (reflexivity || discriminate).
Defined.

Lemma BatchApplySingle_matches_single_witness :
  let inputImgs := [standin.uniform 8 6 sample.red; standin.uniform 6 8 sample.amber] in
  let watermarkImg := standin.uniform 4 2 sample.blue in
  let config := sample.single 0.5 50 90 VerticalBottom HorizontalRight 1 in
  exists outs,
    @BatchApplySingle standin.lib standin.rnd 4 [1%nat; 0%nat] inputImgs watermarkImg config 7
    = Ret (inr (Some <$> outs), 7)
    /\ length outs = 2%nat.
Proof.
  cbv zeta.
  destruct (@BatchApplySingle_matches_single standin.lib standin.rnd 4 [1%nat; 0%nat]
              [standin.uniform 8 6 sample.red; standin.uniform 6 8 sample.amber]
              (standin.uniform 4 2 sample.blue)
              (sample.single 0.5 50 90 VerticalBottom HorizontalRight 1) 7)
    as (outs & E & Hlen & _).
  - reflexivity.
  - vm_compute. discriminate.
  - vm_compute. discriminate.
  - apply (tabulate_wf 4 2); unfold MaxInt; lia.
  - apply uniform_readable; unfold MaxInt; lia.
  - simpl. apply perm_swap.
  - intros img Himg.
    apply elem_of_cons in Himg as [->|Himg];
      [|apply elem_of_cons in Himg as [->|Himg]; [|by apply elem_of_nil in Himg]];
      eexists _, _; vm_compute; reflexivity.
  - exists outs. split; [exact E|exact Hlen].
Defined.

(** ** Grid placement: every sign of the steps *)

Lemma lt_ceilDiv (i a b : Z) : 0 < a -> 0 < b -> (i < ceilDiv a b <-> i * b < a).
Proof.
  intros Ha Hb. destruct (ceilDiv_bounds a b ltac:(lia) Hb) as (H0 & H1 & H2).
  destruct (Z.eqb_spec a 0); [lia|]. simpl in H2. split; intros H; nia.
Qed.

Lemma ceilDiv_le (a b : Z) : 0 < a -> 0 < b -> ceilDiv a b <= a.
Proof.
  intros Ha Hb. destruct (Z.le_gt_cases (ceilDiv a b) a) as [|Hgt]; [done|].
  apply lt_ceilDiv in Hgt; [nia|lia..].
Qed.

Lemma lattice_no_columns (x0 y0 countY stepX stepY : Z) :
  lattice x0 y0 0 countY stepX stepY = [].
Proof.
  unfold lattice. rewrite (seqZ_nil 0 0) by lia.
  induction (seqZ 0 countY); [done|]. by rewrite bind_cons, fmap_nil.
Qed.

(** X2: with positive steps, offsets inside the image and a capacity that
    [make] grants (at most [maxAlloc] bytes of 16-byte points), the positions
    are the lattice from the offset; their number is the capacity the
    function computed ([countX * countY]); and a point is produced exactly
    when it is a lattice point left of and above the image's far edges. *)
Theorem generateGridPositions_lattice (fuel : nat) (inputImg watermarkImg : image.Image.t)
    (config : GridConfig.t) :
  let W := image.Rectangle.Dx (image.Image.Bounds inputImg) in
  let H := image.Rectangle.Dy (image.Image.Bounds inputImg) in
  let stepX := image.Rectangle.Dx (image.Image.Bounds watermarkImg)
               + GridConfig.GridSpacingX config in
  let stepY := image.Rectangle.Dy (image.Image.Bounds watermarkImg)
               + GridConfig.GridSpacingY config in
  let ox := GridConfig.OffsetX config in
  let oy := GridConfig.OffsetY config in
  let countX := ceilDiv (W - ox) stepX in
  let countY := ceilDiv (H - oy) stepY in
  0 <= W -> 0 <= H ->
  0 < stepX -> 0 < stepY -> MinInt <= ox < W -> MinInt <= oy < H ->
  W + stepX <= MaxInt -> H + stepY <= MaxInt ->
  W - ox + stepX <= MaxInt -> H - oy + stepY <= MaxInt ->
  16 * (countX * countY) <= maxAlloc ->
  countX + countY < Z.of_nat fuel ->
  exists positions,
    generateGridPositions fuel inputImg watermarkImg config = Ret positions
    /\ positions = lattice ox oy countX countY stepX stepY
    /\ Z.of_nat (length positions) = countX * countY
    /\ forall p, p ∈ positions <->
         exists i j, 0 <= i /\ 0 <= j /\
           p = image.Point.mk (ox + i * stepX) (oy + j * stepY) /\
           image.Point.X p < W /\ image.Point.Y p < H.
Proof.
  intros W H stepX stepY ox oy countX countY HW HH HsX HsY Hox Hoy HfX HfY HcX HcY Htot Hfuel.
  destruct (generateGridPositions_positive fuel inputImg watermarkImg config
              HW HH HsX HsY Hox Hoy HfX HfY HcX HcY Htot Hfuel) as (HpX & HpY & E).
  fold W H stepX stepY ox oy countX countY in HpX, HpY, E.
  exists (lattice ox oy countX countY stepX stepY).
  split; [exact E|]. split; [reflexivity|]. split; [apply lattice_length; lia|].
  intros p. rewrite elem_of_lattice. split.
  - intros (i & j & [Hi0 Hi] & [Hj0 Hj] & ->). exists i, j. simpl.
    apply (lt_ceilDiv i (W - ox) stepX) in Hi; [|lia..].
    apply (lt_ceilDiv j (H - oy) stepY) in Hj; [|lia..].
    repeat split; lia.
  - intros (i & j & Hi & Hj & -> & HX & HY). simpl in HX, HY. exists i, j.
    split; [split; [lia|apply lt_ceilDiv; lia]|].
    split; [split; [lia|apply lt_ceilDiv; lia]|reflexivity].
Qed.

Lemma generateGridPositions_lattice_witness :
  exists positions,
    generateGridPositions 10 (blank 100 70) (blank 30 25) (sample.grid 10 5 (-20) 15)
    = Ret positions
    /\ Z.of_nat (length positions) = 6.
Proof.
  destruct (generateGridPositions_lattice 10 (blank 100 70) (blank 30 25)
              (sample.grid 10 5 (-20) 15)) as (positions & E & _ & Hlen & _);
    try (vm_compute; first [reflexivity | discriminate | split; first [reflexivity | discriminate]]).
  exists positions. split; [exact E|exact Hlen].
Defined.

(** X3: a step of zero makes the function panic on the division that counts
    the columns or the rows, whenever the offsets are inside the image. *)
Theorem generateGridPositions_zero_step (fuel : nat) (inputImg watermarkImg : image.Image.t)
    (config : GridConfig.t) :
  GridConfig.OffsetX config < image.Rectangle.Dx (image.Image.Bounds inputImg) ->
  GridConfig.OffsetY config < image.Rectangle.Dy (image.Image.Bounds inputImg) ->
  int_add (image.Rectangle.Dx (image.Image.Bounds watermarkImg)) (GridConfig.GridSpacingX config) = 0
  \/ int_add (image.Rectangle.Dy (image.Image.Bounds watermarkImg)) (GridConfig.GridSpacingY config) = 0 ->
  generateGridPositions fuel inputImg watermarkImg config
  = Panic "runtime error: integer divide by zero".
Proof.
  intros Hox Hoy Hzero. unfold generateGridPositions.
  destruct (Z.leb_spec (image.Rectangle.Dx (image.Image.Bounds inputImg))
              (GridConfig.OffsetX config)); [lia|].
  destruct (Z.leb_spec (image.Rectangle.Dy (image.Image.Bounds inputImg))
              (GridConfig.OffsetY config)); [lia|].
  cbn [orb]. unfold int_quot.
  destruct (Z.eqb_spec (int_add (image.Rectangle.Dx (image.Image.Bounds watermarkImg))
                          (GridConfig.GridSpacingX config)) 0) as [|Hx]; [reflexivity|].
  destruct Hzero as [?|Hy]; [contradiction|]. rewrite Hy. reflexivity.
Qed.

Lemma generateGridPositions_zero_step_witness :
  generateGridPositions 10 (blank 100 70) (blank 30 25) (sample.grid (-30) 5 0 0)
  = Panic "runtime error: integer divide by zero".
Proof.
  apply generateGridPositions_zero_step;
    vm_compute; first [reflexivity | left; reflexivity].
Defined.

(** The function on small quantities, without the wrap-around. *)
Lemma quot_count_bound (a s : Z) : s <> 0 -> Z.abs (Z.quot (a + s - 1) s) <= Z.abs a + 2.
Proof.
  intros Hs. rewrite <- Z.quot_abs by exact Hs.
  pose proof (Z.mul_quot_le (Z.abs (a + s - 1)) (Z.abs s) ltac:(lia) ltac:(lia)) as H.
  pose proof (Z.quot_pos (Z.abs (a + s - 1)) (Z.abs s) ltac:(lia) ltac:(lia)) as H0.
  remember (Z.abs (a + s - 1) ÷ Z.abs s) as q. nia.
Qed.

Lemma generateGridPositions_small (fuel : nat) (inputImg watermarkImg : image.Image.t)
    (config : GridConfig.t) :
  gridOf.bounded inputImg watermarkImg config ->
  let W := gridOf.inputW inputImg in
  let H := gridOf.inputH inputImg in
  let stepX := gridOf.stepX watermarkImg config in
  let stepY := gridOf.stepY watermarkImg config in
  let ox := GridConfig.OffsetX config in
  let oy := GridConfig.OffsetY config in
  generateGridPositions fuel inputImg watermarkImg config
  = if (W <=? ox) || (H <=? oy) then Ret []
    else if stepX =? 0 then Panic "runtime error: integer divide by zero"
    else if stepY =? 0 then Panic "runtime error: integer divide by zero"
    else if gridOf.countX inputImg watermarkImg config
            * gridOf.countY inputImg watermarkImg config <=? 0 then Ret []
    else _ ← makeslice 16 (gridOf.countX inputImg watermarkImg config
                           * gridOf.countY inputImg watermarkImg config);
         gridRows fuel W H stepX stepY ox oy [].
Proof.
  unfold gridOf.bounded, gridOf.countX, gridOf.countY, gridOf.stepX, gridOf.stepY,
    gridOf.inputW, gridOf.inputH, small, generateGridPositions.
  intros (HW & HH & Hw & Hh & Hsx & Hsy & Hox & Hoy). cbv zeta.
  set (W := image.Rectangle.Dx (image.Image.Bounds inputImg)) in *.
  set (H := image.Rectangle.Dy (image.Image.Bounds inputImg)) in *.
  set (w := image.Rectangle.Dx (image.Image.Bounds watermarkImg)) in *.
  set (h := image.Rectangle.Dy (image.Image.Bounds watermarkImg)) in *.
  set (sx := GridConfig.GridSpacingX config) in *.
  set (sy := GridConfig.GridSpacingY config) in *.
  set (ox := GridConfig.OffsetX config) in *.
  set (oy := GridConfig.OffsetY config) in *.
  clearbody W H w h sx sy ox oy.
  destruct ((W <=? ox) || (H <=? oy)); [reflexivity|].
  unfold int_add, int_sub, int_quot, int_mul.
  rewrite (wrap_id (w + sx)), (wrap_id (h + sy)) by int_range.
  rewrite (wrap_id (W - ox)), (wrap_id (H - oy)) by int_range.
  rewrite (wrap_id (W - ox + (w + sx))), (wrap_id (H - oy + (h + sy))) by int_range.
  rewrite (wrap_id (W - ox + (w + sx) - 1)), (wrap_id (H - oy + (h + sy) - 1)) by int_range.
  destruct (Z.eqb_spec (w + sx) 0) as [|HsX]; [reflexivity|]. cbn [mbind outcome_bind].
  destruct (Z.eqb_spec (h + sy) 0) as [|HsY]; [reflexivity|]. cbn [mbind outcome_bind].
  pose proof (quot_count_bound (W - ox) (w + sx) HsX) as Hqx.
  pose proof (quot_count_bound (H - oy) (h + sy) HsY) as Hqy.
  rewrite (wrap_id (Z.quot (W - ox + (w + sx) - 1) (w + sx))) by int_range.
  rewrite (wrap_id (Z.quot (H - oy + (h + sy) - 1) (h + sy))) by int_range.
  rewrite wrap_id; [reflexivity|].
  remember (Z.quot (W - ox + (w + sx) - 1) (w + sx)) as qx.
  remember (Z.quot (H - oy + (h + sy) - 1) (h + sy)) as qy.
  assert (Z.abs qx <= 2 ^ 31 + 2) by lia. assert (Z.abs qy <= 2 ^ 31 + 2) by lia.
  assert (Z.abs (qx * qy) <= (2 ^ 31 + 2) * (2 ^ 31 + 2))
    by (rewrite Z.abs_mul; apply Z.mul_le_mono_nonneg; lia).
  int_range.
Qed.

(** The count along an axis whose step is negative is not positive once the
    image has two pixels of room beyond the offset. *)
Lemma count_negative_step (a s : Z) : 2 <= a -> s < 0 -> Z.quot (a + s - 1) s <= 0.
Proof.
  intros Ha Hs. destruct (Z.le_gt_cases 0 (a + s - 1)) as [Hn|Hn].
  - replace s with (- (- s)) at 2 by lia. rewrite Z.quot_opp_r by lia.
    pose proof (Z.quot_pos (a + s - 1) (- s) Hn ltac:(lia)). lia.
  - replace (a + s - 1) with (- (- (a + s - 1))) by lia.
    replace s with (- (- s)) at 2 by lia.
    rewrite Z.quot_opp_opp by lia. rewrite Z.quot_small; lia.
Qed.

Lemma count_positive_step (a s : Z) : 0 < a -> 0 < s -> 0 < Z.quot (a + s - 1) s.
Proof.
  intros Ha Hs. rewrite quot_ceilDiv by lia. apply ceilDiv_pos; lia.
Qed.

(** X4: one negative step and one positive step give no position at all (the
    product of the counts is not positive), as soon as the image has two
    pixels of room beyond the offset on the axis of the negative step. *)
Theorem generateGridPositions_one_negative_step (fuel : nat)
    (inputImg watermarkImg : image.Image.t) (config : GridConfig.t) :
  gridOf.bounded inputImg watermarkImg config ->
  (gridOf.stepX watermarkImg config < 0 < gridOf.stepY watermarkImg config
   /\ 2 <= gridOf.inputW inputImg - GridConfig.OffsetX config)
  \/ (gridOf.stepY watermarkImg config < 0 < gridOf.stepX watermarkImg config
      /\ 2 <= gridOf.inputH inputImg - GridConfig.OffsetY config) ->
  generateGridPositions fuel inputImg watermarkImg config = Ret [].
Proof.
  intros Hb Hsteps. rewrite (generateGridPositions_small fuel _ _ _ Hb). cbv zeta.
  destruct (Z.leb_spec (gridOf.inputW inputImg) (GridConfig.OffsetX config)) as [|Hox];
    [reflexivity|].
  destruct (Z.leb_spec (gridOf.inputH inputImg) (GridConfig.OffsetY config)) as [|Hoy];
    [reflexivity|].
  cbn [orb].
  destruct (Z.eqb_spec (gridOf.stepX watermarkImg config) 0); [lia|].
  destruct (Z.eqb_spec (gridOf.stepY watermarkImg config) 0); [lia|].
  unfold gridOf.countX, gridOf.countY.
  destruct (Z.leb_spec (Z.quot (gridOf.inputW inputImg - GridConfig.OffsetX config
                                + gridOf.stepX watermarkImg config - 1)
                               (gridOf.stepX watermarkImg config)
                        * Z.quot (gridOf.inputH inputImg - GridConfig.OffsetY config
                                  + gridOf.stepY watermarkImg config - 1)
                                 (gridOf.stepY watermarkImg config)) 0) as [|Hpos];
    [reflexivity|exfalso].
  destruct Hsteps as [[Hs Hroom]|[Hs Hroom]].
  - pose proof (count_negative_step _ _ Hroom (proj1 Hs)).
    pose proof (count_positive_step (gridOf.inputH inputImg - GridConfig.OffsetY config)
                  (gridOf.stepY watermarkImg config) ltac:(lia) ltac:(lia)). nia.
  - pose proof (count_negative_step _ _ Hroom (proj1 Hs)).
    pose proof (count_positive_step (gridOf.inputW inputImg - GridConfig.OffsetX config)
                  (gridOf.stepX watermarkImg config) ltac:(lia) ltac:(lia)). nia.
Qed.

Lemma bounded_blank (W H w h sx sy ox oy : Z) :
  0 <= W <= 2 ^ 30 -> 0 <= H <= 2 ^ 30 -> 0 <= w <= 2 ^ 30 -> 0 <= h <= 2 ^ 30 ->
  small sx -> small sy -> small ox -> small oy ->
  gridOf.bounded (blank W H) (blank w h) (sample.grid sx sy ox oy).
Proof.
  intros. unfold gridOf.bounded, gridOf.inputW, gridOf.inputH, small, blank. simpl.
  unfold image.Rectangle.Dx, image.Rectangle.Dy, int_sub. simpl.
  rewrite !Z.sub_0_r, !wrap_id by int_range. unfold small in *. lia.
Qed.

Lemma generateGridPositions_one_negative_step_witness :
  generateGridPositions 10 (blank 100 70) (blank 30 25) (sample.grid (-40) 5 0 0) = Ret [].
Proof.
  apply generateGridPositions_one_negative_step.
  - apply bounded_blank; unfold small; lia.
  - left. vm_compute. repeat split; first [reflexivity | discriminate].
Defined.

Lemma gridRow_no_panic (fuel : nat) : forall (inputW stepX y x : Z) ps,
  gridRow fuel inputW stepX y x ps = OutOfFuel
  \/ exists ps', gridRow fuel inputW stepX y x ps = Ret ps'.
Proof.
  induction fuel as [|fuel IH]; intros inputW stepX y x ps; [by left|].
  simpl. destruct (x <? inputW); [apply IH|right; eauto].
Qed.

(** The outer loop with a step that is zero or negative does not return
    either, whatever the rows do. *)
Lemma gridRows_no_progress_rows (fuel : nat) :
  forall (inputW inputH stepX stepY offsetX y : Z) ps,
  stepY <= 0 -> y < inputH -> y <= MaxInt ->
  MinInt <= y + Z.of_nat fuel * stepY ->
  gridRows fuel inputW inputH stepX stepY offsetX y ps = OutOfFuel.
Proof.
  induction fuel as [|fuel IH]; intros inputW inputH stepX stepY offsetX y ps Hs Hy Hmax Hmin;
    [done|].
  simpl. destruct (Z.ltb_spec y inputH); [|lia].
  destruct (gridRow_no_panic fuel inputW stepX y offsetX ps) as [->|[ps' ->]]; [reflexivity|].
  cbn [mbind outcome_bind]. unfold int_add.
  rewrite wrap_id by (unfold is_int, MinInt, MaxInt in *; nia).
  apply IH; nia.
Qed.

(** X5: whenever the function reaches its loops with a negative step (the
    offsets inside the image, no step zero, a positive product of the counts
    that [make] grants), it has not returned after 2^31 iterations: the loop
    of that axis moves away from its bound, and would stop only once its
    counter wraps around the smallest [int]. *)
Theorem generateGridPositions_no_return (fuel : nat)
    (inputImg watermarkImg : image.Image.t) (config : GridConfig.t) :
  gridOf.bounded inputImg watermarkImg config ->
  GridConfig.OffsetX config < gridOf.inputW inputImg ->
  GridConfig.OffsetY config < gridOf.inputH inputImg ->
  gridOf.stepX watermarkImg config <> 0 -> gridOf.stepY watermarkImg config <> 0 ->
  0 < gridOf.countX inputImg watermarkImg config * gridOf.countY inputImg watermarkImg config ->
  gridOf.allocable inputImg watermarkImg config ->
  gridOf.stepX watermarkImg config < 0 \/ gridOf.stepY watermarkImg config < 0 ->
  Z.of_nat fuel <= 2 ^ 31 ->
  generateGridPositions fuel inputImg watermarkImg config = OutOfFuel.
Proof.
  intros Hb Hox Hoy HsX HsY Hcount Halloc Hneg Hfuel.
  specialize (Halloc Hox Hoy).
  rewrite (generateGridPositions_small fuel _ _ _ Hb). cbv zeta.
  destruct (Z.leb_spec (gridOf.inputW inputImg) (GridConfig.OffsetX config)); [lia|].
  destruct (Z.leb_spec (gridOf.inputH inputImg) (GridConfig.OffsetY config)); [lia|].
  cbn [orb].
  destruct (Z.eqb_spec (gridOf.stepX watermarkImg config) 0); [lia|].
  destruct (Z.eqb_spec (gridOf.stepY watermarkImg config) 0); [lia|].
  destruct (Z.leb_spec (gridOf.countX inputImg watermarkImg config
                        * gridOf.countY inputImg watermarkImg config) 0); [lia|].
  unfold makeslice.
  destruct (Z.ltb_spec (gridOf.countX inputImg watermarkImg config
                        * gridOf.countY inputImg watermarkImg config) 0); [lia|].
  destruct (Z.ltb_spec maxAlloc (16 * (gridOf.countX inputImg watermarkImg config
                                       * gridOf.countY inputImg watermarkImg config))); [lia|].
  cbn [orb mbind outcome_bind]. clear Halloc.
  destruct Hb as (HW & HH & Hw & Hh & Hsx & Hsy & Hbx & Hby).
  unfold gridOf.stepX, gridOf.stepY, small in *.
  destruct (Z.lt_ge_cases (image.Rectangle.Dx (image.Image.Bounds watermarkImg)
                           + GridConfig.GridSpacingX config) 0) as [HnX|HpX].
  - apply gridRows_no_progress; unfold MinInt, MaxInt; nia.
  - apply gridRows_no_progress_rows; unfold MinInt, MaxInt; nia.
Qed.

Lemma generateGridPositions_no_return_witness :
  generateGridPositions 1000 (blank 100 1) (blank 10 10) (sample.grid 5 (-30) 0 0) = OutOfFuel.
Proof.
  apply generateGridPositions_no_return.
  - apply bounded_blank; unfold small; lia.
  - vm_compute. reflexivity.
  - vm_compute. reflexivity.
  - vm_compute. discriminate.
  - vm_compute. discriminate.
  - vm_compute. reflexivity.
  - intros _ _. vm_compute. discriminate.
  - right. vm_compute. reflexivity.
  - lia.
Defined.

(** ** Grid placement: the revision without the check *)

Ltac grid_side :=
  rewrite ?Z2Nat.id by lia; unfold MinInt, MaxInt;
  first [ lia | nia | left; reflexivity | right; lia | right; nia ].

(** X6: with positive steps and a capacity that [make] grants, the earlier
    revision, which runs the loops right away, and the current one return the
    same positions, wherever the offsets are. *)
Theorem previous_generateGridPositions_agrees (fuel : nat)
    (inputImg watermarkImg : image.Image.t) (config : GridConfig.t) :
  gridOf.bounded inputImg watermarkImg config ->
  0 < gridOf.stepX watermarkImg config -> 0 < gridOf.stepY watermarkImg config ->
  gridOf.allocable inputImg watermarkImg config ->
  gridOf.inputW inputImg + gridOf.inputH inputImg
  + Z.abs (GridConfig.OffsetX config) + Z.abs (GridConfig.OffsetY config) < Z.of_nat fuel ->
  exists positions,
    generateGridPositions fuel inputImg watermarkImg config = Ret positions
    /\ previous.generateGridPositions fuel inputImg watermarkImg config = Ret positions.
Proof.
  intros Hb HsX HsY Halloc Hfuel.
  pose proof Hb as (HW & HH & Hw & Hh & Hsx & Hsy & Hbx & Hby).
  unfold gridOf.allocable, gridOf.countX, gridOf.countY in Halloc.
  unfold gridOf.stepX, gridOf.stepY, gridOf.inputW, gridOf.inputH, small in *.
  unfold previous.generateGridPositions.
  set (W := image.Rectangle.Dx (image.Image.Bounds inputImg)) in *.
  set (H := image.Rectangle.Dy (image.Image.Bounds inputImg)) in *.
  set (w := image.Rectangle.Dx (image.Image.Bounds watermarkImg)) in *.
  set (h := image.Rectangle.Dy (image.Image.Bounds watermarkImg)) in *.
  set (sx := GridConfig.GridSpacingX config) in *.
  set (sy := GridConfig.GridSpacingY config) in *.
  set (ox := GridConfig.OffsetX config) in *.
  set (oy := GridConfig.OffsetY config) in *.
  unfold int_add. rewrite (wrap_id (sx + w)), (wrap_id (sy + h)) by int_range.
  rewrite (Z.add_comm sx w), (Z.add_comm sy h).
  destruct (Z.le_gt_cases H oy) as [HoutY|HinY].
  { exists []. split.
    - unfold generateGridPositions. fold W H ox oy.
      destruct (Z.leb_spec H oy); [|lia]. by rewrite orb_true_r.
    - destruct fuel as [|fuel]; [lia|]. simpl. destruct (Z.ltb_spec oy H); [lia|reflexivity]. }
  pose proof (ceilDiv_bounds (H - oy) (h + sy) ltac:(lia) HsY) as (Hcy0 & Hcy1 & Hcy2).
  destruct (Z.eqb_spec (H - oy) 0); [lia|]. simpl in Hcy2.
  assert (Hcy' : ceilDiv (H - oy) (h + sy) <= H - oy) by (apply ceilDiv_le; lia).
  destruct (Z.le_gt_cases W ox) as [HoutX|HinX].
  { exists []. split.
    - unfold generateGridPositions. fold W H ox oy.
      destruct (Z.leb_spec W ox); [reflexivity|lia].
    - rewrite (gridRows_run (Z.to_nat (ceilDiv (H - oy) (h + sy))) fuel 0 W H (w + sx) (h + sy)
                 ox oy []) by grid_side.
      by rewrite lattice_no_columns. }
  pose proof (ceilDiv_bounds (W - ox) (w + sx) ltac:(lia) HsX) as (Hcx0 & Hcx1 & Hcx2).
  destruct (Z.eqb_spec (W - ox) 0); [lia|]. simpl in Hcx2.
  assert (Hcx : ceilDiv (W - ox) (w + sx) <= W - ox) by (apply ceilDiv_le; lia).
  assert (Hcy : ceilDiv (H - oy) (h + sy) <= H - oy) by (apply ceilDiv_le; lia).
  exists (lattice ox oy (ceilDiv (W - ox) (w + sx)) (ceilDiv (H - oy) (h + sy)) (w + sx) (h + sy)).
  split.
  - apply (generateGridPositions_positive fuel inputImg watermarkImg config);
      fold W H w h sx sy ox oy; unfold MinInt, MaxInt; try lia.
    rewrite <- (quot_ceilDiv (W - ox) (w + sx)), <- (quot_ceilDiv (H - oy) (h + sy)) by lia.
    apply Halloc; lia.
  - rewrite (gridRows_run (Z.to_nat (ceilDiv (H - oy) (h + sy))) fuel
               (Z.to_nat (ceilDiv (W - ox) (w + sx))) W H (w + sx) (h + sy) ox oy [])
      by grid_side.
    rewrite !Z2Nat.id by lia. reflexivity.
Qed.

(** X7: in the earlier revision a step of zero is an endless loop: with the
    offsets inside the image the function has not returned after any number
    of iterations. *)
Theorem previous_generateGridPositions_zero_step (fuel : nat)
    (inputImg watermarkImg : image.Image.t) (config : GridConfig.t) :
  is_int (GridConfig.OffsetX config) -> is_int (GridConfig.OffsetY config) ->
  GridConfig.OffsetX config < image.Rectangle.Dx (image.Image.Bounds inputImg) ->
  GridConfig.OffsetY config < image.Rectangle.Dy (image.Image.Bounds inputImg) ->
  int_add (GridConfig.GridSpacingX config) (image.Rectangle.Dx (image.Image.Bounds watermarkImg)) = 0
  \/ int_add (GridConfig.GridSpacingY config) (image.Rectangle.Dy (image.Image.Bounds watermarkImg)) = 0 ->
  previous.generateGridPositions fuel inputImg watermarkImg config = OutOfFuel.
Proof.
  intros HiX HiY Hox Hoy [Hz|Hz]; unfold previous.generateGridPositions; rewrite Hz.
  - apply gridRows_no_progress; unfold is_int in *; lia.
  - apply gridRows_no_progress_rows; unfold is_int in *; lia.
Qed.

Lemma previous_generateGridPositions_agrees_witness :
  exists positions,
    generateGridPositions 300 (blank 100 70) (blank 30 25) (sample.grid 10 5 (-20) 15)
    = Ret positions
    /\ previous.generateGridPositions 300 (blank 100 70) (blank 30 25) (sample.grid 10 5 (-20) 15)
       = Ret positions.
Proof.
  apply previous_generateGridPositions_agrees.
  - apply bounded_blank; unfold small; lia.
  - vm_compute. reflexivity.
  - vm_compute. reflexivity.
  - intros _ _. vm_compute. discriminate.
  - vm_compute. reflexivity.
Defined.

Lemma previous_generateGridPositions_zero_step_witness :
  previous.generateGridPositions 1000 (blank 100 70) (blank 30 25) (sample.grid (-30) 5 0 0)
  = OutOfFuel.
Proof.
  apply previous_generateGridPositions_zero_step;
    vm_compute;
    first [reflexivity | left; reflexivity | split; discriminate].
Defined.

(** ** What a draw writes *)

Lemma NoDup_points (x0 w y0 h : Z) : NoDup (points (seqZ x0 w) (seqZ y0 h)).
Proof.
  unfold points. apply NoDup_bind; [| |apply NoDup_seqZ].
  - intros y1 y2 [x y] _ _ H1 H2.
    apply list_elem_of_bind in H1 as (? & H1 & _), H2 as (? & H2 & _).
    apply list_elem_of_singleton in H1, H2. congruence.
  - intros y _. apply NoDup_bind; [| |apply NoDup_seqZ].
    + intros x1 x2 pt _ _ H1 H2. apply list_elem_of_singleton in H1, H2. congruence.
    + intros x _. apply NoDup_singleton.
Qed.

Section Update.
Context {C : Type} (zero : C).
Implicit Types p q : image.buffer C.

(** A loop over distinct points of the bounds, each step of which replaces
    the pixel [d] at its point by [f x y d]: it returns, keeps the layout,
    leaves the other pixels, and the visited ones hold [f] of their old
    value. *)
Lemma forM_setPix_update (body : image.buffer C -> Z * Z -> outcome (image.buffer C))
    (f : Z -> Z -> C -> C) (l : list (Z * Z)) :
  NoDup l -> forall p,
  wf_buffer p ->
  (forall pt, pt ∈ l -> image.Point_In (image.Point.mk pt.1 pt.2) (image.Rect p) = true) ->
  (forall q pt d, wf_buffer q -> image.Rect q = image.Rect p -> pt ∈ l ->
     image.colorAt zero q pt.1 pt.2 = Ret d ->
     body q pt = Ret (setPix q pt.1 pt.2 (f pt.1 pt.2 d))) ->
  exists p', forM body l p = Ret p' /\ wf_buffer p' /\ image.Rect p' = image.Rect p /\
    (forall x y, (x, y) ∉ l -> image.colorAt zero p' x y = image.colorAt zero p x y) /\
    (forall x y, (x, y) ∈ l -> exists d,
       image.colorAt zero p x y = Ret d /\ image.colorAt zero p' x y = Ret (f x y d)).
Proof.
  induction 1 as [|pt l Hnotin Hnodup IH]; intros p Hwf Hin Hbody.
  - exists p. simpl. split; [done|]. split; [done|]. split; [done|]. split; [done|].
    intros x y H. inversion H.
  - assert (Hpt : image.Point_In (image.Point.mk pt.1 pt.2) (image.Rect p) = true)
      by (apply Hin; left).
    destruct (colorAt_wf zero p pt.1 pt.2 Hwf) as [d Hd].
    pose proof (Hbody p pt d Hwf eq_refl (list_elem_of_here _ _) Hd) as E0.
    cbn [forM]. rewrite E0. cbn [mbind outcome_bind].
    destruct (IH (setPix p pt.1 pt.2 (f pt.1 pt.2 d))) as (p' & E & Hwf' & HR & Hfr & Hval).
    + by apply setPix_wf.
    + intros pt' Hpt'. simpl. apply Hin. by right.
    + intros q pt' d' Hq HRq Hpt' Hd'. apply Hbody; [done|done|by right|done].
    + exists p'. split; [exact E|]. split; [exact Hwf'|]. split; [exact HR|]. split.
      * intros x y Hnot. rewrite Hfr by (intros ?; apply Hnot; by right).
        rewrite colorAt_setPix by assumption.
        destruct (decide (x = pt.1 /\ y = pt.2)) as [[-> ->]|]; [|done].
        exfalso. apply Hnot. destruct pt; left.
      * intros x y Hxy. destruct (decide ((x, y) = pt)) as [<-|Hne].
        -- exists d. split; [exact Hd|]. rewrite Hfr by exact Hnotin.
           rewrite colorAt_setPix by assumption. simpl.
           destruct (decide (x = x /\ y = y)); [done|tauto].
        -- apply elem_of_cons in Hxy as [?|Hxy]; [done|].
           destruct (Hval x y Hxy) as (d' & Hd' & Hres).
           exists d'. split; [|exact Hres].
           rewrite colorAt_setPix in Hd' by assumption.
           destruct (decide (x = pt.1 /\ y = pt.2)) as [[-> ->]|]; [|done].
           exfalso. apply Hne. by destruct pt.
Qed.

End Update.

Lemma Empty_not_In (r : image.Rectangle.t) (x y : Z) :
  image.Rectangle.Empty r = true -> image.Point_In (image.Point.mk x y) r = false.
Proof.
  unfold image.Rectangle.Empty. intros H. apply orb_true_iff in H.
  destruct (image.Point_In _ r) eqn:E; [|done]. apply Point_In_spec in E.
  destruct H as [H|H]; apply Z.leb_le in H; lia.
Qed.

Lemma Intersect_In_iff x y a b :
  image.Point_In (image.Point.mk x y) (image.Rectangle.Intersect a b) = true <->
  image.Point_In (image.Point.mk x y) a = true /\ image.Point_In (image.Point.mk x y) b = true.
Proof.
  split; [apply Intersect_In|].
  rewrite !Point_In_spec. intros [Ha Hb]. unfold image.Rectangle.Intersect.
  match goal with |- context [image.Rectangle.Empty ?r] =>
    destruct (image.Rectangle.Empty r) eqn:E end.
  - exfalso. unfold image.Rectangle.Empty in E. simpl in E. apply orb_true_iff in E.
    revert E.
    repeat match goal with |- context [if ?a <? ?b then _ else _] =>
      destruct (Z.ltb_spec a b) end;
      intros [E|E]; apply Z.leb_le in E; lia.
  - simpl.
    repeat match goal with |- context [if ?a <? ?b then _ else _] =>
      destruct (Z.ltb_spec a b) end; lia.
Qed.

(** The corner of a non-empty intersection is right of and below both
    corners. *)
Lemma Intersect_Min x y a b :
  image.Point_In (image.Point.mk x y) (image.Rectangle.Intersect a b) = true ->
  let m := image.Rectangle.Min (image.Rectangle.Intersect a b) in
  image.Point.X (image.Rectangle.Min a) <= image.Point.X m <= x /\
  image.Point.Y (image.Rectangle.Min a) <= image.Point.Y m <= y /\
  image.Point.X (image.Rectangle.Min b) <= image.Point.X m /\
  image.Point.Y (image.Rectangle.Min b) <= image.Point.Y m.
Proof.
  unfold image.Rectangle.Intersect.
  match goal with |- context [image.Rectangle.Empty ?r] =>
    destruct (image.Rectangle.Empty r) eqn:E end.
  - intros H. apply Point_In_spec in H. simpl in H. lia.
  - rewrite Point_In_spec. simpl.
    repeat match goal with |- context [if ?a <? ?b then _ else _] =>
      destruct (Z.ltb_spec a b) end; lia.
Qed.

(** What [clip] returns: the points of the clipped rectangle are those of
    the rectangle that fall on the destination and on the moved source; the
    source point moves with the corner. *)
Lemma clip_spec (dst : image.RGBA.t) (r : image.Rectangle.t) (src : image.Image.t)
    (sp : image.Point.t) :
  let moved := image.Rectangle.Add (image.Image.Bounds src)
                 (image.Point.Sub (image.Rectangle.Min r) sp) in
  let r' := (draw.clip dst r src sp).1 in
  let sp' := (draw.clip dst r src sp).2 in
  (forall x y,
     image.Point_In (image.Point.mk x y) r' = true <->
     image.Point_In (image.Point.mk x y) r = true /\
     image.Point_In (image.Point.mk x y) (image.Rect dst) = true /\
     image.Point_In (image.Point.mk x y) moved = true) /\
  (forall x y, image.Point_In (image.Point.mk x y) r' = true ->
     image.Point.X (image.Rectangle.Min r) <= image.Point.X (image.Rectangle.Min r') <= x /\
     image.Point.Y (image.Rectangle.Min r) <= image.Point.Y (image.Rectangle.Min r') <= y) /\
  (is_int (image.Point.X sp) -> is_int (image.Point.Y sp) ->
   image.Point.X sp'
   = int_add (image.Point.X sp)
       (int_sub (image.Point.X (image.Rectangle.Min r')) (image.Point.X (image.Rectangle.Min r)))
   /\ image.Point.Y sp'
      = int_add (image.Point.Y sp)
          (int_sub (image.Point.Y (image.Rectangle.Min r')) (image.Point.Y (image.Rectangle.Min r)))).
Proof.
  intros moved r' sp'. unfold draw.clip in r', sp'. fold moved in r', sp'.
  set (r2 := image.Rectangle.Intersect (image.Rectangle.Intersect r (image.Rect dst)) moved)
    in *.
  set (dx := int_sub (image.Point.X (image.Rectangle.Min r2)) (image.Point.X (image.Rectangle.Min r)))
    in *.
  set (dy := int_sub (image.Point.Y (image.Rectangle.Min r2)) (image.Point.Y (image.Rectangle.Min r)))
    in *.
  assert (Er : r' = r2) by (subst r'; destruct ((dx =? 0) && (dy =? 0)); reflexivity).
  rewrite Er. split; [|split].
  - intros x y. subst r2. rewrite !Intersect_In_iff. tauto.
  - intros x y Hin. subst r2.
    pose proof (Intersect_Min x y _ _ Hin) as (HX & HY & _). cbv zeta in HX, HY.
    apply Intersect_In in Hin as [Hin _].
    pose proof (Intersect_Min x y _ _ Hin) as (HX' & HY' & _). cbv zeta in HX', HY'. lia.
  - intros HsX HsY. subst sp'.
    destruct (Z.eqb_spec dx 0) as [Ex|]; [destruct (Z.eqb_spec dy 0) as [Ey|]|]; simpl;
      [|done..].
    fold dx dy. rewrite Ex, Ey. unfold int_add. rewrite !Z.add_0_r, !wrap_id by assumption. done.
Qed.

(** [Draw] in full: it returns, keeps the layout of the destination, leaves
    the pixels outside the clipped rectangle, and blends the others with the
    source pixel that the source point aligns with them. *)
Lemma Draw_pixels (dst : image.RGBA.t) (r : image.Rectangle.t) (src : image.Image.t)
    (sp : image.Point.t) (op : draw.Op) :
  wf_buffer dst -> readable src ->
  let r' := (draw.clip dst r src sp).1 in
  let sp' := (draw.clip dst r src sp).2 in
  exists dst', draw.Draw dst r src sp op = Ret dst' /\ wf_buffer dst' /\
    image.Rect dst' = image.Rect dst /\
    (forall x y, image.Point_In (image.Point.mk x y) r' = false ->
       image.RGBA.RGBAAt dst' x y = image.RGBA.RGBAAt dst x y) /\
    (forall x y, image.Point_In (image.Point.mk x y) r' = true ->
       exists d s,
         image.RGBA.RGBAAt dst x y = Ret d /\
         image.Image.At src
           (int_add (image.Point.X sp') (int_sub x (image.Point.X (image.Rectangle.Min r'))))
           (int_add (image.Point.Y sp') (int_sub y (image.Point.Y (image.Rectangle.Min r'))))
         = Ret s /\
         image.RGBA.RGBAAt dst' x y = Ret (draw.blend op d s)).
Proof.
  intros Hwf Hsrc r' sp'.
  pose proof (clip_spec dst r src sp) as (Hclip & _). cbv zeta in Hclip. fold r' in Hclip.
  unfold draw.Draw. rewrite (surjective_pairing (draw.clip dst r src sp)). fold r' sp'.
  clearbody r' sp'.
  destruct (image.Rectangle.Empty r') eqn:Eempty.
  { exists dst. split; [done|]. split; [done|]. split; [done|]. split; [done|].
    intros x y Hin. rewrite (Empty_not_In r' x y Eempty) in Hin. discriminate. }
  unfold draw.drawRGBA.
  rewrite (forM_nested (fun s x y => draw.drawPixel r' src sp' op y s x)).
  set (f := fun x y d =>
         match image.Image.At src
                 (int_add (image.Point.X sp') (int_sub x (image.Point.X (image.Rectangle.Min r'))))
                 (int_add (image.Point.Y sp') (int_sub y (image.Point.Y (image.Rectangle.Min r'))))
         with
         | Ret s => draw.blend op d s
         | _ => d
         end).
  destruct (forM_setPix_update image.RGBA.zero
              (fun s pt => draw.drawPixel r' src sp' op pt.2 s pt.1) f
              (points (seqZ (image.Point.X (image.Rectangle.Min r'))
                            (image.Point.X (image.Rectangle.Max r') - image.Point.X (image.Rectangle.Min r')))
                      (seqZ (image.Point.Y (image.Rectangle.Min r'))
                            (image.Point.Y (image.Rectangle.Max r') - image.Point.Y (image.Rectangle.Min r'))))
              (NoDup_points _ _ _ _) dst Hwf) as (dst' & E & Hwf' & HR & Hfr & Hval).
  - intros [x y] Hpt. apply elem_of_points in Hpt. simpl.
    apply (Hclip x y). apply Point_In_spec. lia.
  - intros q [x y] d Hq HRq Hpt Hd. apply elem_of_points in Hpt. simpl in Hd |- *.
    assert (Hin : image.Point_In (image.Point.mk x y) (image.Rect q) = true).
    { rewrite HRq. apply (Hclip x y). apply Point_In_spec. lia. }
    unfold draw.drawPixel, f.
    destruct (Hsrc (int_add (image.Point.X sp') (int_sub x (image.Point.X (image.Rectangle.Min r'))))
                   (int_add (image.Point.Y sp') (int_sub y (image.Point.Y (image.Rectangle.Min r')))))
      as [s ->]. cbn [mbind outcome_bind].
    unfold image.colorAt in Hd. rewrite Hin in Hd. simpl in Hd. rewrite Hd.
    cbn [mbind outcome_bind]. by apply store_in.
  - exists dst'. split; [exact E|]. split; [exact Hwf'|]. split; [exact HR|]. split.
    + intros x y Hout. apply Hfr. intros Hpt. apply elem_of_points in Hpt.
      assert (image.Point_In (image.Point.mk x y) r' = true) by (apply Point_In_spec; lia).
      congruence.
    + intros x y Hin.
      destruct (Hval x y) as (d & Hd & Hres).
      { apply elem_of_points. apply Point_In_spec in Hin. lia. }
      destruct (Hsrc (int_add (image.Point.X sp') (int_sub x (image.Point.X (image.Rectangle.Min r'))))
                     (int_add (image.Point.Y sp') (int_sub y (image.Point.Y (image.Rectangle.Min r')))))
        as [s Hs].
      exists d, s. split; [exact Hd|]. split; [exact Hs|].
      unfold image.RGBA.RGBAAt. rewrite Hres. unfold f. by rewrite Hs.
Qed.

(** ** The copy of the input and the blend of the watermark *)

(** The source pixel that [Draw] reads for the destination pixel [x]. *)
Lemma source_coordinate (spX spX' rMin rMin' x : Z) :
  spX' = int_add spX (int_sub rMin' rMin) ->
  rMin <= rMin' <= x -> is_int rMin -> is_int x -> x - rMin <= MaxInt ->
  is_int spX -> is_int (spX + (x - rMin)) ->
  int_add spX' (int_sub x rMin') = spX + (x - rMin).
Proof.
  intros -> Hmin Hr Hx Hd Hs Hsum. unfold int_add, int_sub.
  rewrite (wrap_id (rMin' - rMin)) by int_range.
  rewrite (wrap_id (spX + (rMin' - rMin))) by int_range.
  rewrite (wrap_id (x - rMin')) by int_range.
  rewrite wrap_id by int_range. lia.
Qed.

Lemma wf_rect_In (r : image.Rectangle.t) (x y : Z) :
  wf_rect r -> image.Point_In (image.Point.mk x y) r = true ->
  is_int x /\ is_int y /\
  x - image.Point.X (image.Rectangle.Min r) <= MaxInt /\
  y - image.Point.Y (image.Rectangle.Min r) <= MaxInt.
Proof.
  intros (?&?&?&?&?&?&?&?&?) Hin. apply Point_In_spec in Hin. int_range.
Qed.

Lemma Add_zero (r : image.Rectangle.t) (p : image.Point.t) :
  wf_rect r -> image.Rectangle.Add r (image.Point.Sub p p) = r.
Proof.
  intros (?&?&?&?&_). destruct r as [[x0 y0] [x1 y1]]. simpl in *.
  unfold image.Rectangle.Add, image.Point.Add, image.Point.Sub, int_add, int_sub. simpl.
  rewrite !Z.sub_diag. change (wrap 0) with 0. rewrite !Z.add_0_r, !wrap_id by assumption.
  reflexivity.
Qed.

(** The canvas of an image: inside the bounds, the image's pixels as
    [draw.Src] stores them. *)
Lemma generateBaseCanvas_pixels (inputImg : image.Image.t) :
  wf_rect (image.Image.Bounds inputImg) -> readable inputImg ->
  exists canvas,
    generateBaseCanvas inputImg = Ret canvas /\ wf_buffer canvas /\
    image.Rect canvas = image.Image.Bounds inputImg /\
    forall x y, image.Point_In (image.Point.mk x y) (image.Image.Bounds inputImg) = true ->
      exists s, image.Image.At inputImg x y = Ret s /\
        image.RGBA.RGBAAt canvas x y = Ret (toRGBA s).
Proof.
  intros Hr Hsrc. unfold generateBaseCanvas.
  destruct (NewRGBA_wf _ Hr) as (c0 & -> & Hwf0 & HR0). cbn [mbind outcome_bind].
  set (b := image.Image.Bounds inputImg) in *.
  destruct (Draw_pixels c0 b inputImg (image.Rectangle.Min b) draw.Src Hwf0 Hsrc)
    as (c & E & Hwf & HR & _ & Hval).
  pose proof (clip_spec c0 b inputImg (image.Rectangle.Min b)) as (Hclip & Hmin & Hsp).
  cbv zeta in Hclip, Hmin, Hsp, Hval.
  fold b in Hclip. rewrite (Add_zero b _ Hr), HR0 in Hclip.
  exists c. split; [exact E|]. split; [exact Hwf|]. split; [congruence|].
  intros x y Hin.
  assert (Hin' : image.Point_In (image.Point.mk x y) (draw.clip c0 b inputImg (image.Rectangle.Min b)).1
                 = true) by (apply Hclip; auto).
  destruct (Hval x y Hin') as (d & s & _ & Hs & Hres).
  destruct (Hmin x y Hin') as [HmX HmY].
  pose proof Hr as (HiX & HiY & _).
  destruct (Hsp HiX HiY) as [EX EY].
  destruct (wf_rect_In b x y Hr Hin) as (Hx & Hy & HdX & HdY).
  rewrite (source_coordinate _ _ _ _ x EX) in Hs; try assumption;
    [|replace (image.Point.X (image.Rectangle.Min b) + (x - image.Point.X (image.Rectangle.Min b)))
        with x by lia; assumption].
  rewrite (source_coordinate _ _ _ _ y EY) in Hs; try assumption;
    [|replace (image.Point.Y (image.Rectangle.Min b) + (y - image.Point.Y (image.Rectangle.Min b)))
        with y by lia; assumption].
  replace (image.Point.X (image.Rectangle.Min b) + (x - image.Point.X (image.Rectangle.Min b)))
    with x in Hs by lia.
  replace (image.Point.Y (image.Rectangle.Min b) + (y - image.Point.Y (image.Rectangle.Min b)))
    with y in Hs by lia.
  exists s. split; [exact Hs|exact Hres].
Qed.

(** X8: the canvas is a copy of the input: it has the input's bounds, inside
    them each pixel is the input's pixel reduced to eight bits per channel,
    and outside them it reads as the zero colour. *)
Theorem generateBaseCanvas_copies (inputImg : image.Image.t) :
  wf_rect (image.Image.Bounds inputImg) -> readable inputImg ->
  exists canvas,
    generateBaseCanvas inputImg = Ret canvas /\
    image.Rect canvas = image.Image.Bounds inputImg /\
    forall x y,
      if image.Point_In (image.Point.mk x y) (image.Image.Bounds inputImg)
      then exists s, image.Image.At inputImg x y = Ret s /\
             image.RGBA.RGBAAt canvas x y = Ret (toRGBA s)
      else image.RGBA.RGBAAt canvas x y = Ret image.RGBA.zero.
Proof.
  intros Hr Hsrc.
  destruct (generateBaseCanvas_pixels inputImg Hr Hsrc) as (canvas & E & _ & HR & Hpix).
  exists canvas. split; [exact E|]. split; [exact HR|].
  intros x y. destruct (image.Point_In _ (image.Image.Bounds inputImg)) eqn:Hin.
  - by apply Hpix.
  - unfold image.RGBA.RGBAAt, image.colorAt. by rewrite HR, Hin.
Qed.

Lemma generateBaseCanvas_copies_witness :
  exists canvas,
    generateBaseCanvas (standin.uniform 3 2 sample.amber) = Ret canvas /\
    image.RGBA.RGBAAt canvas 2 1 = Ret (color.RGBA.mk 200 100 50 255) /\
    image.RGBA.RGBAAt canvas 3 1 = Ret image.RGBA.zero.
Proof.
  destruct (generateBaseCanvas_copies (standin.uniform 3 2 sample.amber))
    as (canvas & E & _ & Hpix).
  - apply (tabulate_wf 3 2); unfold MaxInt; lia.
  - apply uniform_readable; unfold MaxInt; lia.
  - exists canvas. split; [exact E|]. split.
    + pose proof (Hpix 2 1) as H. cbn in H. destruct H as (s & Hs & ->).
      vm_compute in Hs. injection Hs as <-. reflexivity.
    + exact (Hpix 3 1).
Defined.

(** The pixels under a watermark. *)
Lemma drawWatermarkAtPosition_pixels (canvas : image.RGBA.t) (watermarkImg : image.Image.t)
    (pos : image.Point.t) :
  let b := image.Image.Bounds watermarkImg in
  wf_buffer canvas -> readable watermarkImg -> wf_rect b ->
  is_int (image.Point.X pos) -> is_int (image.Point.Y pos) ->
  image.Point.X pos + image.Rectangle.Dx b <= MaxInt ->
  image.Point.Y pos + image.Rectangle.Dy b <= MaxInt ->
  is_int (image.Point.X (image.Rectangle.Min b) + image.Point.X pos) ->
  is_int (image.Point.X (image.Rectangle.Max b) + image.Point.X pos) ->
  is_int (image.Point.Y (image.Rectangle.Min b) + image.Point.Y pos) ->
  is_int (image.Point.Y (image.Rectangle.Max b) + image.Point.Y pos) ->
  exists canvas',
    drawWatermarkAtPosition canvas watermarkImg pos = Ret canvas' /\
    wf_buffer canvas' /\ image.Rect canvas' = image.Rect canvas /\
    forall x y,
      if covers canvas watermarkImg pos x y
      then exists d s,
             image.RGBA.RGBAAt canvas x y = Ret d /\
             image.Image.At watermarkImg (x - image.Point.X pos) (y - image.Point.Y pos) = Ret s /\
             image.RGBA.RGBAAt canvas' x y = Ret (draw.blend draw.Over d s)
      else image.RGBA.RGBAAt canvas' x y = image.RGBA.RGBAAt canvas x y.
Proof.
  intros b Hwf Hsrc Hb HpX HpY HfX HfY HmX0 HmX1 HmY0 HmY1. unfold drawWatermarkAtPosition.
  fold b.
  set (dr := image.Rectangle.mk pos (image.Point.Add pos (image.Rectangle.Size b))).
  destruct (Draw_pixels canvas dr watermarkImg (image.Point.mk 0 0) draw.Over Hwf Hsrc)
    as (canvas' & E & Hwf' & HR & Hfr & Hval).
  pose proof (clip_spec canvas dr watermarkImg (image.Point.mk 0 0)) as (Hclip & Hmin & Hsp).
  cbv zeta in Hclip, Hmin, Hsp, Hfr, Hval. fold b in Hclip.
  set (r' := (draw.clip canvas dr watermarkImg (image.Point.mk 0 0)).1) in *.
  set (sp' := (draw.clip canvas dr watermarkImg (image.Point.mk 0 0)).2) in *.
  pose proof (wf_rect_Dx b Hb) as EDx. pose proof (wf_rect_Dy b Hb) as EDy.
  pose proof (Dx_is_int b) as HDx. pose proof (Dy_is_int b) as HDy.
  pose proof Hb as (Hb0 & Hb1 & Hb2 & Hb3 & Hb4 & Hb5 & _).
  assert (Hcov : forall x y, image.Point_In (image.Point.mk x y) r' = covers canvas watermarkImg pos x y).
  { intros x y. apply eq_true_iff_eq. rewrite (Hclip x y). unfold covers. fold b.
    rewrite !andb_true_iff, !Point_In_spec, !Z.leb_le, !Z.ltb_lt.
    unfold dr. cbn [image.Rectangle.Min image.Rectangle.Max image.Point.X image.Point.Y
                    image.Point.Add image.Point.Sub image.Rectangle.Add image.Rectangle.Size].
    unfold int_add, int_sub. rewrite !Z.sub_0_r.
    rewrite (wrap_id (image.Point.X pos)), (wrap_id (image.Point.Y pos)) by assumption.
    rewrite (wrap_id (image.Point.X pos + image.Rectangle.Dx b)) by int_range.
    rewrite (wrap_id (image.Point.Y pos + image.Rectangle.Dy b)) by int_range.
    rewrite !wrap_id by assumption. lia. }
  exists canvas'. split; [exact E|]. split; [exact Hwf'|]. split; [exact HR|].
  intros x y. rewrite <- Hcov.
  destruct (image.Point_In (image.Point.mk x y) r') eqn:Hin; [|by apply Hfr].
  destruct (Hval x y Hin) as (d & s & Hd & Hs & Hres).
  destruct (Hmin x y Hin) as [HminX HminY]. unfold dr in HminX, HminY.
  cbn [image.Rectangle.Min image.Point.X image.Point.Y] in HminX, HminY.
  destruct (Hsp ltac:(simpl; int_range) ltac:(simpl; int_range)) as [EX EY].
  unfold dr in EX, EY. cbn [image.Rectangle.Min image.Point.X image.Point.Y] in EX, EY.
  pose proof (proj1 (Hclip x y) Hin) as (Hdr & Hcanvas & _).
  destruct (wf_rect_In _ x y (proj1 Hwf) Hcanvas) as (Hx & Hy & _).
  apply Point_In_spec in Hdr. unfold dr in Hdr.
  cbn [image.Rectangle.Min image.Rectangle.Max image.Point.X image.Point.Y
       image.Point.Add image.Rectangle.Size] in Hdr.
  unfold int_add in Hdr.
  rewrite (wrap_id (image.Point.X pos + image.Rectangle.Dx b)) in Hdr by int_range.
  rewrite (wrap_id (image.Point.Y pos + image.Rectangle.Dy b)) in Hdr by int_range.
  rewrite (source_coordinate 0 _ (image.Point.X pos) _ x EX) in Hs by int_range.
  rewrite (source_coordinate 0 _ (image.Point.Y pos) _ y EY) in Hs by int_range.
  exists d, s. split; [exact Hd|]. split; [exact Hs|exact Hres].
Qed.

(** ** Colours that are bytes *)

Lemma uint8_is_byte (z : Z) : is_byte (uint8 z).
Proof. unfold is_byte, uint8. pose proof (Z.mod_pos_bound z 256 ltac:(lia)). lia. Qed.

Lemma blend_bytes (op : draw.Op) (d : color.RGBA.t) (s : color.Color) :
  RGBA_bytes (draw.blend op d s).
Proof.
  destruct op; unfold draw.blend, draw.over_channel, RGBA_bytes; simpl;
    repeat split; apply uint8_is_byte.
Qed.

Lemma over_channel_transparent (c : Z) :
  is_byte c -> draw.over_channel c 0 (uint32 (uint32 (draw.m - 0) * 257)) = c.
Proof.
  intros Hc. apply Z.eqb_eq. revert Hc.
  apply (forall_bytes
           (fun c => draw.over_channel c 0 (uint32 (uint32 (draw.m - 0) * 257)) =? c)).
  vm_compute. reflexivity.
Qed.

(** A fully transparent source pixel leaves the destination pixel. *)
Lemma blend_Over_transparent (d : color.RGBA.t) :
  RGBA_bytes d -> draw.blend draw.Over d image_Transparent = d.
Proof.
  intros (HR & HG & HB & HA). destruct d as [r g b a]. simpl in *.
  unfold draw.blend. simpl. rewrite !over_channel_transparent by assumption. reflexivity.
Qed.

Lemma over_channel_opaque (d c : Z) :
  is_byte c ->
  draw.over_channel d (color.NRGBA.channel c 255) (uint32 (uint32 (draw.m - 65535) * 257)) = c.
Proof.
  intros Hc. unfold draw.over_channel.
  change (uint32 (uint32 (draw.m - 65535) * 257)) with 0. rewrite Z.mul_0_r.
  change (uint32 0) with 0. rewrite Z.add_0_l.
  apply Z.eqb_eq. revert Hc.
  apply (forall_bytes
           (fun c => uint8 (Z.shiftr (uint32 (uint32 (color.NRGBA.channel c 255 * draw.m)) / draw.m) 8)
                     =? c)).
  vm_compute. reflexivity.
Qed.

(** A fully opaque source pixel replaces the destination pixel. *)
Lemma blend_Over_opaque (d : color.RGBA.t) (px : color.NRGBA.t) :
  NRGBA_bytes px -> color.NRGBA.A px = 255 ->
  draw.blend draw.Over d (color.NRGBA.RGBA px)
  = color.RGBA.mk (color.NRGBA.R px) (color.NRGBA.G px) (color.NRGBA.B px) 255.
Proof.
  intros (HR & HG & HB & _) HA. destruct px as [r g b a]. simpl in *. subst a.
  unfold draw.blend, color.NRGBA.RGBA.
  cbn [color.NRGBA.R color.NRGBA.G color.NRGBA.B color.NRGBA.A
       color.r16 color.g16 color.b16 color.a16].
  change (Z.lor (uint32 255) (uint32 (Z.shiftl (uint32 255) 8))) with 65535.
  rewrite !over_channel_opaque by assumption.
  f_equal. unfold draw.over_channel.
  change (uint32 (uint32 (draw.m - 65535) * 257)) with 0. rewrite Z.mul_0_r. reflexivity.
Qed.

Lemma RGBAAt_bytes (p : image.RGBA.t) (x y : Z) (px : color.RGBA.t) :
  Forall RGBA_bytes (image.Pix p) ->
  image.RGBA.RGBAAt p x y = Ret px -> RGBA_bytes px.
Proof.
  intros Hall. unfold image.RGBA.RGBAAt, image.colorAt, image.index.
  destruct (image.Point_In _ _); simpl.
  - destruct (_ <? 0); [discriminate|].
    destruct (image.Pix p !! _) as [c|] eqn:E; [|discriminate].
    intros [= <-]. by apply (Forall_lookup_1 _ _ _ _ Hall E).
  - intros [= <-]. unfold RGBA_bytes, is_byte. simpl. lia.
Qed.

(** X9: drawing the watermark at [pos] blends, with the "over" operator, the
    watermark's pixel [(x - pos.X, y - pos.Y)] into every canvas pixel
    [(x, y)] it covers and changes no other pixel; where the watermark is
    fully transparent the canvas pixel keeps its value, where it is a fully
    opaque [color.NRGBA] the canvas pixel becomes that colour. *)
Theorem drawWatermarkAtPosition_blends (canvas : image.RGBA.t) (watermarkImg : image.Image.t)
    (pos : image.Point.t) :
  let b := image.Image.Bounds watermarkImg in
  wf_buffer canvas -> Forall RGBA_bytes (image.Pix canvas) ->
  readable watermarkImg -> wf_rect b ->
  is_int (image.Point.X pos) -> is_int (image.Point.Y pos) ->
  image.Point.X pos + image.Rectangle.Dx b <= MaxInt ->
  image.Point.Y pos + image.Rectangle.Dy b <= MaxInt ->
  is_int (image.Point.X (image.Rectangle.Min b) + image.Point.X pos) ->
  is_int (image.Point.X (image.Rectangle.Max b) + image.Point.X pos) ->
  is_int (image.Point.Y (image.Rectangle.Min b) + image.Point.Y pos) ->
  is_int (image.Point.Y (image.Rectangle.Max b) + image.Point.Y pos) ->
  exists canvas',
    drawWatermarkAtPosition canvas watermarkImg pos = Ret canvas' /\
    forall x y,
      if covers canvas watermarkImg pos x y
      then exists d s,
             image.RGBA.RGBAAt canvas x y = Ret d /\
             image.Image.At watermarkImg (x - image.Point.X pos) (y - image.Point.Y pos) = Ret s /\
             image.RGBA.RGBAAt canvas' x y = Ret (draw.blend draw.Over d s) /\
             (s = image_Transparent -> image.RGBA.RGBAAt canvas' x y = Ret d) /\
             (forall px, NRGBA_bytes px -> color.NRGBA.A px = 255 -> s = color.NRGBA.RGBA px ->
                image.RGBA.RGBAAt canvas' x y
                = Ret (color.RGBA.mk (color.NRGBA.R px) (color.NRGBA.G px)
                                     (color.NRGBA.B px) 255))
      else image.RGBA.RGBAAt canvas' x y = image.RGBA.RGBAAt canvas x y.
Proof.
  intros b Hwf Hbytes Hsrc Hb HpX HpY HfX HfY HmX0 HmX1 HmY0 HmY1.
  destruct (drawWatermarkAtPosition_pixels canvas watermarkImg pos
              Hwf Hsrc Hb HpX HpY HfX HfY HmX0 HmX1 HmY0 HmY1)
    as (canvas' & E & _ & _ & Hpix).
  exists canvas'. split; [exact E|]. intros x y. specialize (Hpix x y).
  destruct (covers canvas watermarkImg pos x y); [|exact Hpix].
  destruct Hpix as (d & s & Hd & Hs & Hres).
  exists d, s. split; [exact Hd|]. split; [exact Hs|]. split; [exact Hres|]. split.
  - intros ->. rewrite Hres, blend_Over_transparent; [done|].
    by apply (RGBAAt_bytes canvas x y).
  - intros px Hpx HA ->. by rewrite Hres, blend_Over_opaque.
Qed.

Lemma drawWatermarkAtPosition_blends_witness :
  let canvas := sample.canvas 3 3 (color.RGBA.mk 10 20 30 255) in
  exists canvas',
    drawWatermarkAtPosition canvas (standin.uniform 2 2 sample.blue) (image.Point.mk 2 (-1))
    = Ret canvas'
    /\ image.RGBA.RGBAAt canvas' 2 0 = Ret (color.RGBA.mk 0 0 255 255)
    /\ image.RGBA.RGBAAt canvas' 1 0 = Ret (color.RGBA.mk 10 20 30 255).
Proof.
  cbv zeta.
  destruct (drawWatermarkAtPosition_blends (sample.canvas 3 3 (color.RGBA.mk 10 20 30 255))
              (standin.uniform 2 2 sample.blue) (image.Point.mk 2 (-1)))
    as (canvas' & E & Hpix).
  - apply canvas_wf; unfold MaxInt; lia.
  - repeat constructor; vm_compute; discriminate.
  - apply uniform_readable; unfold MaxInt; lia.
  - apply (tabulate_wf 2 2); unfold MaxInt; lia.
  - vm_compute. split; discriminate.
  - vm_compute. split; discriminate.
  - vm_compute. discriminate.
  - vm_compute. discriminate.
  - vm_compute. split; discriminate.
  - vm_compute. split; discriminate.
  - vm_compute. split; discriminate.
  - vm_compute. split; discriminate.
  - exists canvas'. split; [exact E|]. split.
    + pose proof (Hpix 2 0) as H. cbn in H.
      destruct H as (d & s & _ & Hs & _ & _ & Hopaque).
      apply (Hopaque sample.blue).
      * repeat split; vm_compute; discriminate.
      * reflexivity.
      * vm_compute in Hs. by injection Hs as <-.
    + pose proof (Hpix 1 0) as H. cbn in H. rewrite H. reflexivity.
Defined.

(** ** Canvases hold bytes, and are determined by their pixels *)

Lemma Draw_bytes dst r src sp op dst' :
  Forall RGBA_bytes (image.Pix dst) ->
  draw.Draw dst r src sp op = Ret dst' -> Forall RGBA_bytes (image.Pix dst').
Proof.
  intros Hall. unfold draw.Draw. destruct (draw.clip dst r src sp) as [r' sp'].
  destruct (image.Rectangle.Empty r'); [by intros [= <-]|].
  unfold draw.drawRGBA. intros E.
  apply (forM_preserves (fun d => Forall RGBA_bytes (image.Pix d))) in E; [done| |done].
  intros s y s' Ey Hs.
  apply (forM_preserves (fun d => Forall RGBA_bytes (image.Pix d))) in Ey; [done| |done].
  intros q x q' Ex Hq. unfold draw.drawPixel in Ex.
  apply bind_Ret in Ex as (c & _ & Ex). apply bind_Ret in Ex as (d & _ & Ex).
  unfold image.store in Ex. apply bind_Ret in Ex as (_ & _ & Ex). injection Ex as <-.
  cbn [image.Pix]. apply Forall_insert; [exact Hq|apply blend_bytes].
Qed.

Lemma generateBaseCanvas_bytes inputImg canvas :
  generateBaseCanvas inputImg = Ret canvas -> Forall RGBA_bytes (image.Pix canvas).
Proof.
  unfold generateBaseCanvas. intros E. apply bind_Ret in E as (c0 & E0 & E).
  apply (Draw_bytes c0) in E; [exact E|].
  unfold image.NewRGBA in E0. apply bind_Ret in E0 as (n & _ & E0). injection E0 as <-.
  cbn [image.Pix]. apply Forall_replicate. unfold RGBA_bytes, is_byte. simpl. lia.
Qed.

Lemma drawWatermarkAtPosition_bytes canvas wm pos canvas' :
  Forall RGBA_bytes (image.Pix canvas) ->
  drawWatermarkAtPosition canvas wm pos = Ret canvas' -> Forall RGBA_bytes (image.Pix canvas').
Proof. unfold drawWatermarkAtPosition. apply Draw_bytes. Qed.

(** Two buffers of the same layout that read alike inside their bounds are
    the same buffer. *)
Lemma buffer_ext {C} (zero : C) (p q : image.buffer C) :
  wf_buffer p -> wf_buffer q -> image.Rect p = image.Rect q ->
  (forall x y, image.Point_In (image.Point.mk x y) (image.Rect p) = true ->
     image.colorAt zero p x y = image.colorAt zero q x y) ->
  p = q.
Proof.
  intros Hp Hq HR Hcol.
  pose proof Hp as (Hr & HSp & HLp). pose proof Hq as (_ & HSq & HLq).
  rewrite <- HR in HSq, HLq.
  pose proof (wf_rect_Dx _ Hr) as EDx. pose proof (wf_rect_Dy _ Hr) as EDy.
  pose proof Hr as (_ & _ & _ & _ & Hx01 & Hy01 & _).
  assert (HPix : image.Pix p = image.Pix q).
  { apply list_eq. intros i.
    destruct (decide (i < length (image.Pix p))%nat) as [Hlt|Hge];
      [|rewrite !lookup_ge_None_2; [done|lia|lia]].
    set (W := image.Rectangle.Dx (image.Rect p)) in *.
    set (H := image.Rectangle.Dy (image.Rect p)) in *.
    set (x0 := image.Point.X (image.Rectangle.Min (image.Rect p))) in *.
    set (y0 := image.Point.Y (image.Rectangle.Min (image.Rect p))) in *.
    assert (HW : 0 < W) by nia.
    pose proof (Z.mod_pos_bound (Z.of_nat i) W HW) as Hmod.
    pose proof (Z.div_mod (Z.of_nat i) W ltac:(lia)) as Hdm.
    assert (Hdiv : 0 <= Z.of_nat i / W < H).
    { split; [apply Z.div_pos; lia|apply Z.div_lt_upper_bound; lia]. }
    assert (Hin : image.Point_In (image.Point.mk (x0 + Z.of_nat i mod W) (y0 + Z.of_nat i / W))
                    (image.Rect p) = true).
    { apply Point_In_spec. fold x0 y0. lia. }
    pose proof (Hcol _ _ Hin) as Hc.
    assert (Hinq : image.Point_In (image.Point.mk (x0 + Z.of_nat i mod W) (y0 + Z.of_nat i / W))
                     (image.Rect q) = true) by (rewrite <- HR; exact Hin).
    destruct (PixOffset_in p _ _ Hp Hin) as [Eo _].
    destruct (PixOffset_in q _ _ Hq Hinq) as [Eoq _].
    rewrite <- HR in Eoq. fold W x0 y0 in Eo, Eoq.
    unfold image.colorAt in Hc. rewrite Hin, Hinq in Hc. cbn [negb] in Hc.
    rewrite Eo, Eoq in Hc.
    replace ((y0 + Z.of_nat i / W - y0) * W + (x0 + Z.of_nat i mod W - x0))
      with (Z.of_nat i) in Hc by lia.
    unfold image.index in Hc.
    destruct (Z.ltb_spec (Z.of_nat i) 0); [lia|]. rewrite Nat2Z.id in Hc.
    destruct (lookup_lt_is_Some_2 (image.Pix p) i Hlt) as [a Ha].
    destruct (lookup_lt_is_Some_2 (image.Pix q) i ltac:(lia)) as [b Hb].
    rewrite Ha, Hb in Hc |- *. by injection Hc as ->. }
  destruct p as [Pp Sp Rp], q as [Pq Sq Rq]. simpl in *. congruence.
Qed.

Lemma toRGBA_channel (c : Z) :
  is_byte c ->
  uint8 (Z.shiftr (uint32 (color.RGBA.channel c * draw.m) / draw.m) 8) = c.
Proof.
  intros Hc. apply Z.eqb_eq. revert Hc.
  apply (forall_bytes
           (fun c => uint8 (Z.shiftr (uint32 (color.RGBA.channel c * draw.m) / draw.m) 8) =? c)).
  vm_compute. reflexivity.
Qed.

(** A pixel of an [*image.RGBA] read through [RGBA()] and stored by
    [draw.Src] is the pixel. *)
Lemma toRGBA_RGBA (px : color.RGBA.t) :
  RGBA_bytes px -> toRGBA (color.RGBA.RGBA px) = px.
Proof.
  intros (HR & HG & HB & HA). destruct px as [r g b a]. simpl in *.
  unfold toRGBA, draw.blend, color.RGBA.RGBA.
  cbn [color.RGBA.R color.RGBA.G color.RGBA.B color.RGBA.A
       color.r16 color.g16 color.b16 color.a16].
  by rewrite !toRGBA_channel.
Qed.

(** The canvas of a canvas is that canvas. *)
Lemma generateBaseCanvas_RGBA (canvas : image.RGBA.t) :
  wf_buffer canvas -> Forall RGBA_bytes (image.Pix canvas) ->
  generateBaseCanvas (image.RGBA.Image canvas) = Ret canvas.
Proof.
  intros Hwf Hbytes.
  destruct (generateBaseCanvas_pixels (image.RGBA.Image canvas))
    as (c & E & Hwfc & HR & Hpix); [apply Hwf|by apply RGBA_readable|].
  rewrite E. f_equal. cbn [image.RGBA.Image image.Image.Bounds] in HR, Hpix.
  apply (buffer_ext image.RGBA.zero); [exact Hwfc|exact Hwf|exact HR|].
  intros x y Hin. rewrite HR in Hin. destruct (Hpix x y Hin) as (s & Hs & Hres).
  cbn [image.RGBA.Image image.Image.At] in Hs.
  unfold image.RGBA.RGBAAt in Hs, Hres.
  destruct (image.colorAt image.RGBA.zero canvas x y) as [px| |] eqn:Epx; try discriminate.
  cbn [mbind outcome_bind] in Hs. injection Hs as <-.
  rewrite Hres, toRGBA_RGBA; [done|].
  by apply (RGBAAt_bytes canvas x y).
Qed.

(** ** Grid batches against single grid calls *)

Section GridBatch.
Context `{lib : imaging.Lib}.

Lemma ApplyGrid_unfold fuel inputImg watermarkImg config :
  GridConfig.validate config = None ->
  ApplyGrid fuel inputImg watermarkImg config
  = wm ← opacityThenRotation watermarkImg (GridConfig.General config);
    out ← placeGrid fuel wm inputImg config;
    Ret (inr out).
Proof.
  intros Hv. unfold ApplyGrid. rewrite Hv. unfold opacityThenRotation.
  rewrite outcome_bind_assoc. apply outcome_bind_ext. intros w.
  rewrite outcome_bind_Ret. unfold placeGrid. cbv zeta.
  rewrite outcome_bind_assoc. reflexivity.
Qed.

Lemma BatchApplyGrid_unfold numCPU fuel schedule inputImgs watermarkImg config :
  GridConfig.validate config = None ->
  BatchApplyGrid numCPU fuel schedule inputImgs watermarkImg config
  = wm ← opacityThenRotation watermarkImg (GridConfig.General config);
    results ← forM (gridWorker fuel inputImgs wm config) schedule
                   (replicate (length inputImgs) None);
    Ret (inr results).
Proof.
  intros Hv. unfold BatchApplyGrid. rewrite Hv. unfold opacityThenRotation.
  rewrite outcome_bind_assoc. apply outcome_bind_ext. intros w. reflexivity.
Qed.

(** The second copy that a worker makes changes nothing. *)
Lemma gridWorker_unfold fuel inputImgs wm config results index img :
  inputImgs !! index = Some img ->
  wf_rect (image.Image.Bounds img) -> readable img ->
  gridWorker fuel inputImgs wm config results index
  = out ← placeGrid fuel wm img config; Ret (<[index := Some out]> results).
Proof.
  intros Himg Hr Hsrc. unfold gridWorker, placeGrid. rewrite Himg. cbv zeta.
  rewrite outcome_bind_assoc. apply outcome_bind_ext. intros positions.
  unfold applyGridWatermarks at 2.
  destruct (generateBaseCanvas_pixels img Hr Hsrc) as (canvas & E & Hwf & _).
  rewrite E. cbn [mbind outcome_bind]. unfold applyGridWatermarks.
  rewrite (generateBaseCanvas_RGBA canvas Hwf (generateBaseCanvas_bytes _ _ E)).
  reflexivity.
Qed.

Lemma forM_gridWorker fuel inputImgs wm config (outs : list image.RGBA.t) :
  (forall i img, inputImgs !! i = Some img ->
     wf_rect (image.Image.Bounds img) /\ readable img /\
     exists out, outs !! i = Some out /\ placeGrid fuel wm img config = Ret out) ->
  forall schedule results,
    (forall i, i ∈ schedule -> (i < length inputImgs)%nat) ->
    forM (gridWorker fuel inputImgs wm config) schedule results
    = Ret (fill (fun i => outs !! i) results schedule).
Proof.
  intros Houts. induction schedule as [|j s IH]; intros results Hs; [done|].
  cbn [forM].
  destruct (lookup_lt_is_Some_2 inputImgs j) as [img Himg]; [apply Hs; left|].
  destruct (Houts j img Himg) as (Hr & Hsrc & out & Hout & E).
  rewrite (gridWorker_unfold fuel inputImgs wm config results j img Himg Hr Hsrc), E.
  cbn [mbind outcome_bind]. rewrite <- Hout. apply IH.
  intros i Hi. apply Hs. by right.
Qed.

(** When [ApplyGrid] returns on every image, the batch returns their
    results. *)
Lemma BatchApplyGrid_of_grid (numCPU : Z) (fuel : nat) (schedule : list nat)
    (inputImgs : list image.Image.t) (watermarkImg : image.Image.t)
    (config : GridConfig.t) :
  GridConfig.validate config = None ->
  wf_rect (image.Image.Bounds watermarkImg) -> readable watermarkImg ->
  schedule ≡ₚ seq 0 (length inputImgs) ->
  (forall img, img ∈ inputImgs ->
     wf_rect (image.Image.Bounds img) /\ readable img /\
     exists out, ApplyGrid fuel img watermarkImg config = Ret (inr out)) ->
  exists outs,
    BatchApplyGrid numCPU fuel schedule inputImgs watermarkImg config
    = Ret (inr (Some <$> outs))
    /\ length outs = length inputImgs
    /\ forall i img, inputImgs !! i = Some img ->
         exists out, outs !! i = Some out /\
           ApplyGrid fuel img watermarkImg config = Ret (inr out).
Proof.
  intros Hv Hr Hsrc Hperm Himgs.
  destruct (opacityThenRotation_returns watermarkImg (GridConfig.General config) Hr Hsrc)
    as [wm Hwm].
  assert (Htask : forall img, img ∈ inputImgs ->
            exists out, placeGrid fuel wm img config = Ret out).
  { intros img Himg. destruct (Himgs img Himg) as (_ & _ & out & E).
    rewrite ApplyGrid_unfold, Hwm in E by done. cbn [mbind outcome_bind] in E.
    destruct (placeGrid fuel wm img config) as [o| |]; try discriminate. eauto. }
  destruct (Forall2_choice (fun img out => placeGrid fuel wm img config = Ret out)
              inputImgs Htask) as [outs Houts].
  assert (Hlen : length outs = length inputImgs) by (symmetry; by eapply Forall2_length).
  assert (Hlookup : forall i img, inputImgs !! i = Some img ->
            wf_rect (image.Image.Bounds img) /\ readable img /\
            exists out, outs !! i = Some out /\ placeGrid fuel wm img config = Ret out).
  { intros i img Himg.
    destruct (Himgs img (list_elem_of_lookup_2 _ _ _ Himg)) as (Hri & Hsi & _).
    destruct (Forall2_lookup_l _ _ _ _ _ Houts Himg) as (out & Hout & E). eauto. }
  assert (Hin : forall i, i ∈ schedule <-> (i < length inputImgs)%nat).
  { intros i. rewrite Hperm, elem_of_seq. lia. }
  exists outs. split; [|split; [exact Hlen|]].
  - rewrite BatchApplyGrid_unfold, Hwm by done. cbn [mbind outcome_bind].
    rewrite (forM_gridWorker fuel inputImgs wm config outs Hlookup) by (intros i; apply Hin).
    cbn [mbind outcome_bind]. do 2 f_equal. apply list_eq. intros i.
    destruct (decide (i < length inputImgs)%nat) as [Hlt|Hge].
    + rewrite fill_lookup_in; [|by rewrite length_replicate|by apply Hin].
      rewrite list_lookup_fmap.
      destruct (lookup_lt_is_Some_2 outs i ltac:(lia)) as [out ->]. reflexivity.
    + rewrite lookup_ge_None_2 by (rewrite fill_length, length_replicate; lia).
      rewrite lookup_ge_None_2 by (rewrite length_fmap; lia). reflexivity.
  - intros i img Himg. destruct (Hlookup i img Himg) as (_ & _ & out & Hout & E).
    exists out. split; [exact Hout|].
    rewrite ApplyGrid_unfold, Hwm by done. cbn [mbind outcome_bind].
    rewrite E. reflexivity.
Qed.

(** A loop that returns has run its body to a return on every element. *)
Lemma forM_Ret_elem {S A} (body : S -> A -> outcome S) (l : list A) :
  forall s r, forM body l s = Ret r ->
  forall a, a ∈ l -> exists s1 s2, body s1 a = Ret s2.
Proof.
  induction l as [|b l IH]; intros s r E a Ha; [by apply elem_of_nil in Ha|].
  cbn [forM] in E. apply bind_Ret in E as (s' & E1 & E2).
  apply elem_of_cons in Ha as [->|Ha]; [eauto|]. by apply (IH s' r E2).
Qed.

(** When the batch returns, [ApplyGrid] returns on every image. *)
Lemma grid_of_BatchApplyGrid (numCPU : Z) (fuel : nat) (schedule : list nat)
    (inputImgs : list image.Image.t) (watermarkImg : image.Image.t)
    (config : GridConfig.t) results :
  GridConfig.validate config = None ->
  schedule ≡ₚ seq 0 (length inputImgs) ->
  (forall img, img ∈ inputImgs -> wf_rect (image.Image.Bounds img) /\ readable img) ->
  BatchApplyGrid numCPU fuel schedule inputImgs watermarkImg config = Ret results ->
  forall img, img ∈ inputImgs ->
    exists out, ApplyGrid fuel img watermarkImg config = Ret (inr out).
Proof.
  intros Hv Hperm Himgs E img Himg.
  rewrite BatchApplyGrid_unfold in E by done.
  apply bind_Ret in E as (wm & Hwm & E). apply bind_Ret in E as (res & E & _).
  apply list_elem_of_lookup_1 in Himg as [i Hi].
  assert (Hin : i ∈ schedule).
  { rewrite Hperm, elem_of_seq. apply lookup_lt_Some in Hi. lia. }
  destruct (forM_Ret_elem _ _ _ _ E i Hin) as (s1 & s2 & Ei).
  destruct (Himgs img (list_elem_of_lookup_2 _ _ _ Hi)) as [Hr Hsrc].
  rewrite (gridWorker_unfold fuel inputImgs wm config s1 i img Hi Hr Hsrc) in Ei.
  apply bind_Ret in Ei as (out & Eout & _).
  exists out. rewrite ApplyGrid_unfold, Hwm by done. cbn [mbind outcome_bind].
  rewrite Eout. reflexivity.
Qed.

(** X10: for a valid configuration, a watermark and images that can be read,
    and any order in which the goroutines take effect, the grid batch returns
    exactly when [ApplyGrid] returns on every image of the batch; and what it
    returns is one result per image, in the order of the input, each the
    image that [ApplyGrid] returns on that input (the canvas a worker passes
    on is copied once more, to no effect). *)
Theorem BatchApplyGrid_matches_grid (numCPU : Z) (fuel : nat) (schedule : list nat)
    (inputImgs : list image.Image.t) (watermarkImg : image.Image.t)
    (config : GridConfig.t) :
  GridConfig.validate config = None ->
  wf_rect (image.Image.Bounds watermarkImg) -> readable watermarkImg ->
  schedule ≡ₚ seq 0 (length inputImgs) ->
  (forall img, img ∈ inputImgs -> wf_rect (image.Image.Bounds img) /\ readable img) ->
  ((exists results,
      BatchApplyGrid numCPU fuel schedule inputImgs watermarkImg config = Ret results)
   <-> (forall img, img ∈ inputImgs ->
          exists out, ApplyGrid fuel img watermarkImg config = Ret (inr out)))
  /\ (forall results,
        BatchApplyGrid numCPU fuel schedule inputImgs watermarkImg config = Ret results ->
        exists outs,
          results = inr (Some <$> outs)
          /\ length outs = length inputImgs
          /\ forall i img, inputImgs !! i = Some img ->
               exists out, outs !! i = Some out /\
                 ApplyGrid fuel img watermarkImg config = Ret (inr out)).
Proof.
  intros Hv Hr Hsrc Hperm Himgs.
  assert (Hfwd : (forall img, img ∈ inputImgs ->
                    exists out, ApplyGrid fuel img watermarkImg config = Ret (inr out)) ->
                 exists outs,
                   BatchApplyGrid numCPU fuel schedule inputImgs watermarkImg config
                   = Ret (inr (Some <$> outs))
                   /\ length outs = length inputImgs
                   /\ forall i img, inputImgs !! i = Some img ->
                        exists out, outs !! i = Some out /\
                          ApplyGrid fuel img watermarkImg config = Ret (inr out)).
  { intros Hret. apply BatchApplyGrid_of_grid; try assumption.
    intros img Himg. destruct (Himgs img Himg) as [Hri Hsi].
    split; [exact Hri|]. split; [exact Hsi|]. by apply Hret. }
  split; [split|].
  - intros [results E]. by apply (grid_of_BatchApplyGrid numCPU fuel schedule inputImgs _ _ results).
  - intros Hret. destruct (Hfwd Hret) as (outs & E & _). eauto.
  - intros results E.
    destruct (Hfwd (grid_of_BatchApplyGrid numCPU fuel schedule inputImgs _ _ results
                      Hv Hperm Himgs E)) as (outs & E' & Hlen & Hall).
    exists outs. split; [congruence|]. split; [exact Hlen|exact Hall].
Qed.

End GridBatch.

Lemma BatchApplyGrid_matches_grid_witness :
  let inputImgs := [standin.uniform 8 6 sample.red; standin.uniform 6 8 sample.amber] in
  let watermarkImg := standin.uniform 4 2 sample.blue in
  let config := GridConfig.mk (sample.general 0.5 50 90) 1 1 0 0 in
  exists outs,
    @BatchApplyGrid standin.lib 4 20 [1%nat; 0%nat] inputImgs watermarkImg config
    = Ret (inr (Some <$> outs))
    /\ length outs = 2%nat.
Proof.
  cbv zeta.
  destruct (@BatchApplyGrid_matches_grid standin.lib 4 20 [1%nat; 0%nat]
              [standin.uniform 8 6 sample.red; standin.uniform 6 8 sample.amber]
              (standin.uniform 4 2 sample.blue)
              (GridConfig.mk (sample.general 0.5 50 90) 1 1 0 0))
    as [[_ Hret] Hres].
  - reflexivity.
  - apply (tabulate_wf 4 2); unfold MaxInt; lia.
  - apply uniform_readable; unfold MaxInt; lia.
  - simpl. apply perm_swap.
  - intros img Himg.
    apply elem_of_cons in Himg as [->|Himg];
      [|apply elem_of_cons in Himg as [->|Himg]; [|by apply elem_of_nil in Himg]].
    + split; [apply (tabulate_wf 8 6); unfold MaxInt; lia|].
      apply uniform_readable; unfold MaxInt; lia.
    + split; [apply (tabulate_wf 6 8); unfold MaxInt; lia|].
      apply uniform_readable; unfold MaxInt; lia.
  - destruct Hret as [results E].
    + intros img Himg.
      apply elem_of_cons in Himg as [->|Himg];
        [|apply elem_of_cons in Himg as [->|Himg]; [|by apply elem_of_nil in Himg]];
        eexists; vm_compute; reflexivity.
    + destruct (Hres results E) as (outs & -> & Hlen & _).
      exists outs. split; [exact E|exact Hlen].
Defined.

(** ** The pixels a grid leaves alone *)

(** One draw leaves the pixels outside the watermark's extent as they are. *)
Lemma drawWatermarkAtPosition_untouched (canvas : image.RGBA.t)
    (watermarkImg : image.Image.t) (pos : image.Point.t) :
  let w := image.Rectangle.Dx (image.Image.Bounds watermarkImg) in
  let h := image.Rectangle.Dy (image.Image.Bounds watermarkImg) in
  wf_buffer canvas -> readable watermarkImg -> 0 <= w -> 0 <= h ->
  is_int (image.Point.X pos) -> is_int (image.Point.Y pos) ->
  exists out,
    drawWatermarkAtPosition canvas watermarkImg pos = Ret out /\
    wf_buffer out /\ image.Rect out = image.Rect canvas /\
    forall x y,
      ~ (image.Point.X pos <= x < image.Point.X pos + w /\
         image.Point.Y pos <= y < image.Point.Y pos + h) ->
      image.RGBA.RGBAAt out x y = image.RGBA.RGBAAt canvas x y.
Proof.
  intros w h Hwf Hsrc Hw Hh HpX HpY. unfold drawWatermarkAtPosition.
  destruct (Draw_frame canvas
              (image.Rectangle.mk pos
                 (image.Point.Add pos (image.Rectangle.Size (image.Image.Bounds watermarkImg))))
              watermarkImg (image.Point.mk 0 0) draw.Over Hwf Hsrc)
    as (out & E & Hwf' & HR & Hfr).
  exists out. split; [exact E|]. split; [exact Hwf'|]. split; [exact HR|].
  intros x y Hout. apply Hfr. intros [Hin _]. apply Hout.
  apply Point_In_spec in Hin. simpl in Hin. fold w h in Hin. unfold int_add in Hin.
  pose proof (wrap_le (image.Point.X pos + w)) as Hx.
  pose proof (wrap_le (image.Point.Y pos + h)) as Hy.
  unfold is_int in *. lia.
Qed.

Lemma forM_draw_frame (watermarkImg : image.Image.t) :
  let w := image.Rectangle.Dx (image.Image.Bounds watermarkImg) in
  let h := image.Rectangle.Dy (image.Image.Bounds watermarkImg) in
  readable watermarkImg -> 0 <= w -> 0 <= h ->
  forall (positions : list image.Point.t) (canvas : image.RGBA.t),
  wf_buffer canvas ->
  Forall (fun pos => is_int (image.Point.X pos) /\ is_int (image.Point.Y pos)) positions ->
  exists out,
    forM (fun canvas pos => drawWatermarkAtPosition canvas watermarkImg pos) positions canvas
    = Ret out /\
    wf_buffer out /\ image.Rect out = image.Rect canvas /\
    forall x y,
      Forall (fun pos => ~ (image.Point.X pos <= x < image.Point.X pos + w /\
                            image.Point.Y pos <= y < image.Point.Y pos + h)) positions ->
      image.RGBA.RGBAAt out x y = image.RGBA.RGBAAt canvas x y.
Proof.
  intros w h Hsrc Hw Hh. induction positions as [|pos positions IH]; intros canvas Hwf Hint.
  - exists canvas. simpl. auto.
  - apply Forall_cons_1 in Hint as [[HpX HpY] Hint].
    destruct (drawWatermarkAtPosition_untouched canvas watermarkImg pos Hwf Hsrc Hw Hh HpX HpY)
      as (c1 & E1 & Hwf1 & HR1 & Hfr1).
    destruct (IH c1 Hwf1 Hint) as (out & E & Hwfo & HRo & Hfr).
    exists out. cbn [forM]. rewrite E1. cbn [mbind outcome_bind].
    split; [exact E|]. split; [exact Hwfo|]. split; [congruence|].
    intros x y Hout. apply Forall_cons_1 in Hout as [Hout1 Hout].
    rewrite (Hfr x y Hout). apply Hfr1. exact Hout1.
Qed.

(** X11: the grid changes only pixels under some watermark: the result has the
    input's bounds and every pixel of the input that lies in none of the
    rectangles [[pos, pos + watermark size)] is the input's pixel (reduced to
    eight bits per channel). *)
Theorem applyGridWatermarks_frame (inputImg watermarkImg : image.Image.t)
    (positions : list image.Point.t) :
  let w := image.Rectangle.Dx (image.Image.Bounds watermarkImg) in
  let h := image.Rectangle.Dy (image.Image.Bounds watermarkImg) in
  wf_rect (image.Image.Bounds inputImg) -> readable inputImg ->
  readable watermarkImg -> 0 <= w -> 0 <= h ->
  Forall (fun pos => is_int (image.Point.X pos) /\ is_int (image.Point.Y pos)) positions ->
  exists out,
    applyGridWatermarks inputImg watermarkImg positions = Ret out /\
    image.Rect out = image.Image.Bounds inputImg /\
    forall x y,
      image.Point_In (image.Point.mk x y) (image.Image.Bounds inputImg) = true ->
      Forall (fun pos => ~ (image.Point.X pos <= x < image.Point.X pos + w /\
                            image.Point.Y pos <= y < image.Point.Y pos + h)) positions ->
      exists s, image.Image.At inputImg x y = Ret s /\
        image.RGBA.RGBAAt out x y = Ret (toRGBA s).
Proof.
  intros w h Hr Hin Hsrc Hw Hh Hint. unfold applyGridWatermarks.
  destruct (generateBaseCanvas_pixels inputImg Hr Hin) as (c0 & -> & Hwf0 & HR0 & Hpix).
  cbn [mbind outcome_bind].
  destruct (forM_draw_frame watermarkImg Hsrc Hw Hh positions c0 Hwf0 Hint)
    as (out & E & _ & HR & Hfr).
  exists out. split; [exact E|]. split; [congruence|].
  intros x y Hxy Hout. destruct (Hpix x y Hxy) as (s & Hs & Hc0).
  exists s. split; [exact Hs|]. rewrite (Hfr x y Hout). exact Hc0.
Qed.

Lemma applyGridWatermarks_frame_witness :
  exists out,
    applyGridWatermarks (standin.uniform 6 4 sample.amber) (standin.uniform 2 2 sample.blue)
      [image.Point.mk 0 0; image.Point.mk 3 0] = Ret out /\
    image.RGBA.RGBAAt out 2 1 = Ret (color.RGBA.mk 200 100 50 255).
Proof.
  destruct (applyGridWatermarks_frame (standin.uniform 6 4 sample.amber)
              (standin.uniform 2 2 sample.blue) [image.Point.mk 0 0; image.Point.mk 3 0])
    as (out & E & _ & Hpix).
  - apply (tabulate_wf 6 4); unfold MaxInt; lia.
  - apply uniform_readable; unfold MaxInt; lia.
  - apply uniform_readable; unfold MaxInt; lia.
  - vm_compute. discriminate.
  - vm_compute. discriminate.
  - repeat constructor; vm_compute; discriminate.
  - exists out. split; [exact E|].
    destruct (Hpix 2 1) as (s & Hs & ->); [reflexivity| |].
    + constructor; [|constructor; [|constructor]].
      * intros [[_ HB] _]. vm_compute in HB. discriminate.
      * intros [[HA _] _]. vm_compute in HA. apply HA. reflexivity.
    + vm_compute in Hs. injection Hs as <-. reflexivity.
Defined.

(** ** The calls return *)

Lemma drawWatermarkAtPosition_returns (canvas : image.RGBA.t)
    (watermarkImg : image.Image.t) (pos : image.Point.t) :
  wf_buffer canvas -> readable watermarkImg ->
  exists out, drawWatermarkAtPosition canvas watermarkImg pos = Ret out /\ wf_buffer out.
Proof.
  intros Hwf Hsrc. unfold drawWatermarkAtPosition.
  destruct (Draw_frame canvas
              (image.Rectangle.mk pos
                 (image.Point.Add pos (image.Rectangle.Size (image.Image.Bounds watermarkImg))))
              watermarkImg (image.Point.mk 0 0) draw.Over Hwf Hsrc) as (c1 & E1 & Hwf1 & _).
  eauto.
Qed.

Lemma forM_draw_returns (watermarkImg : image.Image.t) :
  readable watermarkImg ->
  forall (positions : list image.Point.t) (canvas : image.RGBA.t),
  wf_buffer canvas ->
  exists out,
    forM (fun canvas pos => drawWatermarkAtPosition canvas watermarkImg pos) positions canvas
    = Ret out.
Proof.
  intros Hsrc. induction positions as [|pos positions IH]; intros canvas Hwf.
  - exists canvas. reflexivity.
  - destruct (drawWatermarkAtPosition_returns canvas watermarkImg pos Hwf Hsrc)
      as (c1 & E1 & Hwf1).
    cbn [forM]. rewrite E1. cbn [mbind outcome_bind]. apply IH, Hwf1.
Qed.

Lemma getWatermarkPosition_returns `{rnd : rand.Source}
    (watermarkImage inputImage : image.Image.t)
    (verticalAlign : VerticalAlign) (horizontalAlign : HorizontalAlign)
    (spacing : Z) (g : rand.state) :
  0 <= image.Rectangle.Dx (image.Image.Bounds inputImage) < MaxInt ->
  0 <= image.Rectangle.Dy (image.Image.Bounds inputImage) < MaxInt ->
  0 <= image.Rectangle.Dx (image.Image.Bounds watermarkImage) ->
  0 <= image.Rectangle.Dy (image.Image.Bounds watermarkImage) ->
  0 <= spacing <= MaxInt ->
  exists p g',
    getWatermarkPosition watermarkImage inputImage verticalAlign horizontalAlign spacing g
    = Ret (p, g').
Proof.
  intros HiW HiH HwW HwH Hs.
  pose proof (Dx_is_int (image.Image.Bounds watermarkImage)) as [_ ?].
  pose proof (Dy_is_int (image.Image.Bounds watermarkImage)) as [_ ?].
  destruct (axis_returns horizontalAlign _ (image.Rectangle.Dx (image.Image.Bounds watermarkImage))
              spacing g HiW ltac:(lia) Hs) as (x & g1 & Ex).
  destruct (axis_returns verticalAlign _ (image.Rectangle.Dy (image.Image.Bounds watermarkImage))
              spacing g1 HiH ltac:(lia) Hs) as (y & g2 & Ey).
  exists (image.Point.mk x y), g2.
  unfold getWatermarkPosition, HorizontalLeft, HorizontalMiddle, HorizontalRight,
    HorizontalRandom, VerticalTop, VerticalMiddle, VerticalBottom, VerticalRandom.
  cbv zeta in Ex, Ey |- *.
  rewrite Ex. cbn [mbind outcome_bind]. rewrite Ey. reflexivity.
Qed.

(** X12: ApplySingle does not panic: under a valid configuration, with an
    input and a watermark that can be read and a resize that yields a
    well-formed image, it returns an image, whatever the alignments. *)
Theorem ApplySingle_returns `{lib : imaging.Lib} `{rnd : rand.Source}
    (inputImg watermarkImg : image.Image.t) (config : SingleConfig.t) (g : rand.state) :
  SingleConfig.validate config = None ->
  SingleConfig.Spacing config <= MaxInt ->
  wf_rect (image.Image.Bounds inputImg) -> readable inputImg ->
  image.Rectangle.Dx (image.Image.Bounds inputImg) < MaxInt ->
  image.Rectangle.Dy (image.Image.Bounds inputImg) < MaxInt ->
  wf_rect (image.Image.Bounds watermarkImg) -> readable watermarkImg ->
  (forall wm, opacityThenRotation watermarkImg (SingleConfig.General config) = Ret wm ->
     let resized := resizeWatermark wm inputImg (SingleConfig.General config) in
     wf_rect (image.Image.Bounds resized) /\ readable resized) ->
  exists out g', ApplySingle inputImg watermarkImg config g = Ret (inr out, g').
Proof.
  intros Hv Hsp Hr Hin HW HH Hrw Hsrc Hlib.
  destruct (opacityThenRotation_returns watermarkImg (SingleConfig.General config) Hrw Hsrc)
    as [wm Hwm].
  destruct (Hlib wm Hwm) as [Hrr Hrs]. cbv zeta in Hrr, Hrs.
  rewrite ApplySingle_unfold, Hwm by exact Hv. cbn [mbind outcome_bind].
  unfold placeSingle. cbv zeta.
  assert (Hs0 : 0 <= SingleConfig.Spacing config).
  { unfold SingleConfig.validate in Hv.
    destruct (GeneralConfig.validate _); [discriminate|].
    destruct (Z.ltb_spec (SingleConfig.Spacing config) 0); [discriminate|lia]. }
  pose proof (pixelBufferLength_wf _ "RGBA" Hr) as (_ & HW0 & HH0).
  pose proof (pixelBufferLength_wf _ "NRGBA" Hrr) as (_ & Hw0 & Hh0).
  destruct (getWatermarkPosition_returns
              (resizeWatermark wm inputImg (SingleConfig.General config)) inputImg
              (SingleConfig.VerticalAlign config) (SingleConfig.HorizontalAlign config)
              (SingleConfig.Spacing config) g) as (p & g' & ->); try lia.
  cbn [mbind outcome_bind].
  destruct (generateBaseCanvas_wf inputImg Hr Hin) as (c0 & -> & Hwf0 & _).
  cbn [mbind outcome_bind].
  destruct (drawWatermarkAtPosition_returns c0
              (resizeWatermark wm inputImg (SingleConfig.General config)) p Hwf0 Hrs)
    as (c1 & -> & _).
  cbn [mbind outcome_bind]. eauto.
Qed.

(** The stand-in resize to a positive width is a table of that width, its
    height following the aspect ratio. *)
Lemma standin_Resize_tabulate (img : image.Image.t) (width : Z)
    (filter : imaging.ResampleFilter) :
  0 < width ->
  0 < image.Rectangle.Dx (image.Image.Bounds img) ->
  0 < image.Rectangle.Dy (image.Image.Bounds img) ->
  exists f,
    standin.Resize img width 0 filter
    = standin.tabulate width
        (standin.roundDim (float64_of_int width
                           * float64_of_int (image.Rectangle.Dy (image.Image.Bounds img))
                           / float64_of_int (image.Rectangle.Dx (image.Image.Bounds img))))
        f.
Proof.
  intros Hw HW HH. unfold standin.Resize. cbv zeta.
  rewrite (proj2 (Z.ltb_ge width 0)) by lia.
  rewrite (proj2 (Z.eqb_neq width 0)) by lia.
  rewrite !(proj2 (Z.leb_gt _ _)) by lia.
  change (0 <? 0) with false. change (0 =? 0) with true. cbn [orb andb].
  eexists. reflexivity.
Qed.

Lemma standin_resizeWatermark_wf (wm inputImg : image.Image.t) (config : GeneralConfig.t)
    (b : image.Rectangle.t) :
  image.Image.Bounds wm = b ->
  let w := getNewWatermarkWidth inputImg (GeneralConfig.WatermarkWidthPercent config) in
  let h := standin.roundDim (float64_of_int w * float64_of_int (image.Rectangle.Dy b)
                             / float64_of_int (image.Rectangle.Dx b)) in
  0 < w <= MaxInt -> 0 < image.Rectangle.Dx b -> 0 < image.Rectangle.Dy b ->
  h <= MaxInt -> 4 * w * h <= MaxInt ->
  exists buf,
    @resizeWatermark standin.lib wm inputImg config = image.NRGBA.Image buf /\
    wf_buffer buf /\
    image.Rect buf = image.Rectangle.mk (image.Point.mk 0 0) (image.Point.mk w h).
Proof.
  intros <- w h Hw HW HH Hh Hfit. unfold resizeWatermark. cbv zeta.
  change (@imaging.Resize standin.lib) with standin.Resize. fold w.
  destruct (standin_Resize_tabulate wm w
              (if (imaging.Support (GeneralConfig.ResampleFilter config) <=? 0)%float
               then @imaging.CatmullRom standin.lib
               else GeneralConfig.ResampleFilter config) ltac:(lia) HW HH) as [f ->].
  fold h. exists (standin.tabulate w h f).
  split; [reflexivity|]. split; [|reflexivity].
  apply tabulate_wf; [lia| |exact Hfit].
  split; [|exact Hh]. unfold h, standin.roundDim. lia.
Qed.

Lemma ApplySingle_returns_witness :
  exists out g',
    @ApplySingle standin.lib standin.rnd (standin.uniform 8 6 sample.red)
      (standin.uniform 4 2 sample.blue)
      (sample.single 0.5 50 90 VerticalRandom HorizontalRandom 1) 7
    = Ret (inr out, g').
Proof.
  apply (@ApplySingle_returns standin.lib standin.rnd).
  - reflexivity.
  - vm_compute. discriminate.
  - apply (tabulate_wf 8 6); unfold MaxInt; lia.
  - apply uniform_readable; unfold MaxInt; lia.
  - vm_compute. reflexivity.
  - vm_compute. reflexivity.
  - apply (tabulate_wf 4 2); unfold MaxInt; lia.
  - apply uniform_readable; unfold MaxInt; lia.
  - intros wm Hwm. cbv zeta.
    apply (f_equal (fun o => match o with
                             | Ret i => image.Image.Bounds i
                             | _ => image.Rectangle.ZR
                             end)) in Hwm.
    vm_compute in Hwm.
    destruct (standin_resizeWatermark_wf wm (standin.uniform 8 6 sample.red)
                (SingleConfig.General
                   (sample.single 0.5 50 90 VerticalRandom HorizontalRandom 1))
                _ (eq_sym Hwm)) as (buf & -> & Hwf & _);
      lazymatch goal with
      | |- _ /\ readable _ => idtac
      | |- _ => vm_compute; first [reflexivity | discriminate | split; [reflexivity|discriminate]]
      end.
    split; [exact (proj1 Hwf)|exact (NRGBA_readable _ Hwf)].
Defined.

Lemma generateGridPositions_returns (fuel : nat) (inputImg watermarkImg : image.Image.t)
    (config : GridConfig.t) :
  gridOf.bounded inputImg watermarkImg config ->
  0 < gridOf.stepX watermarkImg config -> 0 < gridOf.stepY watermarkImg config ->
  gridOf.allocable inputImg watermarkImg config ->
  gridOf.inputW inputImg + gridOf.inputH inputImg
  + Z.abs (GridConfig.OffsetX config) + Z.abs (GridConfig.OffsetY config) < Z.of_nat fuel ->
  exists positions, generateGridPositions fuel inputImg watermarkImg config = Ret positions.
Proof.
  intros Hb HsX HsY Halloc Hfuel.
  pose proof Hb as (HW & HH & Hw & Hh & Hsx & Hsy & Hbx & Hby).
  unfold gridOf.allocable, gridOf.countX, gridOf.countY in Halloc.
  unfold gridOf.stepX, gridOf.stepY, gridOf.inputW, gridOf.inputH, small in *.
  set (W := image.Rectangle.Dx (image.Image.Bounds inputImg)) in *.
  set (H := image.Rectangle.Dy (image.Image.Bounds inputImg)) in *.
  set (w := image.Rectangle.Dx (image.Image.Bounds watermarkImg)) in *.
  set (h := image.Rectangle.Dy (image.Image.Bounds watermarkImg)) in *.
  set (sx := GridConfig.GridSpacingX config) in *.
  set (sy := GridConfig.GridSpacingY config) in *.
  set (ox := GridConfig.OffsetX config) in *.
  set (oy := GridConfig.OffsetY config) in *.
  destruct (Z.le_gt_cases H oy) as [HoutY|HinY].
  { exists []. unfold generateGridPositions. fold W H ox oy.
    destruct (Z.leb_spec H oy); [|lia]. by rewrite orb_true_r. }
  destruct (Z.le_gt_cases W ox) as [HoutX|HinX].
  { exists []. unfold generateGridPositions. fold W H ox oy.
    destruct (Z.leb_spec W ox); [reflexivity|lia]. }
  assert (Hcx : ceilDiv (W - ox) (w + sx) <= W - ox) by (apply ceilDiv_le; lia).
  assert (Hcy : ceilDiv (H - oy) (h + sy) <= H - oy) by (apply ceilDiv_le; lia).
  pose proof (ceilDiv_pos (W - ox) (w + sx) ltac:(lia) HsX).
  pose proof (ceilDiv_pos (H - oy) (h + sy) ltac:(lia) HsY).
  exists (lattice ox oy (ceilDiv (W - ox) (w + sx)) (ceilDiv (H - oy) (h + sy)) (w + sx) (h + sy)).
  apply (generateGridPositions_positive fuel inputImg watermarkImg config);
    fold W H w h sx sy ox oy; unfold MinInt, MaxInt; try lia.
  rewrite <- (quot_ceilDiv (W - ox) (w + sx)), <- (quot_ceilDiv (H - oy) (h + sy)) by lia.
  apply Halloc; lia.
Qed.

(** X13: ApplyGrid returns an image when the grid steps are positive: under a
    valid configuration, with an input and a watermark that can be read, a
    resized watermark that can be read, moderate sizes and a number of grid
    points that [make] grants (at most [maxAlloc] bytes of 16-byte points),
    neither a panic nor an endless loop occurs, wherever the offsets are. *)
Theorem ApplyGrid_returns `{lib : imaging.Lib} (fuel : nat)
    (inputImg watermarkImg : image.Image.t) (config : GridConfig.t) :
  GridConfig.validate config = None ->
  wf_rect (image.Image.Bounds inputImg) -> readable inputImg ->
  wf_rect (image.Image.Bounds watermarkImg) -> readable watermarkImg ->
  (forall wm, opacityThenRotation watermarkImg (GridConfig.General config) = Ret wm ->
     let resized := resizeWatermark wm inputImg (GridConfig.General config) in
     readable resized /\ gridOf.bounded inputImg resized config /\
     0 < gridOf.stepX resized config /\ 0 < gridOf.stepY resized config /\
     gridOf.allocable inputImg resized config) ->
  gridOf.inputW inputImg + gridOf.inputH inputImg
  + Z.abs (GridConfig.OffsetX config) + Z.abs (GridConfig.OffsetY config) < Z.of_nat fuel ->
  exists out, ApplyGrid fuel inputImg watermarkImg config = Ret (inr out).
Proof.
  intros Hv Hr Hin Hrw Hsrc Hlib Hfuel.
  destruct (opacityThenRotation_returns watermarkImg (GridConfig.General config) Hrw Hsrc)
    as [wm Hwm].
  destruct (Hlib wm Hwm) as (Hrs & Hb & HsX & HsY & Halloc).
  cbv zeta in Hrs, Hb, HsX, HsY, Halloc.
  rewrite ApplyGrid_unfold, Hwm by exact Hv. cbn [mbind outcome_bind].
  unfold placeGrid. cbv zeta.
  destruct (generateGridPositions_returns fuel inputImg _ config Hb HsX HsY Halloc Hfuel)
    as [positions ->].
  cbn [mbind outcome_bind]. unfold applyGridWatermarks.
  destruct (generateBaseCanvas_wf inputImg Hr Hin) as (c0 & -> & Hwf0 & _).
  cbn [mbind outcome_bind].
  destruct (forM_draw_returns _ Hrs positions c0 Hwf0) as [out ->].
  cbn [mbind outcome_bind]. eauto.
Qed.

Lemma ApplyGrid_returns_witness :
  exists out,
    @ApplyGrid standin.lib 300 (standin.uniform 100 80 sample.red)
      (standin.uniform 4 2 sample.blue) (sample.grid 3 (-1) (-7) 20)
    = Ret (inr out).
Proof.
  apply (@ApplyGrid_returns standin.lib).
  - reflexivity.
  - apply (tabulate_wf 100 80); unfold MaxInt; lia.
  - apply uniform_readable; unfold MaxInt; lia.
  - apply (tabulate_wf 4 2); unfold MaxInt; lia.
  - apply uniform_readable; unfold MaxInt; lia.
  - intros wm Hwm. cbv zeta.
    apply (f_equal (fun o => match o with
                             | Ret i => image.Image.Bounds i
                             | _ => image.Rectangle.ZR
                             end)) in Hwm.
    vm_compute in Hwm.
    destruct (standin_resizeWatermark_wf wm (standin.uniform 100 80 sample.red)
                (GridConfig.General (sample.grid 3 (-1) (-7) 20))
                _ (eq_sym Hwm)) as (buf & -> & Hwf & HR);
      lazymatch goal with
      | |- readable _ /\ _ => idtac
      | |- _ => vm_compute; first [reflexivity | discriminate | split; [reflexivity|discriminate]]
      end.
    split; [exact (NRGBA_readable _ Hwf)|].
    unfold gridOf.allocable, gridOf.countX, gridOf.countY,
      gridOf.bounded, gridOf.stepX, gridOf.stepY, gridOf.inputW, gridOf.inputH, small.
    cbn [image.Image.Bounds image.NRGBA.Image]. rewrite HR.
    vm_compute. repeat apply conj; first [reflexivity | discriminate].
  - vm_compute. reflexivity.
Defined.

(** ** The earlier way of centring *)

Lemma quot2_shift (a b : Z) :
  0 <= a -> 0 <= b -> Z.quot a 2 - Z.quot b 2 = Z.quot (a - b) 2 + centreShift a b.
Proof.
  intros Ha Hb. unfold centreShift.
  rewrite <- !Z.negb_even.
  rewrite (Zeven_mod a), (Zeven_mod b).
  pose proof (Z.quot_rem' a 2). pose proof (Z.quot_rem' b 2). pose proof (Z.quot_rem' (a - b) 2).
  pose proof (Z.rem_bound_pos a 2 Ha ltac:(lia)). pose proof (Z.rem_bound_pos b 2 Hb ltac:(lia)).
  rewrite <- !(Z.rem_mod_nonneg _ 2) by lia.
  destruct (Z.le_gt_cases b a).
  - pose proof (Z.rem_bound_pos (a - b) 2 ltac:(lia) ltac:(lia)).
    destruct (Z.leb_spec b a); [|lia]. destruct (Z.ltb_spec a b); [lia|].
    destruct (Z.eqb_spec (Z.rem a 2) 0), (Z.eqb_spec (Z.rem b 2) 0); simpl; lia.
  - assert (E : Z.quot (a - b) 2 = - Z.quot (b - a) 2).
    { replace (a - b) with (- (b - a)) by lia. apply Z.quot_opp_l. lia. }
    pose proof (Z.quot_rem' (b - a) 2).
    pose proof (Z.rem_bound_pos (b - a) 2 ltac:(lia) ltac:(lia)).
    destruct (Z.leb_spec b a); [lia|]. destruct (Z.ltb_spec a b); [|lia].
    destruct (Z.eqb_spec (Z.rem a 2) 0), (Z.eqb_spec (Z.rem b 2) 0); simpl; lia.
Qed.

Lemma centreShift_bounds (a b : Z) : -1 <= centreShift a b <= 1.
Proof.
  unfold centreShift.
  destruct (Z.even a && Z.odd b && (b <=? a))%bool; [lia|].
  destruct (Z.odd a && Z.even b && (a <? b))%bool; lia.
Qed.

Lemma centre_axis (a b : Z) :
  0 <= a <= MaxInt -> 0 <= b <= MaxInt ->
  int_sub (int_div a 2) (int_div b 2) = int_div (int_sub a b) 2 + centreShift a b.
Proof.
  intros Ha Hb. unfold int_sub, int_div, MaxInt in *.
  pose proof (quot2_shift a b ltac:(lia) ltac:(lia)) as E.
  pose proof (centreShift_bounds a b).
  pose proof (Z.quot_rem' a 2). pose proof (Z.quot_rem' b 2).
  pose proof (Z.rem_bound_pos a 2 ltac:(lia) ltac:(lia)).
  pose proof (Z.rem_bound_pos b 2 ltac:(lia) ltac:(lia)).
  rewrite (wrap_id (Z.quot a 2)), (wrap_id (Z.quot b 2)), (wrap_id (a - b)) by int_range.
  pose proof (Z.quot_rem' (a - b) 2).
  pose proof (Z.rem_bound_abs (a - b) 2 ltac:(lia)).
  rewrite (wrap_id (Z.quot (a - b) 2)) by int_range.
  rewrite wrap_id by int_range. exact E.
Qed.

(** X14: for the fixed alignments the revision that centres with two quotients
    ([inW/2 - wmW/2]) and the current one ([(inW - wmW)/2]) give the same
    position at the edges, and centred positions that differ by the parity
    shift: one pixel further when the image size is even and the watermark's
    is odd and fits, one pixel less when the image size is odd and the
    watermark's is even and larger. *)
Theorem previous_getWatermarkPosition_fixed `{rnd : rand.Source}
    (inputImage watermarkImage : image.Image.t)
    (verticalAlign : VerticalAlign) (horizontalAlign : HorizontalAlign)
    (spacing : Z) (seedX seedY g : rand.state) :
  let inW := image.Rectangle.Dx (image.Image.Bounds inputImage) in
  let inH := image.Rectangle.Dy (image.Image.Bounds inputImage) in
  let wmW := image.Rectangle.Dx (image.Image.Bounds watermarkImage) in
  let wmH := image.Rectangle.Dy (image.Image.Bounds watermarkImage) in
  0 <= inW -> 0 <= inH -> 0 <= wmW -> 0 <= wmH ->
  horizontalAlign <> HorizontalRandom -> verticalAlign <> VerticalRandom ->
  exists p q,
    previous.getWatermarkPosition inputImage watermarkImage verticalAlign horizontalAlign
      spacing seedX seedY = Ret p /\
    getWatermarkPosition watermarkImage inputImage verticalAlign horizontalAlign spacing g
    = Ret (q, g) /\
    image.Point.X p
    = image.Point.X q
      + (if (horizontalAlign =? HorizontalLeft) || (horizontalAlign =? HorizontalRight)
         then 0 else centreShift inW wmW) /\
    image.Point.Y p
    = image.Point.Y q
      + (if (verticalAlign =? VerticalTop) || (verticalAlign =? VerticalBottom)
         then 0 else centreShift inH wmH).
Proof.
  intros inW inH wmW wmH HiW HiH HwW HwH Hh Hv.
  pose proof (Dx_is_int (image.Image.Bounds inputImage)) as [_ ?].
  pose proof (Dy_is_int (image.Image.Bounds inputImage)) as [_ ?].
  pose proof (Dx_is_int (image.Image.Bounds watermarkImage)) as [_ ?].
  pose proof (Dy_is_int (image.Image.Bounds watermarkImage)) as [_ ?].
  pose proof (centre_axis inW wmW ltac:(unfold inW; lia) ltac:(unfold wmW; lia)) as EX.
  pose proof (centre_axis inH wmH ltac:(unfold inH; lia) ltac:(unfold wmH; lia)) as EY.
  unfold previous.getWatermarkPosition, getWatermarkPosition,
    HorizontalLeft, HorizontalMiddle, HorizontalRight, HorizontalRandom,
    VerticalTop, VerticalMiddle, VerticalBottom, VerticalRandom in *.
  cbv zeta. fold inW inH wmW wmH.
  destruct (Z.eqb_spec horizontalAlign 3) as [|_]; [contradiction|].
  destruct (Z.eqb_spec verticalAlign 3) as [|_]; [contradiction|].
  destruct (Z.eqb_spec horizontalAlign 0), (Z.eqb_spec horizontalAlign 1),
    (Z.eqb_spec horizontalAlign 2), (Z.eqb_spec verticalAlign 0),
    (Z.eqb_spec verticalAlign 1), (Z.eqb_spec verticalAlign 2);
    try (exfalso; lia);
    cbn [mbind outcome_bind orb image.Point.X image.Point.Y];
    eexists _, _; (split; [reflexivity|]); (split; [reflexivity|]);
    cbn [image.Point.X image.Point.Y]; split; first [exact EX | exact EY | lia].
Qed.

Lemma previous_getWatermarkPosition_fixed_witness :
  exists p q,
    @previous.getWatermarkPosition standin.rnd (standin.uniform 4 3 sample.red)
      (standin.uniform 3 2 sample.blue) VerticalMiddle HorizontalMiddle 0 5 6 = Ret p /\
    @getWatermarkPosition standin.rnd (standin.uniform 3 2 sample.blue)
      (standin.uniform 4 3 sample.red) VerticalMiddle HorizontalMiddle 0 7 = Ret (q, 7) /\
    image.Point.X p = image.Point.X q + 1 /\ image.Point.Y p = image.Point.Y q.
Proof.
  destruct (@previous_getWatermarkPosition_fixed standin.rnd (standin.uniform 4 3 sample.red)
              (standin.uniform 3 2 sample.blue) VerticalMiddle HorizontalMiddle 0 5 6 7)
    as (p & q & E1 & E2 & HX & HY); try (vm_compute; discriminate).
  exists p, q. split; [exact E1|]. split; [exact E2|].
  split; [exact HX|]. rewrite HY. vm_compute centreShift. cbn. lia.
Defined.

(** ** The result is drawn on a copy of the input *)

(** C10: whatever the watermark, the configuration and the library, an image
    that ApplySingle or ApplyGrid returns has the bounds of the input image;
    and, for an input that can be read, it is the prepared watermark drawn
    (once at the position, or at every grid position in turn) on a canvas that
    is a copy of the input: the input's bounds and the input's pixels. *)
Theorem apply_keeps_bounds `{lib : imaging.Lib} `{rnd : rand.Source}
    (inputImg watermarkImg : image.Image.t) :
  (forall (single : SingleConfig.t) (g g' : rand.state) (out : image.RGBA.t),
     ApplySingle inputImg watermarkImg single g = Ret (inr out, g') ->
     image.Rect out = image.Image.Bounds inputImg /\
     (wf_rect (image.Image.Bounds inputImg) -> readable inputImg ->
      exists canvas prepared pos,
        copyOf inputImg canvas /\
        opacityThenRotation watermarkImg (SingleConfig.General single) = Ret prepared /\
        drawWatermarkAtPosition canvas
          (resizeWatermark prepared inputImg (SingleConfig.General single)) pos = Ret out))
  /\ (forall (fuel : nat) (grid : GridConfig.t) (out : image.RGBA.t),
        ApplyGrid fuel inputImg watermarkImg grid = Ret (inr out) ->
        image.Rect out = image.Image.Bounds inputImg /\
        (wf_rect (image.Image.Bounds inputImg) -> readable inputImg ->
         exists canvas prepared positions,
           copyOf inputImg canvas /\
           opacityThenRotation watermarkImg (GridConfig.General grid) = Ret prepared /\
           generateGridPositions fuel inputImg
             (resizeWatermark prepared inputImg (GridConfig.General grid)) grid
           = Ret positions /\
           forM (fun canvas pos =>
                   drawWatermarkAtPosition canvas
                     (resizeWatermark prepared inputImg (GridConfig.General grid)) pos)
                positions canvas = Ret out)).
Proof.
  split.
  - intros single g g' out E.
    assert (Hv : SingleConfig.validate single = None).
    { destruct (SingleConfig.validate single) eqn:Hv; [|reflexivity].
      unfold ApplySingle in E. rewrite Hv in E. discriminate. }
    rewrite ApplySingle_unfold in E by exact Hv.
    apply bind_Ret in E as (prepared & Hprep & E).
    apply bind_Ret in E as ([c g1] & Eplace & E). injection E as -> ->.
    unfold placeSingle in Eplace. cbv zeta in Eplace.
    apply bind_Ret in Eplace as ([pos g2] & _ & Eplace).
    apply bind_Ret in Eplace as (canvas & Ec & Eplace).
    apply bind_Ret in Eplace as (c1 & Ed & Eplace). injection Eplace as -> ->.
    split.
    + apply drawWatermarkAtPosition_Rect in Ed. apply generateBaseCanvas_Rect in Ec. congruence.
    + intros Hr Hsrc.
      destruct (generateBaseCanvas_pixels inputImg Hr Hsrc) as (c0 & E0 & _ & HR & Hpix).
      rewrite E0 in Ec. injection Ec as <-.
      exists c0, prepared, pos. split; [split; assumption|]. split; assumption.
  - intros fuel grid out E.
    assert (Hv : GridConfig.validate grid = None).
    { destruct (GridConfig.validate grid) eqn:Hv; [|reflexivity].
      unfold ApplyGrid in E. rewrite Hv in E. discriminate. }
    rewrite ApplyGrid_unfold in E by exact Hv.
    apply bind_Ret in E as (prepared & Hprep & E).
    apply bind_Ret in E as (c & Eplace & E). injection E as ->.
    unfold placeGrid in Eplace. cbv zeta in Eplace.
    apply bind_Ret in Eplace as (positions & Epos & Eplace).
    split; [by apply applyGridWatermarks_Rect in Eplace|].
    intros Hr Hsrc. unfold applyGridWatermarks in Eplace.
    apply bind_Ret in Eplace as (canvas & Ec & Ed).
    destruct (generateBaseCanvas_pixels inputImg Hr Hsrc) as (c0 & E0 & _ & HR & Hpix).
    rewrite E0 in Ec. injection Ec as <-.
    exists c0, prepared, positions. split; [split; assumption|].
    split; [exact Hprep|]. split; assumption.
Qed.

Lemma apply_keeps_bounds_witness :
  let inputImg := standin.uniform 8 6 sample.red in
  let watermarkImg := standin.uniform 4 2 sample.blue in
  (exists out canvas,
     @ApplySingle standin.lib standin.rnd inputImg watermarkImg
       (sample.single 0.5 50 90 VerticalBottom HorizontalRight 1) 7 = Ret (inr out, 7)
     /\ image.Rect out = image.Rectangle.mk (image.Point.mk 0 0) (image.Point.mk 8 6)
     /\ copyOf inputImg canvas)
  /\ (exists out canvas,
        @ApplyGrid standin.lib 20 inputImg watermarkImg
          (GridConfig.mk (sample.general 0.5 50 90) 1 1 0 0) = Ret (inr out)
        /\ image.Rect out = image.Rectangle.mk (image.Point.mk 0 0) (image.Point.mk 8 6)
        /\ copyOf inputImg canvas).
Proof.
  cbv zeta.
  destruct (@apply_keeps_bounds standin.lib standin.rnd (standin.uniform 8 6 sample.red)
              (standin.uniform 4 2 sample.blue)) as [HS HG].
  assert (Hr : wf_rect (image.Image.Bounds (standin.uniform 8 6 sample.red)))
    by (apply (tabulate_wf 8 6); unfold MaxInt; lia).
  assert (Hsrc : readable (standin.uniform 8 6 sample.red))
    by (apply uniform_readable; unfold MaxInt; lia).
  split.
  - destruct (@ApplySingle standin.lib standin.rnd (standin.uniform 8 6 sample.red)
                (standin.uniform 4 2 sample.blue)
                (sample.single 0.5 50 90 VerticalBottom HorizontalRight 1) 7)
      as [[[err|out] g']| |] eqn:E; try (vm_compute in E; discriminate).
    assert (g' = 7) as -> by (pose proof E as E'; vm_compute in E'; by injection E').
    destruct (HS _ _ _ _ E) as [HR Hcopy].
    destruct (Hcopy Hr Hsrc) as (canvas & _ & _ & Hc & _).
    exists out, canvas. split; [reflexivity|]. split; [exact HR|exact Hc].
  - destruct (@ApplyGrid standin.lib 20 (standin.uniform 8 6 sample.red)
                (standin.uniform 4 2 sample.blue)
                (GridConfig.mk (sample.general 0.5 50 90) 1 1 0 0))
      as [[err|out]| |] eqn:E; try (vm_compute in E; discriminate).
    destruct (HG _ _ _ E) as [HR Hcopy].
    destruct (Hcopy Hr Hsrc) as (canvas & _ & _ & Hc & _).
    exists out, canvas. split; [reflexivity|]. split; [exact HR|exact Hc].
Defined.
